(** * cannyfs: the deferred-operation engine of [cannyfs.cpp]

    A shallow embedding of the barrier primitives, the handle table, the
    late-close reservoir and the FUSE callbacks of [src/example/cannyfs.cpp],
    followed by the properties the specification states about them.

    Conventions.
    - C++ integers are [Z]; the conversions the program performs
      ([long long] to [int] when a ticket is passed through
      [function<int(int)>], the atomic 64-bit increment) are written out.
    - The operating system is an oracle stored in the world: it answers a
      system call from the history of the calls made so far ([syslog]).
    - The state a computation runs on has two parts: the [world] all threads
      share (the globals of the program and the operating system) and what
      belongs to the running thread ([local]: its [errno] and the events it
      produced).
    - A call that may block ([mutex] and [shared_mutex] acquisition,
      [condition_variable::wait], [getfh] on an unbound handle) ends its
      atomic segment with [Blocked],
      carrying the condition it waits for and the rest of the computation,
      which resumes in whatever world the other threads have made by then.
    - [own] records, per thread and in program order, its system calls, its
      broadcasts and the barriers it constructs.  The program never reads
      it; what the program did is read off the world ([syslog], the
      mutexes, the tables). *)

From Stdlib Require Import ZArith Lia Bool.
From stdpp Require Import gmap strings list.

Open Scope string_scope.
Open Scope list_scope.
Open Scope Z_scope.

(** ** Machine integers *)

(** Two's complement reduction to [bits] bits. *)
Definition wrap (bits : Z) (x : Z) : Z :=
  (x + 2 ^ (bits - 1)) mod 2 ^ bits - 2 ^ (bits - 1).

(** Conversion to [int] (32 bits) and to [long long] (64 bits). *)
Definition to_int (x : Z) : Z := wrap 32 x.
Definition to_llong (x : Z) : Z := wrap 64 x.

(** Reduction to [size_t] (64 bits, unsigned). *)
Definition to_size_t (x : Z) : Z := x mod 2 ^ 64.

(** ** The operating system *)

(** The [struct stat] handed to [filler] in [cannyfs_readdir]: the one
    [fstatat] filled, or the zeroed one with [st_ino] and [st_mode] set. *)
Inductive stat_arg : Type :=
| st_from (words : list Z)
| st_ino_mode (ino mode : Z).

(** The calls a thread makes to its environment: the system calls, and the
    [filler] the kernel hands to [cannyfs_readdir] ([fuse_fill_dir]). *)
Inductive syscall : Type :=
| sys_lstat (path : string)
| sys_fstat (fd : Z)
| sys_access (path : string) (mask : Z)
| sys_readlink (path : string) (size : Z)
| sys_opendir (path : string)
| sys_seekdir (dp : Z) (loc : Z)
| sys_readdir (dp : Z)
| sys_telldir (dp : Z)
| sys_dirfd (dp : Z)
| sys_fstatat (dirfd : Z) (name : list Z) (flag : Z)
| sys_closedir (dp : Z)
| sys_mkfifo (path : string) (mode : Z)
| sys_mknod (path : string) (mode rdev : Z)
| sys_mkdir (path : string) (mode : Z)
| sys_unlink (path : string)
| sys_rmdir (path : string)
| sys_symlink (from to : string)
| sys_rename (from to : string)
| sys_link (from to : string)
| sys_chmod (path : string) (mode : Z)
| sys_lchown (path : string) (uid gid : Z)
| sys_truncate (path : string) (size : Z)
| sys_ftruncate (fd : Z) (size : Z)
| sys_open (path : string) (flags : Z) (mode : option Z)
| sys_pread (fd : Z) (size offset : Z)
| sys_pwrite (fd : Z) (buf : list Z) (size offset : Z)
| sys_statvfs (path : string)
| sys_dup (fd : Z)
| sys_close (fd : Z)
| sys_fsync (fd : Z)
| sys_fdatasync (fd : Z)
| sys_flock (fd : Z) (op : Z)
| fuse_fill_dir (name : list Z) (st : stat_arg) (off : Z) (flags : Z).

(** How a call reports failure, as far as the program tests it: [opendir]
    by a null pointer, the others by -1.  A failing call sets [errno]. *)
Definition sys_failed (s : syscall) (v : Z) : bool :=
  match s with
  | sys_opendir _ => v =? 0
  | _ => v =? -1
  end.

(** What a call yields: its return value, the [errno] it leaves when it
    fails, and the words it writes through its out-pointer ([st_mode] for
    [lstat]). *)
Record sysret : Type := mk_sysret {
  sr_val : Z;
  sr_errno : Z;
  sr_out : list Z
}.

Definition history : Type := list (syscall * sysret).
Definition oracle : Type := history -> syscall -> sysret.

(** ** Data of the program *)

(** [struct cannyfs_filedata].  [fd_locked] is the state of [mutex lock];
    the condition variable [processed] has no state of its own: its
    broadcasts are events of the thread that makes them. *)
Record cannyfs_filedata : Type := mk_filedata {
  fd_locked : bool;
  lastEventId : Z
}.

(** A freshly inserted record: [lastEventId = 0], mutex free. *)
Definition new_filedata : cannyfs_filedata :=
  {| fd_locked := false; lastEventId := 0 |}.

(** [struct cannyfs_filehandle].  The member mutex is only ever held inside
    one member function (and released by [opened.wait]), so it has no state
    that outlives an atomic segment. *)
Record cannyfs_filehandle : Type := mk_filehandle {
  fh_fd : Z;
  pipefds : Z * Z
}.

(** The constructor: [fd(-1), pipefds{-1, -1}]. *)
Definition new_filehandle : cannyfs_filehandle :=
  {| fh_fd := -1; pipefds := (-1, -1) |}.

(** [struct cannyfs_options] with its default member initialisers.
    [cannyfs_create] reads [options.eagercreate], a member the struct does
    not declare; it is carried here so that [cannyfs_create] can be written
    as it stands, and no default is assumed for it. *)
Record cannyfs_options : Type := mk_options {
  eagerlink : bool;
  eagerchmod : bool;
  veryeageraccess : bool;
  eageraccess : bool;
  eagerutimens : bool;
  eagerchown : bool;
  eagerclose : bool;
  closeverylate : bool;
  restrictivedirs : bool;
  eagerfsync : bool;
  ignorefsync : bool;
  numThreads : Z;
  eagercreate : bool
}.

Definition default_options (create : bool) : cannyfs_options :=
  {| eagerlink := true; eagerchmod := true; veryeageraccess := true;
     eageraccess := true; eagerutimens := true; eagerchown := true;
     eagerclose := true; closeverylate := true; restrictivedirs := false;
     eagerfsync := true; ignorefsync := true; numThreads := 16;
     eagercreate := create |}.

Definition JUST_BARRIER : Z := 0.
Definition LOCK_WHOLE : Z := 1.

(** What the build fixes and the source leaves open: the [HAVE_FDATASYNC]
    and [HAVE_FSTATAT] macros, the value an [int] lambda yields when control
    leaves it without a [return] (the closure of [cannyfs_create]), the
    capacity the standard library picks when a full [vector] of a given size
    reallocates, and the address [operator new] picks given the addresses in
    use. *)
Record build_config : Type := mk_build {
  HAVE_FDATASYNC : bool;
  HAVE_FSTATAT : bool;
  indeterminate : Z;
  vector_grow : nat -> nat;
  operator_new : gset Z -> Z
}.

(** [struct cannyfs_dirp].  [dirp_entry] is the [dirent] that [entry] points
    to, [None] for a null pointer: its words are [d_ino], [d_type] and the
    bytes of [d_name]. *)
Record cannyfs_dirp : Type := mk_dirp {
  dirp_dp : Z;
  dirp_entry : option (list Z);
  dirp_offset : Z
}.

Definition d_ino (e : list Z) : Z := nth 0 e 0.
Definition d_type (e : list Z) : Z := nth 1 e 0.
Definition d_name (e : list Z) : list Z := drop 2 e.

(** [struct fuse_file_info], the fields the program touches. *)
Record fuse_file_info : Type := mk_fi {
  fi_flags : Z;
  fi_fh : Z
}.

(** The lambdas handed to [cannyfs_add_write], one constructor per lambda
    expression of the source, with its captures. *)
Inductive path_fun : Type :=
| chmod_fun (mode : Z)
| chown_fun (uid gid : Z).

Inductive path2_fun : Type :=
| link_fun.

Inductive fi_fun : Type :=
| create_fun (mode : Z)
| flush_fun
| release_fun
| fsync_fun (isdatasync : Z).

(** The [function<int(int)>] objects the three path overloads of
    [cannyfs_add_write] build. *)
Inductive closure : Type :=
| on_path (path : string) (f : path_fun)
| on_path_fi (path : string) (fi : fuse_file_info) (f : fi_fun)
| on_path2 (path1 path2 : string) (f : path2_fun).

(** A task of [workQueue]: the lambda [[eventIdNow, fun]]. *)
Record task : Type := mk_task {
  t_event : Z;
  t_fun : closure
}.

Inductive event : Type :=
| ev_sys (s : syscall) (r : sysret)
| ev_stderr (errno : Z)
| ev_reader (path : string) (flag : Z)
| ev_writer (path : string) (flag : Z) (ticket : Z)
| ev_processed (path : string)
| ev_opened (fh : nat).

(** What belongs to one thread. *)
Record local : Type := mk_local {
  errno : Z;
  own : list event
}.

Definition fresh : local := {| errno := 0; own := [] |}.

Definition set_errno (e : Z) (l : local) : local :=
  {| errno := e; own := own l |}.
Definition emit (e : event) (l : local) : local :=
  {| errno := errno l; own := own l ++ [e] |}.

(** The globals of the program and the environment. *)
Record world : Type := mk_world {
  options : cannyfs_options;
  build : build_config;
  posix : oracle;
  syslog : history;
  eventId : Z;
  filemap : gmap string cannyfs_filedata;
  waitingEvents : gset Z;
  fhs : list cannyfs_filehandle;
  freefhs : list nat;
  closes : list Z;
  closes_capacity : nat;
  workQueue : list task;
  map_shared : nat;
  map_exclusive : bool;
  dirps : gmap Z cannyfs_dirp
}.

Definition set_syslog (h : history) (w : world) : world :=
  mk_world (options w) (build w) (posix w) h (eventId w) (filemap w)
    (waitingEvents w) (fhs w) (freefhs w) (closes w) (closes_capacity w)
    (workQueue w) (map_shared w) (map_exclusive w) (dirps w).
Definition set_eventId (e : Z) (w : world) : world :=
  mk_world (options w) (build w) (posix w) (syslog w) e (filemap w)
    (waitingEvents w) (fhs w) (freefhs w) (closes w) (closes_capacity w)
    (workQueue w) (map_shared w) (map_exclusive w) (dirps w).
Definition set_filemap (m : gmap string cannyfs_filedata) (w : world) : world :=
  mk_world (options w) (build w) (posix w) (syslog w) (eventId w) m
    (waitingEvents w) (fhs w) (freefhs w) (closes w) (closes_capacity w)
    (workQueue w) (map_shared w) (map_exclusive w) (dirps w).
Definition set_waitingEvents (s : gset Z) (w : world) : world :=
  mk_world (options w) (build w) (posix w) (syslog w) (eventId w) (filemap w)
    s (fhs w) (freefhs w) (closes w) (closes_capacity w)
    (workQueue w) (map_shared w) (map_exclusive w) (dirps w).
Definition set_fhs (l : list cannyfs_filehandle) (w : world) : world :=
  mk_world (options w) (build w) (posix w) (syslog w) (eventId w) (filemap w)
    (waitingEvents w) l (freefhs w) (closes w) (closes_capacity w)
    (workQueue w) (map_shared w) (map_exclusive w) (dirps w).
Definition set_freefhs (l : list nat) (w : world) : world :=
  mk_world (options w) (build w) (posix w) (syslog w) (eventId w) (filemap w)
    (waitingEvents w) (fhs w) l (closes w) (closes_capacity w)
    (workQueue w) (map_shared w) (map_exclusive w) (dirps w).
Definition set_closes (l : list Z) (c : nat) (w : world) : world :=
  mk_world (options w) (build w) (posix w) (syslog w) (eventId w) (filemap w)
    (waitingEvents w) (fhs w) (freefhs w) l c
    (workQueue w) (map_shared w) (map_exclusive w) (dirps w).
Definition set_workQueue (q : list task) (w : world) : world :=
  mk_world (options w) (build w) (posix w) (syslog w) (eventId w) (filemap w)
    (waitingEvents w) (fhs w) (freefhs w) (closes w) (closes_capacity w)
    q (map_shared w) (map_exclusive w) (dirps w).
Definition set_map_shared (n : nat) (w : world) : world :=
  mk_world (options w) (build w) (posix w) (syslog w) (eventId w) (filemap w)
    (waitingEvents w) (fhs w) (freefhs w) (closes w) (closes_capacity w)
    (workQueue w) n (map_exclusive w) (dirps w).
Definition set_map_exclusive (b : bool) (w : world) : world :=
  mk_world (options w) (build w) (posix w) (syslog w) (eventId w) (filemap w)
    (waitingEvents w) (fhs w) (freefhs w) (closes w) (closes_capacity w)
    (workQueue w) (map_shared w) b (dirps w).
Definition set_dirps (m : gmap Z cannyfs_dirp) (w : world) : world :=
  mk_world (options w) (build w) (posix w) (syslog w) (eventId w) (filemap w)
    (waitingEvents w) (fhs w) (freefhs w) (closes w) (closes_capacity w)
    (workQueue w) (map_shared w) (map_exclusive w) m.

(** The program at start-up: every global as its initialiser leaves it. *)
Definition initial_world (o : cannyfs_options) (b : build_config)
    (os : oracle) : world :=
  {| options := o; build := b; posix := os; syslog := []; eventId := 0;
     filemap := ∅; waitingEvents := ∅; fhs := []; freefhs := [];
     closes := []; closes_capacity := O; workQueue := [];
     map_shared := O; map_exclusive := false; dirps := ∅ |}.

(** ** Computations *)

(** What a blocked thread waits for. *)
Inductive guard : Type :=
| on_mutex (path : string)
| on_processed (path : string) (ticket : Z)
| on_opened (fh : nat)
| on_map_shared
| on_map_exclusive.

Definition mutex_free (path : string) (w : world) : bool :=
  match filemap w !! path with
  | Some d => negb (fd_locked d)
  | None => false
  end.

Definition fd_of (fh : nat) (w : world) : Z :=
  match fhs w !! fh with
  | Some h => fh_fd h
  | None => -1
  end.

(** When the wait can end.  A thread parked in [processed.wait] resumes
    holding the mutex again and leaves the loop only if the ticket it looks
    for is gone from [waitingEvents].  The [shared_mutex] of the map can be
    taken shared when no thread holds it exclusively, and exclusively when
    no thread holds it at all. *)
Definition guard_ok (g : guard) (w : world) : bool :=
  match g with
  | on_mutex p => mutex_free p w
  | on_processed p t =>
      mutex_free p w && negb (bool_decide (t ∈ waitingEvents w))
  | on_opened fh => negb (fd_of fh w =? -1)
  | on_map_shared => negb (map_exclusive w)
  | on_map_exclusive => negb (map_exclusive w) && (map_shared w =? 0)%nat
  end.

Inductive outcome (A : Type) : Type :=
| Ret (a : A) (l : local) (w : world)
| Blocked (g : guard) (l : local) (w : world) (k : world -> outcome A)
| Aborted (l : local) (w : world)
| Undefined (l : local) (w : world)
| OutOfFuel.

Arguments Ret {A} a l w.
Arguments Blocked {A} g l w k.
Arguments Aborted {A} l w.
Arguments Undefined {A} l w.
Arguments OutOfFuel {A}.

Definition M (A : Type) : Type := local -> world -> outcome A.

Fixpoint obind {A B : Type} (o : outcome A) (f : A -> M B) : outcome B :=
  match o with
  | Ret a l w => f a l w
  | Blocked g l w k => Blocked g l w (fun w' => obind (k w') f)
  | Aborted l w => Aborted l w
  | Undefined l w => Undefined l w
  | OutOfFuel => OutOfFuel
  end.

Definition ret {A : Type} (a : A) : M A := fun l w => Ret a l w.
Definition bind {A B : Type} (m : M A) (f : A -> M B) : M B :=
  fun l w => obind (m l w) f.

Notation "x <- m ;; k" := (bind m (fun x => k))
  (at level 100, m at next level, right associativity).
Notation "m ;; k" := (bind m (fun _ => k))
  (at level 100, right associativity).

Definition get {A : Type} (f : world -> A) : M A := fun l w => Ret (f w) l w.
Definition modify (f : world -> world) : M unit := fun l w => Ret tt l (f w).
Definition get_errno : M Z := fun l w => Ret (errno l) l w.
Definition log (e : event) : M unit := fun l w => Ret tt (emit e l) w.
Definition abort {A : Type} : M A := fun l w => Aborted l w.
Definition undefined {A : Type} : M A := fun l w => Undefined l w.

(** Park until [g] holds; the thread goes on, with what is its own, from the
    world it wakes in. *)
Definition await (g : guard) : M unit :=
  fun l w => if guard_ok g w then Ret tt l w
             else Blocked g l w (fun w' => Ret tt l w').

(** Issue a system call: ask the oracle, record the call, set [errno] on
    failure. *)
Definition do_sys (s : syscall) : M sysret :=
  fun l w =>
    let r := posix w (syslog w) s in
    let l1 := emit (ev_sys s r) l in
    Ret r (if sys_failed s (sr_val r) then set_errno (sr_errno r) l1 else l1)
          (set_syslog (syslog w ++ [(s, r)]) w).

(** ** Mutexes and [unique_lock] *)

(** A [unique_lock<mutex>]: the mutex it is associated with (the key of the
    path record that holds it) and whether it owns the lock. *)
Record unique_lock : Type := mk_lock {
  ul_mutex : option string;
  ul_owns : bool
}.

(** A default-constructed [unique_lock]. *)
Definition no_lock : unique_lock := {| ul_mutex := None; ul_owns := false |}.

Definition set_locked (p : string) (b : bool) (w : world) : world :=
  set_filemap
    (alter (fun d => {| fd_locked := b; lastEventId := lastEventId d |}) p
       (filemap w)) w.

(** A lock that owns the mutex of [p]. *)
Definition owned (p : string) : unique_lock :=
  {| ul_mutex := Some p; ul_owns := true |}.

(** [unique_lock<mutex>(m)]: wait for the mutex, take it. *)
Definition lock_mutex (p : string) : M unique_lock :=
  await (on_mutex p) ;;
  modify (set_locked p true) ;;
  ret {| ul_mutex := Some p; ul_owns := true |}.

(** [~unique_lock]: unlock if owning. *)
Definition lock_dtor (l : unique_lock) : M unit :=
  match ul_mutex l with
  | Some p => if ul_owns l then modify (set_locked p false) else ret tt
  | None => ret tt
  end.

(** [lock = unique_lock<mutex>(m)]: the temporary takes [m], then the move
    assignment unlocks what [lock] owned before. *)
Definition lock_assign (old : unique_lock) (p : string) : M unique_lock :=
  l <- lock_mutex p ;;
  lock_dtor old ;;
  ret l.

(** [unique_lock::release]: the lock forgets its mutex WITHOUT unlocking it. *)
Definition lock_release (l : unique_lock) : unique_lock := no_lock.

(** [unique_lock::lock]: [None] stands for the [std::system_error] it throws
    when it has no mutex or owns it already. *)
Definition lock_lock (l : unique_lock) : M (option unique_lock) :=
  match ul_mutex l with
  | None => ret None
  | Some p =>
      if ul_owns l then ret None
      else l' <- lock_mutex p ;; ret (Some l')
  end.

(** ** [cannyfs_filehandle] and the handle table *)

Definition with_fd (fd : Z) (h : cannyfs_filehandle) : cannyfs_filehandle :=
  {| fh_fd := fd; pipefds := pipefds h |}.

(** [cannyfs_filehandle::setfh], on the handle [fhs[i]]. *)
Definition setfh (i : nat) (fd : Z) : M unit :=
  modify (fun w => set_fhs (alter (with_fd fd) i (fhs w)) w) ;;
  log (ev_opened i).

(** [cannyfs_filehandle::getfh], on the handle [fhs[i]]. *)
Definition getfh (i : nat) : M Z :=
  await (on_opened i) ;;
  get (fd_of i).

(** [getnewfh], as an index into [fhs]. *)
Definition getnewfh : M nat :=
  free <- get freefhs ;;
  match free with
  | i :: rest => modify (set_freefhs rest) ;; ret i
  | [] =>
      n <- get (fun w => length (fhs w)) ;;
      modify (fun w => set_fhs (fhs w ++ [new_filehandle]) w) ;;
      ret n
  end.

(** [getcfh(int fd)]: [&fhs[fd]]; indexing outside the vector is undefined. *)
Definition getcfh (fd : Z) : M nat :=
  n <- get (fun w => Z.of_nat (length (fhs w))) ;;
  let i := to_int fd in
  if (0 <=? i) && (i <? n) then ret (Z.to_nat i) else undefined.

(** The handle a [fuse_file_info] names, as [getcfh] reads [fi->fh]. *)
Definition handle_of (fi : fuse_file_info) : nat := Z.to_nat (to_int (fi_fh fi)).

(** The global [getfh], on a [fuse_file_info]. *)
Definition getfh_fi (fi : fuse_file_info) : M Z :=
  i <- getcfh (fi_fh fi) ;;
  getfh i.

(** ** Error reporting and the late-close reservoir *)

Definition cannyfs_reporterror : M unit :=
  e <- get_errno ;;
  log (ev_stderr e).

Definition cannyfs_negerrorchecker (code : Z) : M unit :=
  if code <? 0 then cannyfs_reporterror else ret tt.

(** [~cannyfs_closer]. *)
Definition closer_dtor (fd : Z) : M unit :=
  r <- do_sys (sys_close fd) ;;
  cannyfs_negerrorchecker (sr_val r).

Fixpoint destroy_closers (l : list Z) : M unit :=
  match l with
  | [] => ret tt
  | fd :: rest => closer_dtor fd ;; destroy_closers rest
  end.

(** [closes.push_back(fd)] with an [int] argument.  The argument converts to
    a temporary [cannyfs_closer]; the vector stores a copy of it (a full
    vector first moves to larger storage by copying its elements and
    destroying the old ones); the temporary dies at the end of the
    statement.  Every destroyed [cannyfs_closer] closes its descriptor. *)
Definition closes_push_back (fd : Z) : M unit :=
  l <- get closes ;;
  c <- get closes_capacity ;;
  (if (length l =? c)%nat then
     g <- get (fun w => vector_grow (build w)) ;;
     modify (set_closes (l ++ [fd]) (g c)) ;;
     destroy_closers l
   else modify (set_closes (l ++ [fd]) c)) ;;
  closer_dtor fd.

(** ** [cannyfs_filemap]

    The member [shared_mutex lock]: [map_shared] counts the threads that
    hold it shared, [map_exclusive] says whether one holds it
    exclusively. *)

(** [shared_lock<shared_mutex> maplock(this->lock)] and its destructor. *)
Definition map_lock_shared : M unit :=
  await on_map_shared ;;
  modify (fun w => set_map_shared (S (map_shared w)) w).
Definition map_unlock_shared : M unit :=
  modify (fun w => set_map_shared (Nat.pred (map_shared w)) w).

(** [unique_lock<shared_mutex> maplock(this->lock)] and its destructor. *)
Definition map_lock : M unit :=
  await on_map_exclusive ;;
  modify (set_map_exclusive true).
Definition map_unlock : M unit :=
  modify (set_map_exclusive false).

(** [cannyfs_filemap::get].  In both blocks the mutex of the record is
    taken while [maplock] is held, and [maplock] is given back at the end of
    the block. *)
Definition filemap_get (path : string) (always : bool) (lock : unique_lock)
    : M (option string * unique_lock) :=
  map_lock_shared ;;
  found <- get (fun w => filemap w !! path) ;;
  r <- match found with
       | Some _ => l <- lock_assign lock path ;; ret (Some path, l)
       | None => ret (None, lock)
       end ;;
  map_unlock_shared ;;
  match r with
  | (None, lock1) =>
      if always then
        map_lock ;;
        again <- get (fun w => filemap w !! path) ;;
        match again with
        | Some _ => ret tt
        | None =>
            modify (fun w => set_filemap (<[path := new_filedata]> (filemap w)) w)
        end ;;
        l <- lock_assign lock1 path ;;
        map_unlock ;;
        ret (Some path, l)
      else ret r
  | (Some _, _) => ret r
  end.

(** ** Barriers *)

Record reader : Type := mk_reader {
  r_lock : unique_lock;
  r_fileobj : option string
}.

Definition last_event_of (p : string) (w : world) : Z :=
  match filemap w !! p with
  | Some d => lastEventId d
  | None => 0
  end.

(** [while (waitingEvents.find(eventId) != waitingEvents.end())
       fileobj->processed.wait(locallock);]
    The wait gives the mutex up and gets it back on wake-up. *)
Definition processed_wait (p : string) (eventId : Z) : M unit :=
  waiting <- get (fun w => bool_decide (eventId ∈ waitingEvents w)) ;;
  if waiting then
    modify (set_locked p false) ;;
    await (on_processed p eventId) ;;
    modify (set_locked p true)
  else ret tt.

(** [cannyfs_reader::cannyfs_reader]. *)
Definition cannyfs_reader (path : string) (flag : Z) : M reader :=
  log (ev_reader path flag) ;;
  r <- filemap_get path (flag =? LOCK_WHOLE) no_lock ;;
  let fileobj := fst r in
  let locallock := snd r in
  match fileobj with
  | Some p =>
      eventId <- get (last_event_of p) ;;
      processed_wait p eventId
  | None => ret tt
  end ;;
  if flag =? LOCK_WHOLE then
    ret {| r_lock := locallock; r_fileobj := fileobj |}
  else
    lock_dtor locallock ;;
    ret {| r_lock := no_lock; r_fileobj := fileobj |}.

(** The implicit destructor of [cannyfs_reader]. *)
Definition reader_dtor (b : reader) : M unit := lock_dtor (r_lock b).

#[local] Unset Elimination Schemes.
Inductive writer : Type :=
| mk_writer (w_lock : unique_lock) (w_fileobj : option string)
    (generalwriter : option writer) (w_eventId : Z) (global : bool).

#[local] Set Elimination Schemes.

Definition generalwriter_of (wr : writer) : option writer :=
  match wr with mk_writer _ _ g _ _ => g end.
Definition global_of (wr : writer) : bool :=
  match wr with mk_writer _ _ _ _ g => g end.
Definition lock_of (wr : writer) : unique_lock :=
  match wr with mk_writer l _ _ _ _ => l end.
Definition fileobj_of (wr : writer) : option string :=
  match wr with mk_writer _ f _ _ _ => f end.

Definition insert_event (t : Z) (w : world) : world :=
  set_waitingEvents ({[ t ]} ∪ waitingEvents w) w.
Definition erase_event (t : Z) (w : world) : world :=
  set_waitingEvents (waitingEvents w ∖ {[ t ]}) w.

(** [cannyfs_writer::cannyfs_writer].  The constructor calls itself for the
    general writer; [fuel] bounds the depth of that recursion. *)
Fixpoint cannyfs_writer (fuel : nat) (path : string) (flag : Z) (eventId : Z)
    : M writer :=
  match fuel with
  | O => fun _ _ => OutOfFuel
  | S fuel' =>
      let global := negb (String.eqb path "") in
      log (ev_writer path flag eventId) ;;
      (if global then modify (insert_event eventId) else ret tt) ;;
      r <- filemap_get path true no_lock ;;
      let fileobj := fst r in
      let lock := if negb (flag =? LOCK_WHOLE) then lock_release (snd r)
                  else snd r in
      restrictive <- get (fun w => restrictivedirs (options w)) ;;
      g <- (if negb global && restrictive then
              g <- cannyfs_writer fuel' "" JUST_BARRIER eventId ;;
              ret (Some g)
            else ret None) ;;
      ret (mk_writer lock fileobj g eventId global)
  end.

(** [cannyfs_writer::~cannyfs_writer], then the destructor of the member
    [lock].  A destructor is [noexcept]: the [system_error] of
    [lock.lock()] ends the process. *)
Fixpoint writer_dtor (wr : writer) : M unit :=
  match wr with
  | mk_writer lock fileobj g eventId global =>
      (if negb global then modify (erase_event eventId) else ret tt) ;;
      lock' <- (if negb (ul_owns lock) then
                  l <- lock_lock lock ;;
                  match l with
                  | Some l' => ret l'
                  | None => abort
                  end
                else ret lock) ;;
      match fileobj with
      | Some p => log (ev_processed p)
      | None => undefined
      end ;;
      match g with
      | Some gw => writer_dtor gw
      | None => ret tt
      end ;;
      lock_dtor lock'
  end.

(** [cannyfs_dirreader::cannyfs_dirreader]. *)
Definition cannyfs_dirreader (path : string) (flag : Z) : M reader :=
  restrictive <- get (fun w => restrictivedirs (options w)) ;;
  cannyfs_reader (if restrictive then "" else path) flag.

(** ** Deferred writes *)

Definition neg_errno : M Z := e <- get_errno ;; ret (- e).

(** [if (res == -1) return -errno; return 0;] *)
Definition zero_or_neg_errno (r : sysret) : M Z :=
  if sr_val r =? -1 then neg_errno else ret 0.

(** The lambdas of [cannyfs_chmod] and [cannyfs_chown]. *)
Definition run_path_fun (f : path_fun) (path : string) : M Z :=
  match f with
  | chmod_fun mode =>
      r <- do_sys (sys_chmod path mode) ;; zero_or_neg_errno r
  | chown_fun uid gid =>
      r <- do_sys (sys_lchown path uid gid) ;; zero_or_neg_errno r
  end.

(** The lambda of [cannyfs_link]. *)
Definition run_path2_fun (f : path2_fun) (from to : string) : M Z :=
  match f with
  | link_fun => r <- do_sys (sys_link from to) ;; zero_or_neg_errno r
  end.

(** The lambdas of [cannyfs_create], [cannyfs_flush], [cannyfs_release] and
    [cannyfs_fsync].  The lambda of [cannyfs_create] has no [return] after
    [setfh]. *)
Definition run_fi_fun (f : fi_fun) (path : string) (fi : fuse_file_info)
    : M Z :=
  match f with
  | create_fun mode =>
      r <- do_sys (sys_open path (fi_flags fi) (Some mode)) ;;
      if sr_val r =? -1 then neg_errno
      else
        h <- getcfh (fi_fh fi) ;;
        setfh h (sr_val r) ;;
        get (fun w => indeterminate (build w))
  | flush_fun =>
      fd <- getfh_fi fi ;;
      d <- do_sys (sys_dup fd) ;;
      r <- do_sys (sys_close (sr_val d)) ;;
      zero_or_neg_errno r
  | release_fun =>
      fd <- getfh_fi fi ;;
      r <- do_sys (sys_close fd) ;;
      ret (sr_val r)
  | fsync_fun isdatasync =>
      have <- get (fun w => HAVE_FDATASYNC (build w)) ;;
      r <- (if have && negb (isdatasync =? 0) then
              fd <- getfh_fi fi ;; do_sys (sys_fdatasync fd)
            else
              fd <- getfh_fi fi ;; do_sys (sys_fsync fd)) ;;
      zero_or_neg_errno r
  end.

(** A writer on "" and its general writer: the second constructor already
    finds the mutex of "" taken, so two levels are all the recursion can
    reach (see [cannyfs_writer_fuel]). *)
Definition writer_fuel : nat := 2%nat.

(** The bodies of the [function<int(int)>] objects: a [LOCK_WHOLE] writer
    around the user's lambda. *)
Definition run_closure (c : closure) (eventId : Z) : M Z :=
  match c with
  | on_path path f =>
      wr <- cannyfs_writer writer_fuel path LOCK_WHOLE eventId ;;
      r <- run_path_fun f path ;;
      writer_dtor wr ;;
      ret r
  | on_path_fi path fi f =>
      wr <- cannyfs_writer writer_fuel path LOCK_WHOLE eventId ;;
      r <- run_fi_fun f path fi ;;
      writer_dtor wr ;;
      ret r
  | on_path2 path1 path2 f =>
      writer1 <- cannyfs_writer writer_fuel path1 LOCK_WHOLE eventId ;;
      writer2 <- cannyfs_writer writer_fuel path2 LOCK_WHOLE eventId ;;
      r <- run_path2_fun f path1 path2 ;;
      writer_dtor writer2 ;;
      writer_dtor writer1 ;;
      ret r
  end.

(** A worker runs a task: [fun(eventIdNow)], the ticket converted to [int]. *)
Definition run_task (t : task) : M Z := run_closure (t_fun t) (to_int (t_event t)).

(** [cannyfs_add_write(bool defer, function<int(int)> fun)]. *)
Definition cannyfs_add_write (defer : bool) (fn : closure) : M Z :=
  eventIdNow <- get (fun w => to_llong (eventId w + 1)) ;;
  modify (set_eventId eventIdNow) ;;
  if negb defer then run_closure fn (to_int eventIdNow)
  else
    modify (fun w =>
      set_workQueue (workQueue w ++ [{| t_event := eventIdNow; t_fun := fn |}]) w) ;;
    ret 0.

(** The three overloads that take paths. *)
Definition cannyfs_add_write_path (defer : bool) (path : string)
    (f : path_fun) : M Z :=
  cannyfs_add_write defer (on_path path f).
Definition cannyfs_add_write_fi (defer : bool) (path : string)
    (origfi : fuse_file_info) (f : fi_fun) : M Z :=
  cannyfs_add_write defer (on_path_fi path origfi f).
Definition cannyfs_add_write_path2 (defer : bool) (path1 path2 : string)
    (f : path2_fun) : M Z :=
  cannyfs_add_write defer (on_path2 path1 path2 f).

(** ** The callbacks *)

Definition EINVAL : Z := 22.

Definition cannyfs_getattr (path : string) : M Z :=
  b <- cannyfs_reader path JUST_BARRIER ;;
  r <- do_sys (sys_lstat path) ;;
  res <- zero_or_neg_errno r ;;
  reader_dtor b ;;
  ret res.

(** [cannyfs_fgetattr] hands [fi->fh], the handle id, to [fstat]'s [int]. *)
Definition cannyfs_fgetattr (path : string) (fi : fuse_file_info) : M Z :=
  b <- cannyfs_reader path JUST_BARRIER ;;
  r <- do_sys (sys_fstat (to_int (fi_fh fi))) ;;
  res <- zero_or_neg_errno r ;;
  reader_dtor b ;;
  ret res.

Definition cannyfs_access (path : string) (mask : Z) : M Z :=
  very <- get (fun w => veryeageraccess (options w)) ;;
  if very then ret 0
  else
    b <- cannyfs_reader path JUST_BARRIER ;;
    eager <- get (fun w => eageraccess (options w)) ;;
    res <- (if eager then ret 0
            else r <- do_sys (sys_access path mask) ;; zero_or_neg_errno r) ;;
    reader_dtor b ;;
    ret res.

(** [cannyfs_readlink].  [size - 1] is computed in [size_t]; [int res]
    receives what [readlink] returns; [buf[res] = 0] writes into the [size]
    bytes of [buf], and outside them it is undefined. *)
Definition cannyfs_readlink (path : string) (size : Z) : M Z :=
  b <- cannyfs_reader path JUST_BARRIER ;;
  r <- do_sys (sys_readlink path (to_size_t (size - 1))) ;;
  let res := to_int (sr_val r) in
  ret' <- (if res =? -1 then neg_errno
           else if (0 <=? res) && (res <? size) then ret 0
                else undefined) ;;
  reader_dtor b ;;
  ret ret'.

(** ** Directory handles

    A [cannyfs_dirp] lives on the heap; [fi->fh] holds its address. *)

Definition ENOMEM : Z := 12.

(** The members of a [cannyfs_dirp] that [new] has just made are not
    initialised; the program assigns each before it reads it. *)
Definition blank_dirp : cannyfs_dirp :=
  {| dirp_dp := 0; dirp_entry := None; dirp_offset := 0 |}.

(** [new cannyfs_dirp]: storage at the address [operator new] picks, which
    is neither null nor in use.  An [operator new] that has no such address
    throws [bad_alloc], which nothing catches. *)
Definition new_dirp : M Z :=
  live <- get (fun w => dom (dirps w)) ;;
  a <- get (fun w => operator_new (build w) live) ;;
  if (a =? 0) || bool_decide (a ∈ live) then abort
  else
    modify (fun w => set_dirps (<[a := blank_dirp]> (dirps w)) w) ;;
    ret a.

(** [free(d)]. *)
Definition free_dirp (a : Z) : M unit :=
  modify (fun w => set_dirps (delete a (dirps w)) w).

(** Reading through a [cannyfs_dirp*]: outside the live objects it is
    undefined. *)
Definition dirp_at (a : Z) : M cannyfs_dirp :=
  d <- get (fun w => dirps w !! a) ;;
  match d with
  | Some d => ret d
  | None => undefined
  end.

Definition set_dirp (a : Z) (d : cannyfs_dirp) : M unit :=
  modify (fun w => set_dirps (<[a := d]> (dirps w)) w).

(** [cannyfs_opendir].  0 is [NULL]. *)
Definition cannyfs_opendir (path : string) (fi : fuse_file_info)
    : M (Z * fuse_file_info) :=
  b <- cannyfs_dirreader path JUST_BARRIER ;;
  d <- new_dirp ;;
  res <- (if d =? 0 then ret (- ENOMEM, fi)
          else
            r <- do_sys (sys_opendir path) ;;
            set_dirp d {| dirp_dp := sr_val r;
                          dirp_entry := dirp_entry blank_dirp;
                          dirp_offset := dirp_offset blank_dirp |} ;;
            if sr_val r =? 0 then
              res <- neg_errno ;;
              free_dirp d ;;
              ret (res, fi)
            else
              set_dirp d {| dirp_dp := sr_val r; dirp_entry := None;
                            dirp_offset := 0 |} ;;
              ret (0, {| fi_flags := fi_flags fi; fi_fh := d |})) ;;
  reader_dtor b ;;
  ret res.

Definition FUSE_READDIR_PLUS : Z := 1.
Definition FUSE_FILL_DIR_PLUS : Z := 2.
Definition AT_SYMLINK_NOFOLLOW : Z := 256.

(** The loop of [cannyfs_readdir] on the [cannyfs_dirp] at [a].  It ends
    when the stream or [filler] says so; [walk] bounds the number of its
    turns. *)
Fixpoint readdir_loop (walk : nat) (a : Z) (flags : Z) : M unit :=
  match walk with
  | O => fun _ _ => OutOfFuel
  | S walk' =>
      d <- dirp_at a ;;
      entry <- match dirp_entry d with
               | Some e => ret (Some e)
               | None =>
                   r <- do_sys (sys_readdir (dirp_dp d)) ;;
                   let e := if sr_val r =? 0 then None else Some (sr_out r) in
                   set_dirp a {| dirp_dp := dirp_dp d; dirp_entry := e;
                                 dirp_offset := dirp_offset d |} ;;
                   ret e
               end ;;
      match entry with
      | None => ret tt
      | Some e =>
          have <- get (fun w => HAVE_FSTATAT (build w)) ;;
          plus <- (if have && negb (Z.land flags FUSE_READDIR_PLUS =? 0) then
                     fd <- do_sys (sys_dirfd (dirp_dp d)) ;;
                     r <- do_sys (sys_fstatat (sr_val fd) (d_name e)
                                    AT_SYMLINK_NOFOLLOW) ;;
                     ret (if sr_val r =? -1 then None else Some (sr_out r))
                   else ret None) ;;
          let st := match plus with
                    | Some words => st_from words
                    | None => st_ino_mode (d_ino e) (Z.shiftl (d_type e) 12)
                    end in
          let fill_flags := match plus with
                            | Some _ => FUSE_FILL_DIR_PLUS
                            | None => 0
                            end in
          nextoff <- do_sys (sys_telldir (dirp_dp d)) ;;
          full <- do_sys (fuse_fill_dir (d_name e) st (sr_val nextoff)
                            fill_flags) ;;
          if negb (sr_val full =? 0) then ret tt
          else
            set_dirp a {| dirp_dp := dirp_dp d; dirp_entry := None;
                          dirp_offset := sr_val nextoff |} ;;
            readdir_loop walk' a flags
      end
  end.

(** [cannyfs_readdir]. *)
Definition cannyfs_readdir (path : string) (offset : Z) (fi : fuse_file_info)
    (flags : Z) (walk : nat) : M Z :=
  b <- cannyfs_dirreader path JUST_BARRIER ;;
  d <- dirp_at (fi_fh fi) ;;
  (if negb (offset =? dirp_offset d) then
     do_sys (sys_seekdir (dirp_dp d) offset) ;;
     set_dirp (fi_fh fi) {| dirp_dp := dirp_dp d; dirp_entry := None;
                            dirp_offset := offset |}
   else ret tt) ;;
  readdir_loop walk (fi_fh fi) flags ;;
  reader_dtor b ;;
  ret 0.

Definition cannyfs_releasedir (path : string) (fi : fuse_file_info) : M Z :=
  d <- dirp_at (fi_fh fi) ;;
  do_sys (sys_closedir (dirp_dp d)) ;;
  free_dirp (fi_fh fi) ;;
  ret 0.

(** [S_ISFIFO(mode)]: [(mode & S_IFMT) == S_IFIFO]. *)
Definition S_ISFIFO (mode : Z) : bool := Z.land mode 61440 =? 4096.

Definition cannyfs_mknod (path : string) (mode rdev : Z) : M Z :=
  r <- (if S_ISFIFO mode then do_sys (sys_mkfifo path mode)
        else do_sys (sys_mknod path mode rdev)) ;;
  zero_or_neg_errno r.

Definition cannyfs_mkdir (path : string) (mode : Z) : M Z :=
  r <- do_sys (sys_mkdir path mode) ;; zero_or_neg_errno r.

Definition cannyfs_unlink (path : string) : M Z :=
  r <- do_sys (sys_unlink path) ;; zero_or_neg_errno r.

Definition cannyfs_rmdir (path : string) : M Z :=
  r <- do_sys (sys_rmdir path) ;; zero_or_neg_errno r.

Definition cannyfs_symlink (from to : string) : M Z :=
  r <- do_sys (sys_symlink from to) ;; zero_or_neg_errno r.

Definition cannyfs_rename (from to : string) (flags : Z) : M Z :=
  b <- cannyfs_reader from LOCK_WHOLE ;;
  res <- (if negb (flags =? 0) then ret (- EINVAL)
          else r <- do_sys (sys_rename from to) ;; zero_or_neg_errno r) ;;
  reader_dtor b ;;
  ret res.

Definition cannyfs_link (cfrom cto : string) : M Z :=
  eager <- get (fun w => eagerlink (options w)) ;;
  cannyfs_add_write_path2 eager cfrom cto link_fun.

Definition cannyfs_chmod (cpath : string) (mode : Z) : M Z :=
  eager <- get (fun w => eagerchmod (options w)) ;;
  cannyfs_add_write_path eager cpath (chmod_fun mode).

Definition cannyfs_chown (cpath : string) (uid gid : Z) : M Z :=
  eager <- get (fun w => eagerchown (options w)) ;;
  cannyfs_add_write_path eager cpath (chown_fun uid gid).

Definition cannyfs_truncate (path : string) (size : Z) : M Z :=
  r <- do_sys (sys_truncate path size) ;; zero_or_neg_errno r.

Definition cannyfs_ftruncate (path : string) (size : Z)
    (fi : fuse_file_info) : M Z :=
  fd <- getfh_fi fi ;;
  r <- do_sys (sys_ftruncate fd size) ;;
  zero_or_neg_errno r.

Definition cannyfs_create (path : string) (mode : Z) (fi : fuse_file_info)
    : M (Z * fuse_file_info) :=
  i <- getnewfh ;;
  let fi' := {| fi_flags := fi_flags fi; fi_fh := Z.of_nat i |} in
  eager <- get (fun w => eagercreate (options w)) ;;
  res <- cannyfs_add_write_fi eager path fi' (create_fun mode) ;;
  ret (res, fi').

Definition cannyfs_open (path : string) (fi : fuse_file_info)
    : M (Z * fuse_file_info) :=
  i <- getnewfh ;;
  let fi' := {| fi_flags := fi_flags fi; fi_fh := Z.of_nat i |} in
  r <- do_sys (sys_open path (fi_flags fi') None) ;;
  if sr_val r =? -1 then e <- neg_errno ;; ret (e, fi')
  else
    h <- getcfh (fi_fh fi') ;;
    setfh h (sr_val r) ;;
    ret (0, fi').

(** [cannyfs_read]: [int res] receives what [pread] returns. *)
Definition cannyfs_read (path : string) (size offset : Z)
    (fi : fuse_file_info) : M Z :=
  fd <- getfh_fi fi ;;
  r <- do_sys (sys_pread fd size offset) ;;
  let res := to_int (sr_val r) in
  if res =? -1 then neg_errno else ret res.

(** [cannyfs_read_buf]: the buffer it hands back names the descriptor. *)
Definition cannyfs_read_buf (path : string) (size offset : Z)
    (fi : fuse_file_info) : M (Z * Z) :=
  b <- cannyfs_reader path JUST_BARRIER ;;
  fd <- getfh_fi fi ;;
  reader_dtor b ;;
  ret (0, fd).

Definition cannyfs_write (path : string) (buf : list Z) (size offset : Z)
    (fi : fuse_file_info) : M Z :=
  (abort : M unit) ;;
  fd <- getfh_fi fi ;;
  r <- do_sys (sys_pwrite fd buf size offset) ;;
  let res := to_int (sr_val r) in
  if res =? -1 then neg_errno else ret res.

Definition cannyfs_statfs (path : string) : M Z :=
  b <- cannyfs_reader path JUST_BARRIER ;;
  r <- do_sys (sys_statvfs path) ;;
  res <- zero_or_neg_errno r ;;
  reader_dtor b ;;
  ret res.

Definition cannyfs_flush (cpath : string) (fi : fuse_file_info) : M Z :=
  late <- get (fun w => closeverylate (options w)) ;;
  if late then
    fd <- getfh_fi fi ;;
    d <- do_sys (sys_dup fd) ;;
    closes_push_back (sr_val d) ;;
    ret 0
  else
    eager <- get (fun w => eagerclose (options w)) ;;
    cannyfs_add_write_fi eager cpath fi flush_fun.

(** [cannyfs_release].  The [if] block has no [return]: control goes on to
    [cannyfs_add_write] whatever [closeverylate] is. *)
Definition cannyfs_release (cpath : string) (fi : fuse_file_info) : M Z :=
  late <- get (fun w => closeverylate (options w)) ;;
  (if late then
     fd <- getfh_fi fi ;;
     closes_push_back fd
   else ret tt) ;;
  eager <- get (fun w => eagerclose (options w)) ;;
  cannyfs_add_write_fi eager cpath fi release_fun.

Definition cannyfs_fsync (cpath : string) (isdatasync : Z)
    (fi : fuse_file_info) : M Z :=
  ignore <- get (fun w => ignorefsync (options w)) ;;
  if ignore then ret 0
  else
    eager <- get (fun w => eagerfsync (options w)) ;;
    cannyfs_add_write_fi eager cpath fi (fsync_fun isdatasync).

Definition cannyfs_flock (path : string) (fi : fuse_file_info) (op : Z)
    : M Z :=
  b <- cannyfs_reader path JUST_BARRIER ;;
  fd <- getfh_fi fi ;;
  r <- do_sys (sys_flock fd op) ;;
  res <- zero_or_neg_errno r ;;
  reader_dtor b ;;
  ret res.

(** ** The running system *)

(** The entries of [cannyfs_oper] modelled above, with their arguments
    ([cb_readdir] also with the bound on the turns of its loop: every walk
    that ends is the walk of some bound).  Left out: [write_buf], whose body
    names a variable that is not declared ([dst]), and the entries that
    exist only under a configuration macro
    ([utimens], [fallocate], the xattr calls, [lock]).  None of them calls
    [setfh]. *)
Inductive callback : Type :=
| cb_getattr (path : string)
| cb_fgetattr (path : string) (fi : fuse_file_info)
| cb_access (path : string) (mask : Z)
| cb_readlink (path : string) (size : Z)
| cb_opendir (path : string) (fi : fuse_file_info)
| cb_readdir (path : string) (offset : Z) (fi : fuse_file_info) (flags : Z)
    (walk : nat)
| cb_releasedir (path : string) (fi : fuse_file_info)
| cb_mknod (path : string) (mode rdev : Z)
| cb_mkdir (path : string) (mode : Z)
| cb_unlink (path : string)
| cb_rmdir (path : string)
| cb_symlink (from to : string)
| cb_rename (from to : string) (flags : Z)
| cb_link (from to : string)
| cb_chmod (path : string) (mode : Z)
| cb_chown (path : string) (uid gid : Z)
| cb_truncate (path : string) (size : Z)
| cb_ftruncate (path : string) (size : Z) (fi : fuse_file_info)
| cb_create (path : string) (mode : Z) (fi : fuse_file_info)
| cb_open (path : string) (fi : fuse_file_info)
| cb_read (path : string) (size offset : Z) (fi : fuse_file_info)
| cb_read_buf (path : string) (size offset : Z) (fi : fuse_file_info)
| cb_write (path : string) (buf : list Z) (size offset : Z) (fi : fuse_file_info)
| cb_statfs (path : string)
| cb_flush (path : string) (fi : fuse_file_info)
| cb_release (path : string) (fi : fuse_file_info)
| cb_fsync (path : string) (isdatasync : Z) (fi : fuse_file_info)
| cb_flock (path : string) (fi : fuse_file_info) (op : Z).

Definition run_callback (c : callback) : M Z :=
  match c with
  | cb_getattr path => cannyfs_getattr path
  | cb_fgetattr path fi => cannyfs_fgetattr path fi
  | cb_access path mask => cannyfs_access path mask
  | cb_readlink path size => cannyfs_readlink path size
  | cb_opendir path fi => r <- cannyfs_opendir path fi ;; ret (fst r)
  | cb_readdir path offset fi flags walk =>
      cannyfs_readdir path offset fi flags walk
  | cb_releasedir path fi => cannyfs_releasedir path fi
  | cb_mknod path mode rdev => cannyfs_mknod path mode rdev
  | cb_mkdir path mode => cannyfs_mkdir path mode
  | cb_unlink path => cannyfs_unlink path
  | cb_rmdir path => cannyfs_rmdir path
  | cb_symlink from to => cannyfs_symlink from to
  | cb_rename from to flags => cannyfs_rename from to flags
  | cb_link from to => cannyfs_link from to
  | cb_chmod path mode => cannyfs_chmod path mode
  | cb_chown path uid gid => cannyfs_chown path uid gid
  | cb_truncate path size => cannyfs_truncate path size
  | cb_ftruncate path size fi => cannyfs_ftruncate path size fi
  | cb_create path mode fi => r <- cannyfs_create path mode fi ;; ret (fst r)
  | cb_open path fi => r <- cannyfs_open path fi ;; ret (fst r)
  | cb_read path size offset fi => cannyfs_read path size offset fi
  | cb_read_buf path size offset fi =>
      r <- cannyfs_read_buf path size offset fi ;; ret (fst r)
  | cb_write path buf size offset fi => cannyfs_write path buf size offset fi
  | cb_statfs path => cannyfs_statfs path
  | cb_flush path fi => cannyfs_flush path fi
  | cb_release path fi => cannyfs_release path fi
  | cb_fsync path isdatasync fi => cannyfs_fsync path isdatasync fi
  | cb_flock path fi op => cannyfs_flock path fi op
  end.

(** A parked thread: what it waits for and how it goes on. *)
Record thread : Type := mk_thread {
  th_guard : guard;
  th_resume : world -> outcome Z
}.

Record system : Type := mk_system {
  sys_world : world;
  parked : list thread
}.

(** What the scheduler does: the kernel calls a callback on a thread of its
    own, a worker takes a task off [workQueue] (any task: [task_group] fixes
    no order), or a parked thread whose guard holds goes on.  A thread
    starts with nothing of its own ([fresh]): no code reads [errno] before a
    system call of the same thread has set it. *)
Inductive action : Type :=
| call (c : callback)
| work (i : nat)
| resume (i : nat).

(** The system after a thread ran to its next stop.  An aborted process and
    an execution that met undefined behaviour have no next state. *)
Definition settle (o : outcome Z) (ts : list thread) : option system :=
  match o with
  | Ret _ _ w => Some {| sys_world := w; parked := ts |}
  | Blocked g _ w k =>
      Some {| sys_world := w;
              parked := ts ++ [{| th_guard := g; th_resume := k |}] |}
  | Aborted _ _ | Undefined _ _ | OutOfFuel => None
  end.

Definition do_action (a : action) (s : system) : option system :=
  let w := sys_world s in
  match a with
  | call c => settle (run_callback c fresh w) (parked s)
  | work i =>
      match workQueue w !! i with
      | Some t =>
          settle (run_task t fresh (set_workQueue (delete i (workQueue w)) w))
                 (parked s)
      | None => None
      end
  | resume i =>
      match parked s !! i with
      | Some th =>
          if guard_ok (th_guard th) w
          then settle (th_resume th w) (delete i (parked s))
          else None
      | None => None
      end
  end.

Fixpoint run_actions (l : list action) (s : system) : option system :=
  match l with
  | [] => Some s
  | a :: rest =>
      match do_action a s with
      | Some s' => run_actions rest s'
      | None => None
      end
  end.

Definition step (s s' : system) : Prop := exists a, do_action a s = Some s'.

Inductive reachable (s0 : system) : system -> Prop :=
| reach_start : reachable s0 s0
| reach_step s s' : reachable s0 s -> step s s' -> reachable s0 s'.

Definition boot (o : cannyfs_options) (b : build_config) (os : oracle)
    : system :=
  {| sys_world := initial_world o b os; parked := [] |}.

(** ** A small operating system to run the model on

    Paths carry a mode; descriptors are handed out in order from 3.  It is
    used for the concrete runs below; the general theorems hold for every
    oracle. *)

Definition ENOENT : Z := 2.

Definition ok (v : Z) (out : list Z) : sysret :=
  {| sr_val := v; sr_errno := 0; sr_out := out |}.
Definition failed (e : Z) : sysret :=
  {| sr_val := -1; sr_errno := e; sr_out := [] |}.

Record toy_state : Type := mk_toy {
  toy_modes : gmap string Z;
  toy_next_fd : Z
}.

Definition toy_answer (st : toy_state) (s : syscall) : sysret :=
  match s with
  | sys_lstat p =>
      match toy_modes st !! p with
      | Some m => ok 0 [m]
      | None => failed ENOENT
      end
  | sys_access p _ | sys_chmod p _ | sys_lchown p _ _ | sys_rename p _
  | sys_link p _ | sys_readlink p _ | sys_unlink p | sys_rmdir p
  | sys_truncate p _ | sys_statvfs p =>
      match toy_modes st !! p with
      | Some _ => ok 0 []
      | None => failed ENOENT
      end
  | sys_open p _ None =>
      match toy_modes st !! p with
      | Some _ => ok (toy_next_fd st) []
      | None => failed ENOENT
      end
  | sys_open _ _ (Some _) | sys_dup _ => ok (toy_next_fd st) []
  | sys_opendir p =>
      match toy_modes st !! p with
      | Some _ => ok 1 []
      | None => {| sr_val := 0; sr_errno := ENOENT; sr_out := [] |}
      end
  | sys_seekdir _ _ | sys_readdir _ | sys_telldir _ | sys_dirfd _
  | sys_fstatat _ _ _ | fuse_fill_dir _ _ _ _
  | sys_pwrite _ _ _ _ | sys_close _ | sys_fsync _
  | sys_fdatasync _ | sys_fstat _ | sys_closedir _ | sys_mkfifo _ _
  | sys_mknod _ _ _ | sys_mkdir _ _ | sys_symlink _ _ | sys_ftruncate _ _
  | sys_pread _ _ _ | sys_flock _ _ => ok 0 []
  end.

Definition toy_apply (st : toy_state) (e : syscall * sysret) : toy_state :=
  match e with
  | (sys_chmod p m, r) =>
      if sr_val r =? 0
      then {| toy_modes := <[p := m]> (toy_modes st); toy_next_fd := toy_next_fd st |}
      else st
  | (sys_open p _ (Some m), r) =>
      {| toy_modes := match toy_modes st !! p with
                      | Some _ => toy_modes st
                      | None => <[p := m]> (toy_modes st)
                      end;
         toy_next_fd := toy_next_fd st + 1 |}
  | (sys_open _ _ None, r) | (sys_dup _, r) =>
      if 0 <=? sr_val r
      then {| toy_modes := toy_modes st; toy_next_fd := toy_next_fd st + 1 |}
      else st
  | _ => st
  end.

Definition toy_os (files : gmap string Z) : oracle :=
  fun h s =>
    toy_answer (fold_left toy_apply h {| toy_modes := files; toy_next_fd := 3 |}) s.

Definition toy_build : build_config :=
  {| HAVE_FDATASYNC := true; HAVE_FSTATAT := true; indeterminate := 0;
     vector_grow := fun n => Nat.max 1 (2 * n);
     operator_new := fun live => set_fold Z.max 4095 live + 1 |}.

(** One file, "/a", with mode 0644. *)
Definition toy_files : gmap string Z := {[ "/a" := 420 ]}.

(** ** Runs of one thread *)

(** Other threads leave the configuration alone. *)
Definition same_config (w w1 : world) : Prop :=
  options w1 = options w /\ build w1 = build w /\ posix w1 = posix w.

(** [returns o a l w]: the computation that stopped as [o] comes back to its
    caller with [a], with [l] as its own state, in world [w]; each time it
    was parked it woke in a world where its guard held. *)
Inductive returns {A : Type} : outcome A -> A -> local -> world -> Prop :=
| returns_now a l w : returns (Ret a l w) a l w
| returns_woken g l w k w1 a l' w' :
    same_config w w1 ->
    guard_ok g w1 = true ->
    returns (k w1) a l' w' ->
    returns (Blocked g l w k) a l' w'.

(** The thread's own state where it first stops. *)
Definition first_stop {A : Type} (o : outcome A) : option local :=
  match o with
  | Ret _ l _ | Blocked _ l _ _ | Aborted l _ | Undefined l _ => Some l
  | OutOfFuel => None
  end.

(** The world where it first stops. *)
Definition first_world {A : Type} (o : outcome A) : option world :=
  match o with
  | Ret _ _ w | Blocked _ _ w _ | Aborted _ w | Undefined _ w => Some w
  | OutOfFuel => None
  end.

(** [every_segment R w o]: each atomic segment of the run that ends with the
    thread parked or back at its caller takes the shared world from [w1] to
    [w2] with [R w1 w2], wherever the thread wakes.  (A segment that ends
    the process or meets undefined behaviour has no world after it.) *)
Fixpoint every_segment {A : Type} (R : world -> world -> Prop) (w : world)
    (o : outcome A) : Prop :=
  match o with
  | Ret _ _ w' => R w w'
  | Blocked _ _ w' k => R w w' /\ forall w1, every_segment R w1 (k w1)
  | Aborted _ _ | Undefined _ _ | OutOfFuel => True
  end.

(** ** Reading a stop

    What a computation gave back, the events its thread had produced when it
    first stopped, and the world it stopped in. *)

Definition result_of {A : Type} (o : outcome A) : option A :=
  match o with
  | Ret a _ _ => Some a
  | _ => None
  end.

Definition events_of {A : Type} (o : outcome A) : list event :=
  match first_stop o with
  | Some l => own l
  | None => []
  end.

Definition world_after {A : Type} (w : world) (o : outcome A) : world :=
  match first_world o with
  | Some w' => w'
  | None => w
  end.

(** ** Who binds a handle

    The only calls of [setfh] are in [cannyfs_open] and in the closure of
    [cannyfs_create].  The definitions below say, for a queued task and for
    a running or parked thread, which handle it may still bind. *)

(** The handle the closure will bind: [getcfh(fi->fh)] in the closure of
    [cannyfs_create], none in the others. *)
Definition closure_target (fn : closure) : option nat :=
  match fn with
  | on_path_fi _ fi (create_fun _) => Some (handle_of fi)
  | _ => None
  end.

Definition task_target (t : task) : option nat := closure_target (t_fun t).

(** The world after [fhs.grow_by(1)]. *)
Definition grown (w : world) : world :=
  set_fhs (fhs w ++ [new_filehandle]) w.

(** The callbacks that take a handle off the table. *)
Definition allocates (c : callback) : bool :=
  match c with
  | cb_create _ _ _ | cb_open _ _ => true
  | _ => false
  end.

(** The system gives [open] the value -1 or a descriptor. *)
Definition opens_well (os : oracle) : Prop :=
  forall h path flags mode,
    sr_val (os h (sys_open path flags mode)) = -1 \/
    0 <= sr_val (os h (sys_open path flags mode)).

(** A segment that leaves the handle table alone and queues closures that
    bind nothing. *)
Definition quiet_seg (w w' : world) : Prop :=
  posix w' = posix w /\ fhs w' = fhs w /\ freefhs w' = freefhs w /\
  exists ts, workQueue w' = workQueue w ++ ts /\
             Forall (fun t => task_target t = None) ts.

(** A segment that may, besides, bind handle [i] to what [open] gave. *)
Definition bind_seg (i : nat) (w w' : world) : Prop :=
  posix w' = posix w /\ freefhs w' = freefhs w /\
  (exists ts, workQueue w' = workQueue w ++ ts /\
              Forall (fun t => task_target t = None) ts) /\
  (fhs w' = fhs w \/
   exists v, v <> -1 /\ (opens_well (posix w) -> 0 <= v) /\
             fhs w' = alter (with_fd v) i (fhs w)).

(** A run that binds handle [i] in at most one of its segments and is quiet
    in all the others. *)
Fixpoint binder_out {A : Type} (i : nat) (w : world) (o : outcome A) : Prop :=
  match o with
  | Ret _ _ w' => bind_seg i w w'
  | Blocked _ _ w' k =>
      (quiet_seg w w' /\ forall w1, binder_out i w1 (k w1)) \/
      (bind_seg i w w' /\ forall w1, every_segment quiet_seg w1 (k w1))
  | Aborted _ _ | Undefined _ _ | OutOfFuel => True
  end.

(** What a thread may still do: bind nothing ([None]) or bind handle [i]
    once ([Some i]). *)
Definition role_out {A : Type} (role : option nat) (w : world)
    (o : outcome A) : Prop :=
  match role with
  | None => every_segment quiet_seg w o
  | Some i => binder_out i w o
  end.

Definition thread_ok (role : option nat) (th : thread) : Prop :=
  forall w1, role_out role w1 (th_resume th w1).

(** How many entries of [l] name handle [i]. *)
Fixpoint occurrences (i : nat) (l : list (option nat)) : nat :=
  match l with
  | [] => O
  | Some j :: rest => ((if Nat.eqb i j then 1 else 0) + occurrences i rest)%nat
  | None :: rest => occurrences i rest
  end.

(** Every handle has at most one binder among the queued tasks and the
    threads, and a handle that has one is in the table and unbound. *)
Definition binders_ok (w : world) (roles : list (option nat)) : Prop :=
  forall i,
    let n := (occurrences i (map task_target (workQueue w))
              + occurrences i roles)%nat in
    (n <= 1)%nat /\
    ((1 <= n)%nat -> (i < length (fhs w))%nat /\ fd_of i w = -1).

(** The handle table has at most 2^31 slots: every id fits the [int] that
    [getcfh] takes. *)
Definition small (w : world) : Prop :=
  Z.of_nat (length (fhs w)) <= 2147483648.

(** The invariant of the running system. *)
Definition good (os : oracle) (s : system) : Prop :=
  let w := sys_world s in
  posix w = os /\ freefhs w = [] /\
  (opens_well os -> forall i, fd_of i w = -1 \/ 0 <= fd_of i w) /\
  exists roles,
    Forall2 thread_ok roles (parked s) /\
    (small w -> binders_ok w roles).

(** ** Kinds of computations *)

(** Computations that produce no event of their own and leave [errno] and
    the configuration alone. *)
Definition silent {A : Type} (m : M A) : Prop :=
  forall l w a l' w', returns (m l w) a l' w' -> l' = l /\ same_config w w'.

(** Computations all of whose segments are quiet, and computations in which
    at most one segment binds handle [i]. *)
Definition pres {A : Type} (m : M A) : Prop :=
  forall l w, every_segment quiet_seg w (m l w).

Definition binds {A : Type} (i : nat) (m : M A) : Prop :=
  forall l w, binder_out i w (m l w).

(** ** Concrete worlds *)

Definition toy_world (o : cannyfs_options) : world :=
  initial_world o toy_build (toy_os toy_files).

(** The default options with [restrictivedirs] switched on. *)
Definition restrictive_options : cannyfs_options :=
  {| eagerlink := true; eagerchmod := true; veryeageraccess := true;
     eageraccess := true; eagerutimens := true; eagerchown := true;
     eagerclose := true; closeverylate := true; restrictivedirs := true;
     eagerfsync := true; ignorefsync := true; numThreads := 16;
     eagercreate := true |}.

Definition toy_fi : fuse_file_info := {| fi_flags := 0; fi_fh := 0 |}.

(** The tasks the runs below queue. *)
Definition chmod_task (ticket mode : Z) : task :=
  {| t_event := ticket; t_fun := on_path "/a" (chmod_fun mode) |}.
Definition release_task : task :=
  {| t_event := 1; t_fun := on_path_fi "/a" toy_fi release_fun |}.

(** [veryeageraccess] off, [eageraccess] on. *)
Definition eager_options : cannyfs_options :=
  {| eagerlink := true; eagerchmod := true; veryeageraccess := false;
     eageraccess := true; eagerutimens := true; eagerchown := true;
     eagerclose := true; closeverylate := true; restrictivedirs := false;
     eagerfsync := true; ignorefsync := false; numThreads := 16;
     eagercreate := true |}.

(** [veryeageraccess] and [eageraccess] off. *)
Definition careful_options : cannyfs_options :=
  {| eagerlink := true; eagerchmod := true; veryeageraccess := false;
     eageraccess := false; eagerutimens := true; eagerchown := true;
     eagerclose := true; closeverylate := true; restrictivedirs := false;
     eagerfsync := true; ignorefsync := false; numThreads := 16;
     eagercreate := true |}.

(** The toy system after the kernel opened "/a", and after it then sent a
    [chmod] and a worker ran it. *)
Definition toy_boot : system :=
  boot (default_options true) toy_build (toy_os toy_files).

Definition after (l : list action) (s : system) : system :=
  match run_actions l s with
  | Some s' => s'
  | None => s
  end.

Definition toy_opened : system := after [call (cb_open "/a" toy_fi)] toy_boot.

Definition toy_later : system :=
  after [call (cb_chmod "/a" 384); work 0%nat; call (cb_open "/a" toy_fi)]
        toy_opened.

(** ** Words for the statements about callbacks *)

(** The calls a history holds, in order. *)
Definition calls_of (h : history) : list syscall := map fst h.

(** What a deferred [cannyfs_add_write] leaves: the next ticket taken and
    [fn] queued under it. *)
Definition enqueued (fn : closure) (w : world) : world :=
  let t := to_llong (eventId w + 1) in
  set_workQueue (workQueue w ++ [{| t_event := t; t_fun := fn |}])
    (set_eventId t w).

(** The system call in the lambdas of [cannyfs_chmod] and [cannyfs_chown]. *)
Definition path_call (f : path_fun) (path : string) : syscall :=
  match f with
  | chmod_fun mode => sys_chmod path mode
  | chown_fun uid gid => sys_lchown path uid gid
  end.

(** The callbacks whose body is one system call and the test of its result,
    with that call. *)
Definition direct_call (c : callback) : option syscall :=
  match c with
  | cb_mknod path mode rdev =>
      Some (if S_ISFIFO mode then sys_mkfifo path mode
            else sys_mknod path mode rdev)
  | cb_mkdir path mode => Some (sys_mkdir path mode)
  | cb_unlink path => Some (sys_unlink path)
  | cb_rmdir path => Some (sys_rmdir path)
  | cb_symlink from to => Some (sys_symlink from to)
  | cb_truncate path size => Some (sys_truncate path size)
  | _ => None
  end.

(** The callbacks whose body is a [JUST_BARRIER] reader on the path, one
    system call and the test of its result, with the path and the call. *)
Definition barrier_call (c : callback) : option (string * syscall) :=
  match c with
  | cb_getattr path => Some (path, sys_lstat path)
  | cb_fgetattr path fi => Some (path, sys_fstat (to_int (fi_fh fi)))
  | cb_statfs path => Some (path, sys_statvfs path)
  | _ => None
  end.

(** How many lines the thread wrote to [stderr], and how many calls of a
    history gave a negative value. *)
Fixpoint reports (es : list event) : nat :=
  match es with
  | [] => O
  | ev_stderr _ :: rest => S (reports rest)
  | _ :: rest => reports rest
  end.

Fixpoint failures (h : history) : nat :=
  match h with
  | [] => O
  | (_, r) :: rest =>
      if sr_val r <? 0 then S (failures rest) else failures rest
  end.

(** ** Relations that every step of the program keeps

    [stable_l R]: [R] is a preorder on worlds that holds across what the
    locks, [cannyfs_filemap::get] and a reader barrier do to the shared
    state.  [stable_b R T]: besides, across what a writer barrier does, as
    far as only tickets in [T] are put into [waitingEvents].  [stable0 R T]:
    besides, across each update a closure or a callback makes.  [stable R]:
    besides, across what [cannyfs_add_write] and the workers do to the
    ticket counter and the queue, whatever the ticket. *)
Record stable_l (R : world -> world -> Prop) : Prop := mk_stable_l {
  stable_refl : forall w, R w w;
  stable_trans : forall w1 w2 w3, R w1 w2 -> R w2 w3 -> R w1 w3;
  stable_locked : forall p b w, R w (set_locked p b w);
  stable_record : forall p w,
    R w (set_filemap (<[p := new_filedata]> (filemap w)) w);
  stable_map_shared : forall n w, R w (set_map_shared n w);
  stable_map_exclusive : forall b w, R w (set_map_exclusive b w)
}.

Record stable_b (R : world -> world -> Prop) (T : Z -> Prop) : Prop :=
  mk_stable_b {
  stable_locks : stable_l R;
  stable_insert : forall t w, T t -> R w (insert_event t w);
  stable_erase : forall t w, R w (erase_event t w)
}.

Record stable0 (R : world -> world -> Prop) (T : Z -> Prop) : Prop :=
  mk_stable0 {
  stable_barrier : stable_b R T;
  stable_syslog : forall e w, R w (set_syslog (syslog w ++ [e]) w);
  stable_closes : forall fd c w, R w (set_closes (closes w ++ [fd]) c w);
  stable_setfh : forall fd i w, R w (set_fhs (alter (with_fd fd) i (fhs w)) w);
  stable_grow : forall w, R w (grown w);
  stable_pop : forall rest w, R w (set_freefhs rest w);
  stable_dirps : forall m w, R w (set_dirps m w)
}.

Record stable (R : world -> world -> Prop) : Prop := mk_stable {
  stable_base : stable0 R (fun _ => True);
  stable_eventId : forall e w, R w (set_eventId e w);
  stable_push : forall t w, R w (set_workQueue (workQueue w ++ [t]) w);
  stable_take : forall i w, R w (set_workQueue (delete i (workQueue w)) w)
}.

(** A segment that touches nothing but path records, the lock of the map
    and [waitingEvents]. *)
Definition barrier_seg (w w' : world) : Prop :=
  options w' = options w /\ build w' = build w /\ posix w' = posix w /\
  syslog w' = syslog w /\ eventId w' = eventId w /\ fhs w' = fhs w /\
  freefhs w' = freefhs w /\ closes w' = closes w /\
  closes_capacity w' = closes_capacity w /\ workQueue w' = workQueue w /\
  dirps w' = dirps w.

(** A segment that touches nothing but path records and the lock of the
    map. *)
Definition lock_seg (w w' : world) : Prop :=
  barrier_seg w w' /\ waitingEvents w' = waitingEvents w.

(** The callbacks that call [cannyfs_add_write]. *)
Definition takes_ticket (c : callback) : bool :=
  match c with
  | cb_link _ _ | cb_chmod _ _ | cb_chown _ _ _ | cb_create _ _ _
  | cb_flush _ _ | cb_release _ _ | cb_fsync _ _ _ => true
  | _ => false
  end.

(** A computation all of whose segments are in [R]. *)
Definition keeps (R : world -> world -> Prop) {A : Type} (m : M A) : Prop :=
  forall l w, every_segment R w (m l w).

(** The parked threads of a system go on in [R]. *)
Definition threads_keep (R : world -> world -> Prop) (s : system) : Prop :=
  Forall (fun th => forall w1, every_segment R w1 (th_resume th w1))
         (parked s).

(** No record has had its [lastEventId] set. *)
Definition events_unset (w : world) : Prop :=
  forall p d, filemap w !! p = Some d -> lastEventId d = 0.

Definition unset_kept (w w' : world) : Prop :=
  events_unset w -> events_unset w'.

(** Every path that has a record keeps one. *)
Definition records_kept (w w' : world) : Prop :=
  forall p, is_Some (filemap w !! p) -> is_Some (filemap w' !! p).

(** The reservoir keeps what it holds, in place. *)
Definition closes_kept (w w' : world) : Prop :=
  exists l, closes w' = closes w ++ l.

(** The lambdas that call [getfh]: all but the one of [cannyfs_create]. *)
Definition needs_descriptor (f : fi_fun) : bool :=
  match f with
  | create_fun _ => false
  | _ => true
  end.

(** ** More concrete worlds *)

(** Every eager option off, and the late close too. *)
Definition lazy_options : cannyfs_options :=
  {| eagerlink := false; eagerchmod := false; veryeageraccess := false;
     eageraccess := false; eagerutimens := false; eagerchown := false;
     eagerclose := false; closeverylate := false; restrictivedirs := false;
     eagerfsync := false; ignorefsync := false; numThreads := 16;
     eagercreate := false |}.

(** The toy world after [open("/a")]: handle 0 is bound to descriptor 3. *)
Definition opened_world : world := sys_world toy_opened.

(** The toy world after a deferred [create("/a")]: handle 0 is in the table
    and unbound, the task is queued. *)
Definition created_world : world :=
  sys_world (after [call (cb_create "/a" 420 toy_fi)] toy_boot).

(** ** Tickets

    [cannyfs_add_write] takes a ticket; the writers of the closure put it
    into [waitingEvents].  The definitions below say what a segment of a
    thread may do to the ticket counter, the queue and the pending set. *)

(** A segment that takes no ticket and registers none. *)
Definition idle_seg (w w' : world) : Prop :=
  eventId w' = eventId w /\ workQueue w' = workQueue w /\
  waitingEvents w' ⊆ waitingEvents w.

(** A segment of a closure that runs under ticket [e]. *)
Definition ticket_seg (e : Z) (w w' : world) : Prop :=
  eventId w' = eventId w /\ workQueue w' = workQueue w /\
  waitingEvents w' ⊆ {[ e ]} ∪ waitingEvents w.

(** The segment in which [cannyfs_add_write] takes the next ticket, and
    queues a task under it or starts the closure under it. *)
Definition issue_seg (w w' : world) : Prop :=
  eventId w' = to_llong (eventId w + 1) /\
  (workQueue w' = workQueue w \/
   exists fn, workQueue w' = workQueue w
                             ++ [{| t_event := eventId w'; t_fun := fn |}]) /\
  waitingEvents w' ⊆ {[ to_int (eventId w') ]} ∪ waitingEvents w.

(** A run that takes at most one ticket, and after it registers that
    ticket only. *)
Fixpoint issuer_out {A : Type} (w : world) (o : outcome A) : Prop :=
  match o with
  | Ret _ _ w' => idle_seg w w' \/ issue_seg w w'
  | Blocked _ _ w' k =>
      (idle_seg w w' /\ forall w1, issuer_out w1 (k w1)) \/
      (issue_seg w w' /\
       forall w1, every_segment (ticket_seg (to_int (eventId w'))) w1 (k w1))
  | Aborted _ _ | Undefined _ _ | OutOfFuel => True
  end.

Definition issues {A : Type} (m : M A) : Prop :=
  forall l w, issuer_out w (m l w).

(** What a thread may still do with tickets: take one, or go on under the
    one it has. *)
Inductive ticket_role : Type :=
| issuer
| holder (e : Z).

Definition ticket_out {A : Type} (r : ticket_role) (w : world)
    (o : outcome A) : Prop :=
  match r with
  | issuer => issuer_out w o
  | holder e => every_segment (ticket_seg e) w o
  end.

Definition thread_role (r : ticket_role) (th : thread) : Prop :=
  forall w1, ticket_out r w1 (th_resume th w1).

(** The tickets of a world: the counter is not negative, the pending
    tickets and the tickets of the queued tasks have been issued, and no two
    queued tasks have the same. *)
Definition tickets_ok (w : world) : Prop :=
  0 <= eventId w /\
  (forall t, t ∈ waitingEvents w -> 1 <= t <= eventId w) /\
  Forall (fun t => 1 <= t_event t <= eventId w) (workQueue w) /\
  NoDup (t_event <$> workQueue w).

Definition role_issued (w : world) (r : ticket_role) : Prop :=
  match r with
  | issuer => True
  | holder e => 1 <= e <= eventId w
  end.

(** The invariant of the running system, after at most [n] actions. *)
Definition ticketed (n : Z) (s : system) : Prop :=
  let w := sys_world s in
  eventId w <= n /\ tickets_ok w /\
  exists roles,
    Forall2 thread_role roles (parked s) /\ Forall (role_issued w) roles.

(** ** The segment a computation comes back in *)

(** [lands w0 o ws a l w]: as [returns o a l w], for a computation that
    stopped as [o] in a segment begun in [w0]; [ws] is the world in which
    the segment that comes back began: [w0] when the thread was never
    parked, the world it last woke in otherwise. *)
Inductive lands {A : Type}
    : world -> outcome A -> world -> A -> local -> world -> Prop :=
| lands_now w0 a l w : lands w0 (Ret a l w) w0 a l w
| lands_woken w0 g l w k w1 ws a l' w' :
    same_config w w1 ->
    guard_ok g w1 = true ->
    lands w1 (k w1) ws a l' w' ->
    lands w0 (Blocked g l w k) ws a l' w'.

(** The world after the thread made the call [s]: the system's answer is
    appended to [syslog]. *)
Definition called (s : syscall) (w : world) : world :=
  set_syslog (syslog w ++ [(s, posix w (syslog w) s)]) w.

(** What the system answers to [s] in [w]. *)
Definition answer (s : syscall) (w : world) : sysret := posix w (syslog w) s.

(** The record of [path] exists and its mutex is held. *)
Definition mutex_held (path : string) (w : world) : Prop :=
  exists d, filemap w !! path = Some d /\ fd_locked d = true.

(** No thread holds the mutex of [path]: the path has no record, or the
    mutex of its record is free. *)
Definition at_rest (path : string) (w : world) : Prop :=
  filemap w !! path = None \/ mutex_free path w = true.

(** ** What a barrier waits for *)

(** What [cannyfs_filemap::get] first waits for in [w]: the lock of the map
    when a thread holds it exclusively; the mutex of the record when the
    path has one and a thread holds it; the lock of the map again, to insert
    a record, when other threads hold it shared. *)
Definition get_waits (path : string) (always : bool) (w : world)
    : option guard :=
  if map_exclusive w then Some on_map_shared
  else match filemap w !! path with
       | Some d => if fd_locked d then Some (on_mutex path) else None
       | None =>
           if always && negb (map_shared w =? 0)%nat
           then Some on_map_exclusive else None
       end.

(** What the constructor of a reader first waits for: what [get] waits
    for, and then the last event of the record while it is pending. *)
Definition reader_waits (path : string) (flag : Z) (w : world)
    : option guard :=
  match get_waits path (flag =? LOCK_WHOLE) w with
  | Some g => Some g
  | None =>
      if (bool_decide (is_Some (filemap w !! path)) || (flag =? LOCK_WHOLE))
         && bool_decide (last_event_of path w ∈ waitingEvents w)
      then Some (on_processed path (last_event_of path w))
      else None
  end.

(** The world after a thread took the mutex of [path], inserting the
    record when the path had none. *)
Definition acquired (path : string) (w : world) : world :=
  set_locked path true
    (match filemap w !! path with
     | Some _ => w
     | None => set_filemap (<[path := new_filedata]> (filemap w)) w
     end).

(** ** Runs from start-up *)



(** * Properties *)

(** ** Running computations *)

Lemma same_config_refl w : same_config w w.
Proof. repeat split. Qed.

Lemma same_config_trans w1 w2 w3 :
  same_config w1 w2 -> same_config w2 w3 -> same_config w1 w3.
Proof. unfold same_config. intuition congruence. Qed.

Lemma returns_bind {A B : Type} (o : outcome A) (f : A -> M B) b l w :
  returns (obind o f) b l w <->
  exists a l1 w1, returns o a l1 w1 /\ returns (f a l1 w1) b l w.
Proof.
  split.
  - revert b l w. induction o as [a l0 w0|g l0 w0 k IH|l0 w0|l0 w0|];
      intros b l w Hr; simpl in Hr.
    + exists a, l0, w0. split; [constructor | exact Hr].
    + inversion Hr as [|? ? ? ? w1 ? ? ? Hc Hg Hk]; subst.
      destruct (IH _ _ _ _ Hk) as (a & l1 & w2 & Ha & Hb).
      exists a, l1, w2. split; [econstructor; eauto | exact Hb].
    + inversion Hr.
    + inversion Hr.
    + inversion Hr.
  - intros (a & l1 & w1 & Ha & Hb).
    induction Ha as [a l0 w0|g l0 w0 k w2 a l' w' Hc Hg Hk IH]; simpl.
    + exact Hb.
    + econstructor; eauto.
Qed.

Lemma returns_ret {A : Type} (a b : A) l w l' w' :
  returns (ret a l w) b l' w' -> b = a /\ l' = l /\ w' = w.
Proof. inversion 1; auto. Qed.

Lemma returns_get {A : Type} (f : world -> A) b l w l' w' :
  returns (get f l w) b l' w' -> b = f w /\ l' = l /\ w' = w.
Proof. inversion 1; auto. Qed.

Lemma returns_modify (f : world -> world) u l w l' w' :
  returns (modify f l w) u l' w' -> l' = l /\ w' = f w.
Proof. inversion 1; auto. Qed.

Lemma returns_log e u l w l' w' :
  returns (log e l w) u l' w' -> l' = emit e l /\ w' = w.
Proof. inversion 1; auto. Qed.

Lemma returns_get_errno b l w l' w' :
  returns (get_errno l w) b l' w' -> b = errno l /\ l' = l /\ w' = w.
Proof. inversion 1; auto. Qed.

Lemma returns_abort {A : Type} (b : A) l w l' w' :
  returns (abort l w) b l' w' -> False.
Proof. inversion 1. Qed.

Lemma returns_undefined {A : Type} (b : A) l w l' w' :
  returns (undefined l w) b l' w' -> False.
Proof. inversion 1. Qed.

Lemma returns_await g u l w l' w' :
  returns (await g l w) u l' w' ->
  l' = l /\ guard_ok g w' = true /\ same_config w w' /\
  (guard_ok g w = true -> w' = w).
Proof.
  unfold await. destruct (guard_ok g w) eqn:Hg.
  - inversion 1; subst. auto using same_config_refl.
  - inversion 1 as [|? ? ? ? w1 ? ? ? Hc Hg1 Hk]; subst.
    inversion Hk; subst.
    split; [reflexivity | split; [exact Hg1 | split; [exact Hc |]]].
    intros Hg2. congruence.
Qed.

Lemma returns_do_sys s r l w l' w' :
  returns (do_sys s l w) r l' w' ->
  r = posix w (syslog w) s /\
  own l' = own l ++ [ev_sys s r] /\
  errno l' = (if sys_failed s (sr_val r) then sr_errno r else errno l) /\
  w' = set_syslog (syslog w ++ [(s, r)]) w.
Proof.
  unfold do_sys. inversion 1; subst. repeat split.
  - destruct (sys_failed _ _); reflexivity.
  - destruct (sys_failed _ _); reflexivity.
Qed.

(** ** The segment a computation comes back in *)

Lemma lands_returns {A : Type} w0 (o : outcome A) ws a l w :
  lands w0 o ws a l w -> returns o a l w.
Proof. induction 1; econstructor; eauto. Qed.

Lemma returns_lands {A : Type} (o : outcome A) a l w :
  returns o a l w -> forall w0, exists ws, lands w0 o ws a l w.
Proof.
  induction 1 as [a l w|g l w k w1 a l' w' Hc Hg Hk IH]; intros w0.
  - exists w0. constructor.
  - destruct (IH w1) as [ws Hws]. exists ws. econstructor; eauto.
Qed.

Lemma lands_bind {A B : Type} w0 (o : outcome A) (f : A -> M B) ws b l w :
  lands w0 (obind o f) ws b l w <->
  exists a l1 w1 ws1,
    lands w0 o ws1 a l1 w1 /\ lands ws1 (f a l1 w1) ws b l w.
Proof.
  split.
  - revert w0 ws b l w.
    induction o as [a l0 w1|g l0 w1 k IH|l0 w1|l0 w1|];
      intros w0 ws b l w Hr; simpl in Hr.
    + exists a, l0, w1, w0. split; [constructor | exact Hr].
    + inversion Hr as [|? ? ? ? ? w2 ? ? ? ? Hc Hg Hk]; subst.
      destruct (IH _ _ _ _ _ _ Hk) as (a & l1 & w3 & ws1 & Ha & Hb).
      exists a, l1, w3, ws1. split; [econstructor; eauto | exact Hb].
    + inversion Hr.
    + inversion Hr.
    + inversion Hr.
  - intros (a & l1 & w1 & ws1 & Ha & Hb).
    induction Ha as [w0 a l0 w1|w0 g l0 w1 k w2 ws1 a l' w' Hc Hg Hk IH];
      simpl.
    + exact Hb.
    + econstructor; eauto.
Qed.

(** A computation that does not park comes back in the segment it ran
    in. *)
Lemma lands_ret_inv {A : Type} w0 (a b : A) l w ws l' w' :
  lands w0 (Ret a l w) ws b l' w' -> ws = w0 /\ b = a /\ l' = l /\ w' = w.
Proof. intros H. inversion H. auto. Qed.

(** A wait that is over: the thread goes on in the world [w1] where its
    guard holds, the one it was in or the one it woke in. *)
Lemma lands_await w0 g u l w ws l' w' :
  lands w0 (await g l w) ws u l' w' ->
  l' = l /\ guard_ok g w' = true /\
  ((ws = w0 /\ w' = w) \/ (ws = w' /\ same_config w w')).
Proof.
  unfold await. destruct (guard_ok g w) eqn:Hg.
  - intros H. apply lands_ret_inv in H. destruct H as (-> & _ & -> & ->).
    auto.
  - inversion 1 as [|? ? ? ? ? w1 ? ? ? ? Hc Hg1 Hk]; subst.
    apply lands_ret_inv in Hk. destruct Hk as (-> & _ & -> & ->). auto.
Qed.

(** Each segment of a run is in [R]: so is the one it comes back in. *)
Lemma lands_segment {A : Type} (R : world -> world -> Prop) :
  (forall w, R w w) ->
  forall w0 (o : outcome A) ws a l w,
    lands w0 o ws a l w ->
    forall wa, (forall w', R wa w' -> R w0 w') ->
    every_segment R wa o -> R ws w.
Proof.
  intros Hrefl w0 o ws a l w H.
  induction H as [w0 a l w|w0 g l w k w1 ws a l' w' Hc Hg Hk IH];
    intros wa Hwa Ho; simpl in Ho.
  - apply Hwa. exact Ho.
  - destruct Ho as [_ Ho]. apply (IH w1); [auto | apply Ho].
Qed.

(** ** What every segment keeps *)

Section Locks.

Variable R : world -> world -> Prop.
Hypothesis HL : stable_l R.

Lemma segment_prefix {A : Type} w0 w (o : outcome A) :
  R w0 w -> every_segment R w o -> every_segment R w0 o.
Proof.
  intros H0. destruct o; simpl; try tauto.
  - apply (stable_trans R HL). exact H0.
  - intros [H1 H2]. split; [| exact H2].
    apply (stable_trans R HL _ _ _ H0 H1).
Qed.

Lemma segment_obind {A B : Type} (o : outcome A) (f : A -> M B) :
  (forall a, keeps R (f a)) ->
  forall w, every_segment R w o -> every_segment R w (obind o f).
Proof.
  intros Hf.
  induction o as [a l0 w0|g l0 w0 k IH|l0 w0|l0 w0|]; intros w; simpl; auto.
  - intros H. eapply segment_prefix; [exact H | apply Hf].
  - intros [H1 H2]. auto.
Qed.

Lemma keeps_bind {A B : Type} (m : M A) (f : A -> M B) :
  keeps R m -> (forall a, keeps R (f a)) -> keeps R (bind m f).
Proof. intros Hm Hf l w. apply segment_obind; auto. Qed.

Lemma keeps_ret {A : Type} (a : A) : keeps R (ret a).
Proof. intros l w. apply (stable_refl R HL). Qed.

Lemma keeps_get {A : Type} (f : world -> A) : keeps R (get f).
Proof. intros l w. apply (stable_refl R HL). Qed.

Lemma keeps_get_errno : keeps R get_errno.
Proof. intros l w. apply (stable_refl R HL). Qed.

Lemma keeps_log e : keeps R (log e).
Proof. intros l w. apply (stable_refl R HL). Qed.

Lemma keeps_abort {A : Type} : keeps R (@abort A).
Proof. intros l w. exact I. Qed.

Lemma keeps_undefined {A : Type} : keeps R (@undefined A).
Proof. intros l w. exact I. Qed.

Lemma keeps_modify (f : world -> world) :
  (forall w, R w (f w)) -> keeps R (modify f).
Proof. intros Hf l w. apply Hf. Qed.

Lemma keeps_await g : keeps R (await g).
Proof.
  intros l w. unfold await. destruct (guard_ok g w); simpl.
  - apply (stable_refl R HL).
  - split; [| intros w1]; apply (stable_refl R HL).
Qed.

Ltac keeps_leaf :=
  first [ apply keeps_ret | apply keeps_get | apply keeps_get_errno
        | apply keeps_log | apply keeps_abort | apply keeps_undefined
        | apply keeps_await
        | apply keeps_modify; intro;
          first [ apply (stable_locked R HL) | apply (stable_record R HL)
                | apply (stable_map_shared R HL)
                | apply (stable_map_exclusive R HL) ] ].

Ltac keep :=
  repeat first
    [ assumption
    | keeps_leaf
    | apply keeps_bind; [| intros ?]
    | match goal with
      | |- keeps _ (match ?x with _ => _ end) => destruct x
      | |- keeps _ (if ?x then _ else _) => destruct x
      end ].

Lemma keeps_lock_mutex p : keeps R (lock_mutex p).
Proof. unfold lock_mutex. keep. Qed.

Lemma keeps_lock_dtor lk : keeps R (lock_dtor lk).
Proof. unfold lock_dtor. keep. Qed.

Lemma keeps_lock_assign old p : keeps R (lock_assign old p).
Proof.
  unfold lock_assign.
  pose proof (keeps_lock_mutex p). pose proof (keeps_lock_dtor old). keep.
Qed.

Lemma keeps_lock_lock lk : keeps R (lock_lock lk).
Proof.
  unfold lock_lock. destruct (ul_mutex lk) as [p|]; [| keep].
  pose proof (keeps_lock_mutex p). keep.
Qed.

Lemma keeps_map_lock_shared : keeps R map_lock_shared.
Proof. unfold map_lock_shared. keep. Qed.

Lemma keeps_map_unlock_shared : keeps R map_unlock_shared.
Proof. unfold map_unlock_shared. keep. Qed.

Lemma keeps_map_lock : keeps R map_lock.
Proof. unfold map_lock. keep. Qed.

Lemma keeps_map_unlock : keeps R map_unlock.
Proof. unfold map_unlock. keep. Qed.

Lemma keeps_filemap_get path always lk : keeps R (filemap_get path always lk).
Proof.
  pose proof keeps_map_lock_shared. pose proof keeps_map_unlock_shared.
  pose proof keeps_map_lock. pose proof keeps_map_unlock.
  unfold filemap_get.
  apply keeps_bind; [assumption | intros _].
  apply keeps_bind; [keep | intros found].
  apply keeps_bind.
  - destruct found; [| keep].
    pose proof (keeps_lock_assign lk path). keep.
  - intros r. apply keeps_bind; [assumption | intros _].
    destruct r as [[p|] lk1]; [keep |].
    destruct always; [| keep].
    pose proof (keeps_lock_assign lk1 path). keep.
Qed.

Lemma keeps_processed_wait p t : keeps R (processed_wait p t).
Proof. unfold processed_wait. keep. Qed.

Lemma keeps_cannyfs_reader path flag : keeps R (cannyfs_reader path flag).
Proof.
  unfold cannyfs_reader.
  apply keeps_bind; [keep | intros _].
  apply keeps_bind; [apply keeps_filemap_get | intros r].
  apply keeps_bind.
  - destruct (fst r) as [p|]; [| keep].
    apply keeps_bind; [keep | intros t]. apply keeps_processed_wait.
  - intros _. pose proof (keeps_lock_dtor (snd r)). keep.
Qed.

Lemma keeps_reader_dtor b : keeps R (reader_dtor b).
Proof. apply keeps_lock_dtor. Qed.

Lemma keeps_cannyfs_dirreader path flag : keeps R (cannyfs_dirreader path flag).
Proof.
  unfold cannyfs_dirreader.
  apply keeps_bind; [keep | intros r]. apply keeps_cannyfs_reader.
Qed.

Lemma keeps_neg_errno : keeps R neg_errno.
Proof. unfold neg_errno. keep. Qed.

Lemma keeps_zero_or_neg_errno r : keeps R (zero_or_neg_errno r).
Proof. unfold zero_or_neg_errno. pose proof keeps_neg_errno. keep. Qed.

Lemma keeps_getfh i : keeps R (getfh i).
Proof. unfold getfh. keep. Qed.

Lemma keeps_getcfh fd : keeps R (getcfh fd).
Proof. unfold getcfh. keep. Qed.

Lemma keeps_getfh_fi fi : keeps R (getfh_fi fi).
Proof.
  unfold getfh_fi. apply keeps_bind; [apply keeps_getcfh | intros i].
  apply keeps_getfh.
Qed.

Lemma keeps_dirp_at a : keeps R (dirp_at a).
Proof. unfold dirp_at. keep. Qed.

End Locks.

Section Barriers.

Variable R : world -> world -> Prop.
Variable T : Z -> Prop.
Hypothesis HB : stable_b R T.

Let HL : stable_l R := stable_locks R T HB.

Lemma keeps_cannyfs_writer fuel :
  forall path flag t, T t -> keeps R (cannyfs_writer fuel path flag t).
Proof.
  induction fuel as [|n IH]; intros path flag t Ht.
  - intros l w. exact I.
  - simpl.
    apply (keeps_bind R HL); [apply (keeps_log R HL) | intros _].
    apply (keeps_bind R HL).
    { destruct (negb (String.eqb path ""));
        [apply keeps_modify; intros w; apply (stable_insert R T HB); exact Ht
        | apply (keeps_ret R HL)]. }
    intros _.
    apply (keeps_bind R HL); [apply (keeps_filemap_get R HL) | intros r].
    apply (keeps_bind R HL); [apply (keeps_get R HL) | intros res].
    apply (keeps_bind R HL); [| intros g; apply (keeps_ret R HL)].
    destruct (negb (negb (String.eqb path "")) && res);
      [| apply (keeps_ret R HL)].
    apply (keeps_bind R HL);
      [apply (IH "" JUST_BARRIER t Ht) | intros g; apply (keeps_ret R HL)].
Qed.

Lemma keeps_writer_dtor : forall wr, keeps R (writer_dtor wr).
Proof.
  fix IH 1. intros [lk fileobj g t global]. simpl.
  apply (keeps_bind R HL).
  { destruct (negb global);
      [apply keeps_modify; intros w; apply (stable_erase R T HB)
      | apply (keeps_ret R HL)]. }
  intros _. apply (keeps_bind R HL).
  - destruct (negb (ul_owns lk)); [| apply (keeps_ret R HL)].
    apply (keeps_bind R HL); [apply (keeps_lock_lock R HL) | intros [l'|]];
      [apply (keeps_ret R HL) | apply keeps_abort].
  - intros lk'. apply (keeps_bind R HL).
    { destruct fileobj; [apply (keeps_log R HL) | apply keeps_undefined]. }
    intros _. apply (keeps_bind R HL).
    + destruct g as [gw|]; [apply IH | apply (keeps_ret R HL)].
    + intros _. apply (keeps_lock_dtor R HL).
Qed.

End Barriers.

Section Stable0.

Variable R : world -> world -> Prop.
Variable T : Z -> Prop.
Hypothesis HR : stable0 R T.

Let HB : stable_b R T := stable_barrier R T HR.
Let HL : stable_l R := stable_locks R T HB.

Lemma keeps_do_sys s : keeps R (do_sys s).
Proof. intros l w. unfold do_sys. simpl. apply (stable_syslog R T HR). Qed.

Ltac keeps_leaf :=
  first [ apply (keeps_ret R HL) | apply (keeps_get R HL)
        | apply (keeps_get_errno R HL)
        | apply (keeps_log R HL) | apply (keeps_abort R)
        | apply (keeps_undefined R)
        | apply (keeps_await R HL) | apply keeps_do_sys
        | apply (keeps_modify R); intro;
          first [ apply (stable_setfh R T HR)
                | apply (stable_grow R T HR) | apply (stable_pop R T HR)
                | apply (stable_dirps R T HR) ] ].

Ltac keep :=
  repeat first
    [ assumption
    | keeps_leaf
    | apply (keeps_bind R HL); [| intros ?]
    | match goal with
      | |- keeps _ (match ?x with _ => _ end) => destruct x
      | |- keeps _ (if ?x then _ else _) => destruct x
      end ].

Lemma keeps_setfh i fd : keeps R (setfh i fd).
Proof. unfold setfh. keep. Qed.

Lemma keeps_getnewfh : keeps R getnewfh.
Proof. unfold getnewfh. keep. Qed.

Lemma keeps_closer_dtor fd : keeps R (closer_dtor fd).
Proof. unfold closer_dtor, cannyfs_negerrorchecker, cannyfs_reporterror. keep. Qed.

Lemma keeps_destroy_closers l : keeps R (destroy_closers l).
Proof.
  induction l as [|fd rest IH]; simpl; [keep |].
  pose proof (keeps_closer_dtor fd). keep.
Qed.

Lemma keeps_closes_push_back fd : keeps R (closes_push_back fd).
Proof.
  intros l w. unfold closes_push_back, bind at 1 2, get at 1 2.
  cbn [obind]. unfold bind at 1.
  apply (segment_obind R HL); [intros _; apply keeps_closer_dtor |].
  destruct (length (closes w) =? closes_capacity w)%nat.
  - unfold bind at 1 2, get at 1, modify at 1. cbn [obind].
    eapply (segment_prefix R HL); [apply (stable_closes R T HR) |].
    apply keeps_destroy_closers.
  - apply (stable_closes R T HR).
Qed.

Lemma keeps_new_dirp : keeps R new_dirp.
Proof. unfold new_dirp. keep. Qed.

Lemma keeps_free_dirp a : keeps R (free_dirp a).
Proof. unfold free_dirp. keep. Qed.

Lemma keeps_set_dirp a d : keeps R (set_dirp a d).
Proof. unfold set_dirp. keep. Qed.

Lemma keeps_readdir_loop walk : forall a flags, keeps R (readdir_loop walk a flags).
Proof.
  induction walk as [|n IH]; intros a flags.
  - intros l w. exact I.
  - pose proof (keeps_dirp_at R HL) as Hd.
    pose proof keeps_set_dirp as Hs.
    simpl.
    apply (keeps_bind R HL); [apply Hd | intros d].
    apply (keeps_bind R HL); [keep |].
    intros [e|]; [| keep].
    apply (keeps_bind R HL); [keep | intros have].
    apply (keeps_bind R HL); [keep | intros plus].
    apply (keeps_bind R HL); [keep | intros nextoff].
    apply (keeps_bind R HL); [keep | intros full].
    destruct (negb (sr_val full =? 0)); [keep |].
    apply (keeps_bind R HL); [apply Hs | intros _]. apply IH.
Qed.

Lemma keeps_run_path_fun f path : keeps R (run_path_fun f path).
Proof.
  pose proof (keeps_zero_or_neg_errno R HL).
  destruct f; simpl; (apply (keeps_bind R HL); [keep | intros r; auto]).
Qed.

Lemma keeps_run_path2_fun f from to : keeps R (run_path2_fun f from to).
Proof.
  pose proof (keeps_zero_or_neg_errno R HL).
  destruct f; simpl; (apply (keeps_bind R HL); [keep | intros r; auto]).
Qed.

Lemma keeps_run_fi_fun f path fi : keeps R (run_fi_fun f path fi).
Proof.
  pose proof (keeps_zero_or_neg_errno R HL) as Hz.
  pose proof (keeps_neg_errno R HL) as Hn.
  pose proof (keeps_getfh_fi R HL fi) as Hg.
  destruct f; simpl.
  - apply (keeps_bind R HL); [keep | intros r].
    destruct (sr_val r =? -1); [exact Hn |].
    apply (keeps_bind R HL); [apply (keeps_getcfh R HL) | intros h].
    apply (keeps_bind R HL); [apply keeps_setfh | intros _]. keep.
  - apply (keeps_bind R HL); [exact Hg | intros fd].
    apply (keeps_bind R HL); [keep | intros d].
    apply (keeps_bind R HL); [keep | intros r]. apply Hz.
  - apply (keeps_bind R HL); [exact Hg | intros fd].
    apply (keeps_bind R HL); [keep | intros r]. keep.
  - apply (keeps_bind R HL); [keep | intros have].
    apply (keeps_bind R HL); [| intros r; apply Hz].
    destruct (have && negb (isdatasync =? 0));
      (apply (keeps_bind R HL); [exact Hg | intros fd]); keep.
Qed.

Lemma keeps_run_closure fn e : T e -> keeps R (run_closure fn e).
Proof.
  intros He.
  assert (Hw : forall path, keeps R (cannyfs_writer writer_fuel path LOCK_WHOLE e))
    by (intros path; apply (keeps_cannyfs_writer R T HB); exact He).
  pose proof (keeps_writer_dtor R T HB) as Hd.
  destruct fn as [path f|path fi f|path1 path2 f]; cbn [run_closure].
  - apply (keeps_bind R HL); [apply Hw | intros wr].
    apply (keeps_bind R HL); [apply keeps_run_path_fun | intros r].
    apply (keeps_bind R HL); [apply Hd | intros _]. keep.
  - apply (keeps_bind R HL); [apply Hw | intros wr].
    apply (keeps_bind R HL); [apply keeps_run_fi_fun | intros r].
    apply (keeps_bind R HL); [apply Hd | intros _]. keep.
  - apply (keeps_bind R HL); [apply Hw | intros wr1].
    apply (keeps_bind R HL); [apply Hw | intros wr2].
    apply (keeps_bind R HL); [apply keeps_run_path2_fun | intros r].
    apply (keeps_bind R HL); [apply Hd | intros _].
    apply (keeps_bind R HL); [apply Hd | intros _]. keep.
Qed.

(** The callbacks that take no ticket. *)
Lemma keeps_ticketless_callback c :
  takes_ticket c = false -> keeps R (run_callback c).
Proof.
  pose proof (keeps_cannyfs_reader R HL) as Hrd.
  pose proof (keeps_cannyfs_dirreader R HL) as Hdr.
  pose proof (keeps_reader_dtor R HL) as Hrdd.
  pose proof (keeps_zero_or_neg_errno R HL) as Hz.
  pose proof (keeps_neg_errno R HL) as Hn.
  pose proof (keeps_getfh_fi R HL) as Hg.
  pose proof keeps_getnewfh as Hnew.
  pose proof (keeps_getcfh R HL) as Hc.
  pose proof keeps_setfh as Hs.
  pose proof keeps_new_dirp as Hnd.
  pose proof keeps_free_dirp as Hfd.
  pose proof keeps_set_dirp as Hsd.
  pose proof (keeps_dirp_at R HL) as Hda.
  pose proof keeps_readdir_loop as Hloop.
  destruct c; simpl; intros Ht; try discriminate;
    unfold cannyfs_getattr, cannyfs_fgetattr, cannyfs_access,
      cannyfs_readlink, cannyfs_opendir, cannyfs_readdir, cannyfs_releasedir,
      cannyfs_mknod, cannyfs_mkdir, cannyfs_unlink, cannyfs_rmdir,
      cannyfs_symlink, cannyfs_rename, cannyfs_truncate, cannyfs_ftruncate,
      cannyfs_open, cannyfs_read, cannyfs_read_buf, cannyfs_write,
      cannyfs_statfs, cannyfs_flock;
    repeat first
      [ solve [auto 1 with nocore]
      | keeps_leaf
      | apply (keeps_bind R HL); [| intros ?]
      | match goal with
        | |- keeps _ (if ?x then _ else _) => destruct x
        end ].
Qed.

End Stable0.

Section Stable.

Variable R : world -> world -> Prop.
Hypothesis HR : stable R.

Let T : Z -> Prop := fun _ => True.
Let H0 : stable0 R T := stable_base R HR.
Let HB : stable_b R T := stable_barrier R T H0.
Let HL : stable_l R := stable_locks R T HB.

Ltac keeps_leaf :=
  first [ apply (keeps_ret R HL) | apply (keeps_get R HL)
        | apply (keeps_get_errno R HL)
        | apply (keeps_log R HL) | apply (keeps_abort R)
        | apply (keeps_undefined R)
        | apply (keeps_await R HL) | apply (keeps_do_sys R T H0)
        | apply (keeps_modify R); intro;
          first [ apply (stable_eventId R HR) | apply (stable_push R HR) ] ].

Lemma keeps_cannyfs_add_write defer fn : keeps R (cannyfs_add_write defer fn).
Proof.
  unfold cannyfs_add_write.
  apply (keeps_bind R HL); [keeps_leaf | intros now].
  apply (keeps_bind R HL); [keeps_leaf | intros _].
  destruct (negb defer); [apply (keeps_run_closure R T H0); exact I |].
  apply (keeps_bind R HL); [keeps_leaf | intros _; keeps_leaf].
Qed.

Lemma keeps_run_callback c : keeps R (run_callback c).
Proof.
  destruct (takes_ticket c) eqn:Ht;
    [| apply (keeps_ticketless_callback R T H0); exact Ht].
  pose proof (keeps_getfh_fi R HL) as Hg.
  pose proof (keeps_closes_push_back R T H0) as Hp.
  pose proof keeps_cannyfs_add_write as Ha.
  pose proof (keeps_getnewfh R T H0) as Hnew.
  destruct c; try discriminate; simpl;
    unfold cannyfs_link, cannyfs_chmod, cannyfs_chown, cannyfs_create,
      cannyfs_flush, cannyfs_release, cannyfs_fsync,
      cannyfs_add_write_path, cannyfs_add_write_path2, cannyfs_add_write_fi;
    repeat first
      [ solve [auto 1 with nocore]
      | keeps_leaf
      | apply (keeps_bind R HL); [| intros ?]
      | match goal with
        | |- keeps _ (if ?x then _ else _) => destruct x
        end ].
Qed.

Lemma settle_keeps wa (o : outcome Z) ts s' :
  every_segment R wa o ->
  settle o ts = Some s' ->
  Forall (fun th => forall w1, every_segment R w1 (th_resume th w1)) ts ->
  R wa (sys_world s') /\ threads_keep R s'.
Proof.
  intros Ho Hs Hts. destruct o as [a l w|g l w k|l w|l w|]; simpl in Hs;
    try discriminate; injection Hs as <-; simpl in Ho |- *.
  - split; [exact Ho | exact Hts].
  - destruct Ho as [H1 H2]. split; [exact H1 |].
    unfold threads_keep. simpl. apply Forall_app. split; [exact Hts |].
    constructor; [exact H2 | constructor].
Qed.

Lemma step_keeps a s s' :
  threads_keep R s -> do_action a s = Some s' ->
  R (sys_world s) (sys_world s') /\ threads_keep R s'.
Proof.
  intros Hts Hs. destruct a as [c|i|i]; simpl in Hs.
  - eapply settle_keeps; [apply keeps_run_callback | exact Hs | exact Hts].
  - destruct (workQueue (sys_world s) !! i) as [t|]; [| discriminate].
    destruct (settle_keeps _ _ _ _
                (keeps_run_closure R T H0 (t_fun t) (to_int (t_event t)) I fresh _)
                Hs Hts) as [H1 H2].
    split; [| exact H2].
    eapply (stable_trans R HL); [apply (stable_take R HR) | exact H1].
  - destruct (parked s !! i) as [th|] eqn:Hth; [| discriminate].
    destruct (guard_ok (th_guard th) (sys_world s)); [| discriminate].
    eapply settle_keeps; [| exact Hs |].
    + exact (proj1 (Forall_lookup _ _) Hts i th Hth (sys_world s)).
    + unfold threads_keep in Hts. apply Forall_delete. exact Hts.
Qed.

Lemma reachable_keeps s s' :
  threads_keep R s -> reachable s s' ->
  R (sys_world s) (sys_world s') /\ threads_keep R s'.
Proof.
  intros Hts Hr. induction Hr as [|s1 s2 Hr IH [a Ha]].
  - split; [apply (stable_refl R HL) | exact Hts].
  - destruct IH as [H1 H2].
    destruct (step_keeps a s1 s2 H2 Ha) as [H3 H4].
    split; [exact (stable_trans R HL _ _ _ H1 H3) | exact H4].
Qed.

Lemma boot_keeps o b os s s' :
  reachable (boot o b os) s -> reachable s s' ->
  R (sys_world s) (sys_world s').
Proof.
  intros Hs Hs'.
  destruct (reachable_keeps (boot o b os) s) as [_ Hts]; [constructor | exact Hs |].
  apply (reachable_keeps s s' Hts Hs').
Qed.

End Stable.

(** ** Relations that are kept *)

Lemma is_Some_set_locked p q b w :
  is_Some (filemap w !! p) -> is_Some (filemap (set_locked q b w) !! p).
Proof.
  intros [d Hd]. unfold set_locked. simpl.
  destruct (decide (q = p)) as [->|Hne].
  - rewrite lookup_alter_eq, Hd. simpl. eauto.
  - rewrite lookup_alter_ne by exact Hne. eauto.
Qed.

Lemma stable_unset_kept : stable unset_kept.
Proof.
  split; [split; [split; [split |..] |..] |..];
    try (intros; intros Hunset; exact Hunset).
  - intros w1 w2 w3 H1 H2 H. auto.
  - intros p b w H q d. unfold set_locked. simpl.
    destruct (decide (p = q)) as [->|Hne].
    + rewrite lookup_alter_eq. destruct (filemap w !! q) as [d0|] eqn:Hq;
        simpl; [| discriminate].
      intros Hd. injection Hd as <-. simpl. exact (H q d0 Hq).
    + rewrite lookup_alter_ne by exact Hne. apply H.
  - intros p w H q d. simpl.
    destruct (decide (p = q)) as [->|Hne].
    + rewrite lookup_insert_eq. intros Hd. injection Hd as <-. reflexivity.
    + rewrite lookup_insert_ne by exact Hne. apply H.
Qed.

Lemma stable_records_kept : stable records_kept.
Proof.
  split; [split; [split; [split |..] |..] |..];
    try (intros; intros q Hq; exact Hq).
  - intros w1 w2 w3 H1 H2 q H. auto.
  - intros p b w q H. apply is_Some_set_locked. exact H.
  - intros p w q H. simpl. destruct (decide (p = q)) as [->|Hne].
    + rewrite lookup_insert_eq. eauto.
    + rewrite lookup_insert_ne by exact Hne. exact H.
Qed.

Lemma stable_same_config : stable same_config.
Proof.
  split; [split; [split; [split; [apply same_config_refl
                                 | apply same_config_trans | ..] |..] |..] |..];
    intros; repeat split.
Qed.

Lemma stable_closes_kept : stable closes_kept.
Proof.
  split; [split; [split; [split |..] |..] |..];
    try (intros; exists []; simpl; rewrite app_nil_r; reflexivity).
  - intros w1 w2 w3 [l1 H1] [l2 H2]. exists (l1 ++ l2).
    rewrite H2, H1, app_assoc. reflexivity.
  - intros fd c w. exists [fd]. reflexivity.
Qed.

Lemma barrier_seg_refl w : barrier_seg w w.
Proof. repeat split. Qed.

Lemma barrier_seg_trans w1 w2 w3 :
  barrier_seg w1 w2 -> barrier_seg w2 w3 -> barrier_seg w1 w3.
Proof. unfold barrier_seg. intuition congruence. Qed.

Lemma stable_barrier_seg : stable_b barrier_seg (fun _ => True).
Proof.
  split; [split; [apply barrier_seg_refl | apply barrier_seg_trans | ..] |..];
    intros; repeat split.
Qed.

Lemma lock_seg_refl w : lock_seg w w.
Proof. repeat split. Qed.

Lemma lock_seg_trans w1 w2 w3 :
  lock_seg w1 w2 -> lock_seg w2 w3 -> lock_seg w1 w3.
Proof.
  intros [H1 E1] [H2 E2]. split; [eapply barrier_seg_trans; eauto | congruence].
Qed.

Lemma stable_lock_seg : stable_l lock_seg.
Proof.
  split; [apply lock_seg_refl | apply lock_seg_trans | ..];
    intros; repeat split.
Qed.

Lemma lock_is_barrier_seg w w' : lock_seg w w' -> barrier_seg w w'.
Proof. intros [H _]. exact H. Qed.

(** ** Computations that leave the thread's own state alone *)

Lemma silent_bind {A B : Type} (m : M A) (f : A -> M B) :
  silent m -> (forall a, silent (f a)) -> silent (bind m f).
Proof.
  intros Hm Hf l w b l' w' Hr. unfold bind in Hr.
  apply returns_bind in Hr. destruct Hr as (a & l1 & w1 & Ha & Hb).
  apply Hm in Ha. apply Hf in Hb. destruct Ha as [-> Ha], Hb as [-> Hb].
  split; [reflexivity | eapply same_config_trans; eauto].
Qed.

Lemma silent_ret {A : Type} (a : A) : silent (ret a).
Proof. intros l w b l' w' Hr. apply returns_ret in Hr. destruct Hr as (_ & -> & ->). auto using same_config_refl. Qed.

Lemma silent_get {A : Type} (f : world -> A) : silent (get f).
Proof. intros l w b l' w' Hr. apply returns_get in Hr. destruct Hr as (_ & -> & ->). auto using same_config_refl. Qed.

Lemma silent_modify (f : world -> world) :
  (forall w, same_config w (f w)) -> silent (modify f).
Proof. intros Hf l w b l' w' Hr. apply returns_modify in Hr. destruct Hr as (-> & ->). auto. Qed.

Lemma silent_await g : silent (await g).
Proof. intros l w b l' w' Hr. apply returns_await in Hr. tauto. Qed.

Lemma silent_abort {A : Type} : silent (@abort A).
Proof. intros l w b l' w' Hr. destruct (returns_abort _ _ _ _ _ Hr). Qed.

Lemma silent_undefined {A : Type} : silent (@undefined A).
Proof. intros l w b l' w' Hr. destruct (returns_undefined _ _ _ _ _ Hr). Qed.

Ltac silent_leaf :=
  first [ apply silent_ret | apply silent_get | apply silent_await
        | apply silent_abort | apply silent_undefined
        | apply silent_modify; intro; repeat split ].

Ltac silence :=
  repeat first
    [ silent_leaf
    | apply silent_bind; [| intros ?]
    | match goal with
      | |- silent (match ?x with _ => _ end) => destruct x
      | |- silent (let (_, _) := ?x in _) => destruct x
      end
    | assumption ].

Lemma silent_lock_mutex p : silent (lock_mutex p).
Proof. unfold lock_mutex. silence. Qed.

Lemma silent_lock_dtor lk : silent (lock_dtor lk).
Proof. unfold lock_dtor. silence. Qed.

Lemma silent_lock_assign old p : silent (lock_assign old p).
Proof.
  unfold lock_assign.
  apply silent_bind; [apply silent_lock_mutex | intros ?].
  apply silent_bind; [apply silent_lock_dtor | intros ?]. silence.
Qed.

Lemma silent_filemap_get path always lk : silent (filemap_get path always lk).
Proof.
  unfold filemap_get, map_lock_shared, map_unlock_shared, map_lock, map_unlock.
  apply silent_bind; [silence | intros _].
  apply silent_bind; [silence | intros found].
  apply silent_bind.
  - destruct found; [| silence].
    apply silent_bind; [apply silent_lock_assign | intros ?]. silence.
  - intros r. apply silent_bind; [silence | intros _].
    destruct r as [[p|] lk1]; [silence |].
    destruct always; [| silence].
    apply silent_bind; [silence | intros _].
    apply silent_bind; [silence | intros again].
    apply silent_bind; [destruct again; silence | intros ?].
    apply silent_bind; [apply silent_lock_assign | intros ?]. silence.
Qed.

Lemma silent_processed_wait p t : silent (processed_wait p t).
Proof. unfold processed_wait. silence. Qed.

Lemma silent_reader_dtor b : silent (reader_dtor b).
Proof. apply silent_lock_dtor. Qed.

(** A reader barrier produces one event, its own construction. *)
Lemma cannyfs_reader_own path flag l w b l' w' :
  returns (cannyfs_reader path flag l w) b l' w' ->
  l' = emit (ev_reader path flag) l /\ same_config w w'.
Proof.
  unfold cannyfs_reader, bind at 1. intros Hr.
  apply returns_bind in Hr. destruct Hr as (u & l1 & w1 & Ha & Hb).
  apply returns_log in Ha. destruct Ha as [-> ->].
  revert Hb. generalize (emit (ev_reader path flag) l). intros l0 Hb.
  assert (Hs : silent (r <- filemap_get path (flag =? LOCK_WHOLE) no_lock ;;
     match fst r with
     | Some p => eventId <- get (last_event_of p) ;; processed_wait p eventId
     | None => ret tt
     end ;;
     if flag =? LOCK_WHOLE
     then ret {| r_lock := snd r; r_fileobj := fst r |}
     else lock_dtor (snd r) ;; ret {| r_lock := no_lock; r_fileobj := fst r |})).
  { apply silent_bind; [apply silent_filemap_get | intros r].
    apply silent_bind.
    - destruct (fst r); [| silence].
      apply silent_bind; [silence | intros ?]. apply silent_processed_wait.
    - intros _. destruct (flag =? LOCK_WHOLE); [silence |].
      apply silent_bind; [apply silent_lock_dtor | intros ?]. silence. }
  exact (Hs _ _ _ _ _ Hb).
Qed.

Lemma mutex_free_set_locked p b w :
  is_Some (filemap w !! p) -> mutex_free p (set_locked p b w) = negb b.
Proof.
  intros [d Hd]. unfold mutex_free, set_locked. simpl.
  rewrite lookup_alter_eq, Hd. reflexivity.
Qed.

Lemma last_event_of_set_locked p q b w :
  last_event_of p (set_locked q b w) = last_event_of p w.
Proof.
  unfold last_event_of, set_locked. simpl.
  destruct (decide (q = p)) as [->|Hne].
  - rewrite lookup_alter_eq. destruct (filemap w !! p); reflexivity.
  - rewrite lookup_alter_ne by exact Hne. reflexivity.
Qed.



(** ** Locks, [cannyfs_filemap::get] and the wait loop *)


Lemma waitingEvents_set_locked p b w :
  waitingEvents (set_locked p b w) = waitingEvents w.
Proof. reflexivity. Qed.

(** Taking a mutex: the thread gets it in a world [w1] where it is free,
    which is the world it asked in when it was free there. *)
Lemma returns_lock_mutex p lk l w l' w' :
  returns (lock_mutex p l w) lk l' w' ->
  lk = {| ul_mutex := Some p; ul_owns := true |} /\ l' = l /\
  exists w1, same_config w w1 /\ mutex_free p w1 = true /\
             (mutex_free p w = true -> w1 = w) /\
             w' = set_locked p true w1.
Proof.
  unfold lock_mutex, bind at 1. intros Hr.
  apply returns_bind in Hr. destruct Hr as (u & l1 & w1 & Ha & Hr).
  assert (Hw : mutex_free p w = true -> w1 = w).
  { intros Hf. unfold await in Ha. simpl in Ha. rewrite Hf in Ha.
    inversion Ha; reflexivity. }
  apply returns_await in Ha. destruct Ha as (-> & Hg & Hc & _).
  unfold bind, modify in Hr. simpl in Hr.
  apply returns_ret in Hr. destruct Hr as (-> & -> & ->).
  split; [reflexivity | split; [reflexivity |]].
  exists w1. auto.
Qed.

Lemma returns_lock_assign_fresh p lk l w l' w' :
  returns (lock_assign no_lock p l w) lk l' w' ->
  lk = {| ul_mutex := Some p; ul_owns := true |} /\ l' = l /\
  exists w1, same_config w w1 /\ mutex_free p w1 = true /\
             (mutex_free p w = true -> w1 = w) /\
             w' = set_locked p true w1.
Proof.
  unfold lock_assign, bind at 1. intros Hr.
  apply returns_bind in Hr. destruct Hr as (lk1 & l1 & w1 & Ha & Hr).
  apply returns_lock_mutex in Ha. destruct Ha as (-> & -> & w2 & H2).
  unfold bind, lock_dtor in Hr. simpl in Hr.
  apply returns_ret in Hr. destruct Hr as (-> & -> & ->).
  split; [reflexivity | split; [reflexivity |]]. exists w2. exact H2.
Qed.

Lemma mutex_free_insert_new path w :
  mutex_free path (set_filemap (<[path := new_filedata]> (filemap w)) w) = true.
Proof. unfold mutex_free. simpl. rewrite lookup_insert_eq. reflexivity. Qed.

Lemma mutex_held_set_locked path w :
  is_Some (filemap w !! path) -> mutex_held path (set_locked path true w).
Proof.
  intros [d Hd]. unfold mutex_held, set_locked. simpl.
  rewrite lookup_alter_eq, Hd. simpl. eauto.
Qed.

Lemma mutex_free_is_Some path w :
  mutex_free path w = true -> is_Some (filemap w !! path).
Proof.
  unfold mutex_free. destruct (filemap w !! path); [eauto | discriminate].
Qed.

Lemma mutex_held_is_Some path w :
  mutex_held path w -> is_Some (filemap w !! path).
Proof. intros (d & Hd & _). eauto. Qed.

Lemma mutex_held_not_free path w :
  mutex_held path w -> mutex_free path w = false.
Proof.
  intros (d & Hd & Hl). unfold mutex_free. rewrite Hd, Hl. reflexivity.
Qed.

(** A mutex that has been given back is at rest. *)
Lemma at_rest_unlocked path w : at_rest path (set_locked path false w).
Proof.
  unfold at_rest, mutex_free, set_locked. simpl.
  rewrite lookup_alter_eq.
  destruct (filemap w !! path); simpl; auto.
Qed.

Lemma mutex_free_unlocked path w :
  is_Some (filemap w !! path) ->
  mutex_free path (set_locked path false w) = true.
Proof.
  intros [d Hd]. unfold mutex_free, set_locked. simpl.
  rewrite lookup_alter_eq, Hd. reflexivity.
Qed.

(** Taking the lock of the map. *)
Lemma returns_map_lock_shared u l w l' w' :
  returns (map_lock_shared l w) u l' w' ->
  l' = l /\
  exists w1, same_config w w1 /\ map_exclusive w1 = false /\
             (map_exclusive w = false -> w1 = w) /\
             w' = set_map_shared (S (map_shared w1)) w1.
Proof.
  unfold map_lock_shared, bind at 1. intros Hr.
  apply returns_bind in Hr. destruct Hr as (u1 & l1 & w1 & Ha & Hr).
  apply returns_await in Ha. destruct Ha as (-> & Hg & Hc & Hw).
  apply returns_modify in Hr. destruct Hr as (-> & ->).
  simpl in Hg, Hw. apply negb_true_iff in Hg.
  split; [reflexivity |]. exists w1.
  split; [exact Hc | split; [exact Hg | split; [| reflexivity]]].
  intros He. apply Hw. rewrite He. reflexivity.
Qed.

Lemma returns_map_lock u l w l' w' :
  returns (map_lock l w) u l' w' ->
  l' = l /\
  exists w1, same_config w w1 /\ map_exclusive w1 = false /\
             map_shared w1 = O /\
             (map_exclusive w = false -> map_shared w = O -> w1 = w) /\
             w' = set_map_exclusive true w1.
Proof.
  unfold map_lock, bind at 1. intros Hr.
  apply returns_bind in Hr. destruct Hr as (u1 & l1 & w1 & Ha & Hr).
  apply returns_await in Ha. destruct Ha as (-> & Hg & Hc & Hw).
  apply returns_modify in Hr. destruct Hr as (-> & ->).
  simpl in Hg, Hw. apply andb_true_iff in Hg. destruct Hg as [Hg1 Hg2].
  apply negb_true_iff in Hg1. apply Nat.eqb_eq in Hg2.
  split; [reflexivity |]. exists w1.
  split; [exact Hc | split; [exact Hg1 | split; [exact Hg2 |]]].
  split; [| reflexivity].
  intros He Hs. apply Hw. rewrite He, Hs. reflexivity.
Qed.

(** [get] comes back with the record of the path, its mutex held by the
    caller, or, without [always], with nothing when the path has no
    record. *)
Lemma returns_filemap_get path always r l w l' w' :
  returns (filemap_get path always no_lock l w) r l' w' ->
  l' = l /\ same_config w w' /\
  ((r = (Some path, owned path) /\ mutex_held path w') \/
   (always = false /\ r = (None, no_lock) /\ filemap w' !! path = None)).
Proof.
  intros Hr. pose proof (silent_filemap_get _ _ _ _ _ _ _ _ Hr) as [Hl Hc].
  split; [exact Hl | split; [exact Hc |]]. clear Hl Hc.
  unfold filemap_get, bind at 1 in Hr.
  apply returns_bind in Hr. destruct Hr as (u & l1 & w1 & Ha & Hr).
  apply returns_map_lock_shared in Ha.
  destruct Ha as (-> & w0 & _ & _ & _ & ->).
  unfold bind at 1, get at 1 in Hr. cbn [obind] in Hr.
  change (filemap (set_map_shared (S (map_shared w0)) w0))
    with (filemap w0) in Hr.
  destruct (filemap w0 !! path) as [d|] eqn:Hd.
  - unfold bind at 1 2 in Hr.
    apply returns_bind in Hr. destruct Hr as (r1 & l2 & w2 & Ha & Hr).
    apply returns_bind in Ha. destruct Ha as (lk & l3 & w3 & Ha & Hb).
    apply returns_lock_assign_fresh in Ha.
    destruct Ha as (-> & -> & w4 & _ & Hf & _ & ->).
    apply returns_ret in Hb. destruct Hb as (-> & -> & ->).
    unfold bind at 1, map_unlock_shared, modify in Hr. cbn [obind] in Hr.
    apply returns_ret in Hr. destruct Hr as (-> & -> & ->).
    left. split; [reflexivity |].
    apply (mutex_held_set_locked path w4), mutex_free_is_Some, Hf.
  - unfold bind at 1 in Hr. cbn [obind ret] in Hr.
    unfold bind at 1, map_unlock_shared, modify in Hr. cbn [obind] in Hr.
    destruct always.
    + unfold bind at 1 in Hr.
      apply returns_bind in Hr. destruct Hr as (u2 & l2 & w2 & Ha & Hr).
      apply returns_map_lock in Ha.
      destruct Ha as (-> & w3 & _ & _ & _ & _ & ->).
      unfold bind at 1, get at 1 in Hr. cbn [obind] in Hr.
      unfold bind at 1 in Hr.
      apply returns_bind in Hr. destruct Hr as (u3 & l3 & w4 & Ha & Hr).
      unfold bind at 1 in Hr.
      apply returns_bind in Hr. destruct Hr as (lk & l4 & w5 & Hb & Hr).
      apply returns_lock_assign_fresh in Hb.
      destruct Hb as (-> & -> & w6 & _ & Hf & _ & ->).
      unfold bind at 1, map_unlock, modify in Hr. cbn [obind] in Hr.
      apply returns_ret in Hr. destruct Hr as (-> & _ & ->).
      left. split; [reflexivity |].
      apply (mutex_held_set_locked path w6), mutex_free_is_Some, Hf.
    + apply returns_ret in Hr. destruct Hr as (-> & -> & ->).
      right. split; [reflexivity | split; [reflexivity | exact Hd]].
Qed.


(** While the ticket is pending the loop parks the thread on the record's
    condition variable. *)
Lemma processed_wait_parks p t l w :
  t ∈ waitingEvents w ->
  exists k, processed_wait p t l w
            = Blocked (on_processed p t) l (set_locked p false w) k.
Proof.
  intros Hin. unfold processed_wait, bind, get, modify, await. simpl.
  rewrite bool_decide_eq_true_2 by exact Hin. simpl.
  rewrite bool_decide_eq_true_2 by exact Hin.
  rewrite andb_false_r. simpl. eauto.
Qed.

(** A thread that holds the mutex when it enters the wait loop holds it
    when it leaves. *)
Lemma returns_processed_wait_held p t u l w l' w' :
  mutex_held p w ->
  returns (processed_wait p t l w) u l' w' -> mutex_held p w'.
Proof.
  intros Hh. unfold processed_wait, bind at 1, get at 1. simpl.
  destruct (bool_decide (t ∈ waitingEvents w)).
  - unfold bind at 1, modify at 1. simpl. unfold bind at 1. intros Hr.
    apply returns_bind in Hr. destruct Hr as (u1 & l1 & w1 & Ha & Hr).
    apply returns_await in Ha. destruct Ha as (-> & Hg & _ & _).
    apply returns_modify in Hr. destruct Hr as (-> & ->).
    simpl in Hg. apply andb_true_iff in Hg. destruct Hg as [Hg _].
    apply mutex_held_set_locked, mutex_free_is_Some, Hg.
  - intros Hr. apply returns_ret in Hr. destruct Hr as (_ & -> & ->).
    exact Hh.
Qed.

(** ** Writers *)

(** With [restrictivedirs], the constructor of a writer on "" never comes
    back, whatever the fuel: each level constructs one more general writer
    on "". *)
Lemma general_writer_never_returns fuel t :
  forall flag l w wr l' w',
    restrictivedirs (options w) = true ->
    ~ returns (cannyfs_writer fuel "" flag t l w) wr l' w'.
Proof.
  induction fuel as [|n IH]; intros flag l w wr l' w' Hres Hr.
  - inversion Hr.
  - simpl in Hr. unfold bind at 1, log at 1 in Hr. simpl in Hr.
    unfold bind at 1, ret at 1 in Hr. simpl in Hr.
    unfold bind at 1 in Hr.
    apply returns_bind in Hr. destruct Hr as (r & l1 & w1 & Ha & Hr).
    apply returns_filemap_get in Ha.
    destruct Ha as (-> & Hc & _).
    unfold bind at 1, get at 1 in Hr. simpl in Hr.
    destruct Hc as (Ho & _). rewrite Ho, Hres in Hr.
    unfold bind at 1 2 in Hr.
    apply returns_bind in Hr. destruct Hr as (g & l2 & w3 & Ha & _).
    apply returns_bind in Ha. destruct Ha as (g' & l3 & w4 & Ha & _).
    eapply IH; [| exact Ha]. simpl. rewrite Ho. exact Hres.
Qed.

(** What a constructed writer is, and what its construction left: the
    mutex of the path is held. *)
Lemma returns_cannyfs_writer n path flag t l w wr l' w' :
  returns (cannyfs_writer (S n) path flag t l w) wr l' w' ->
  let global := negb (String.eqb path "") in
  (global = false -> restrictivedirs (options w) = false) /\
  wr = mk_writer (if flag =? LOCK_WHOLE then owned path else no_lock)
         (Some path) None t global /\
  l' = emit (ev_writer path flag t) l /\
  same_config w w' /\ mutex_held path w'.
Proof.
  intros Hr global. simpl in Hr.
  unfold bind at 1, log at 1 in Hr. simpl in Hr.
  fold global in Hr.
  set (w0 := if global then insert_event t w else w).
  assert (Hr' : returns
    (obind (filemap_get path true no_lock (emit (ev_writer path flag t) l) w0)
       (fun r =>
          restrictive <- get (fun w => restrictivedirs (options w)) ;;
          g <- (if negb global && restrictive
                then g <- cannyfs_writer n "" JUST_BARRIER t ;; ret (Some g)
                else ret None) ;;
          ret (mk_writer
                 (if negb (flag =? LOCK_WHOLE) then lock_release (snd r)
                  else snd r) (fst r) g t global))) wr l' w').
  { subst w0. destruct global; exact Hr. }
  clear Hr. apply returns_bind in Hr'.
  destruct Hr' as (r & l1 & w1 & Ha & Hr).
  apply returns_filemap_get in Ha.
  destruct Ha as (-> & Hc & [(-> & Hh) | (Hf & _)]); [| discriminate].
  assert (Hc0 : same_config w w1).
  { eapply same_config_trans; [| exact Hc].
    subst w0. destruct global; repeat split. }
  unfold bind at 1, get at 1 in Hr. simpl in Hr.
  assert (Ho : options w1 = options w) by (destruct Hc0 as (Ho & _); exact Ho).
  rewrite Ho in Hr.
  destruct (negb global && restrictivedirs (options w)) eqn:Hg.
  - exfalso. apply andb_true_iff in Hg. destruct Hg as [Hg Hres].
    unfold bind at 1 2 in Hr.
    apply returns_bind in Hr. destruct Hr as (g & l2 & w3 & Ha & _).
    apply returns_bind in Ha. destruct Ha as (g' & l3 & w4 & Ha & _).
    eapply general_writer_never_returns; [| exact Ha]. rewrite Ho. exact Hres.
  - unfold bind at 1 in Hr. simpl in Hr.
    apply returns_ret in Hr. destruct Hr as (-> & -> & ->).
    split; [| split; [| split; [| split]]].
    + intros Hgl. rewrite Hgl in Hg. exact Hg.
    + unfold lock_release, owned. destruct (flag =? LOCK_WHOLE); reflexivity.
    + reflexivity.
    + exact Hc0.
    + exact Hh.
Qed.

(** Two continuations that come back alike give binds that come back
    alike. *)
Lemma returns_bind_ext {A B : Type} (o : outcome A) (f g : A -> M B) b l w :
  (forall a l1 w1, returns o a l1 w1 ->
     returns (f a l1 w1) b l w -> returns (g a l1 w1) b l w) ->
  returns (obind o f) b l w -> returns (obind o g) b l w.
Proof.
  intros Hfg Hr. apply returns_bind in Hr.
  destruct Hr as (a & l1 & w1 & Ha & Hb).
  apply returns_bind. exists a, l1, w1. split; [exact Ha | eauto].
Qed.

(** The fuel only matters to a constructor that never comes back. *)
Lemma cannyfs_writer_fuel n path flag t l w wr l' w' :
  returns (cannyfs_writer (S n) path flag t l w) wr l' w' <->
  returns (cannyfs_writer 1 path flag t l w) wr l' w'.
Proof.
  assert (Hgen : forall m k,
    returns (cannyfs_writer (S m) path flag t l w) wr l' w' ->
    returns (cannyfs_writer (S k) path flag t l w) wr l' w').
  { intros m k. simpl. unfold bind at 1 6.
    apply returns_bind_ext. intros u l1 w1 _.
    unfold bind at 1 5.
    apply returns_bind_ext. intros u2 l2 w2 _.
    unfold bind at 1 4.
    apply returns_bind_ext. intros r l3 w3 _.
    unfold bind at 1 4.
    apply returns_bind_ext. intros res l4 w4 Hres.
    apply returns_get in Hres. destruct Hres as (-> & -> & ->).
    destruct (negb (negb (String.eqb path "")) && restrictivedirs (options w3))
      eqn:Hg; [| trivial].
    apply andb_true_iff in Hg. destruct Hg as [_ Hg].
    unfold bind at 1 2. intros Hr. exfalso.
    apply returns_bind in Hr. destruct Hr as (g & l5 & w5 & Ha & _).
    apply returns_bind in Ha. destruct Ha as (g' & l6 & w6 & Ha & _).
    eapply general_writer_never_returns; [exact Hg | exact Ha]. }
  split; apply Hgen.
Qed.

(** Destroying a writer that owns its lock: one broadcast, the mutex is
    released, and the ticket is erased only if the writer is on "". *)
Lemma writer_dtor_owned path t global l w :
  writer_dtor (mk_writer (owned path) (Some path) None t global) l w
  = Ret tt (emit (ev_processed path) l)
      (set_locked path false (if global then w else erase_event t w)).
Proof. destruct global; reflexivity. Qed.

(** Destroying a writer built with [JUST_BARRIER]: [lock.lock()] has no
    mutex to lock, and the process ends before any broadcast. *)
Lemma writer_dtor_released p g t global l w :
  writer_dtor (mk_writer no_lock p g t global) l w
  = Aborted l (if global then w else erase_event t w).
Proof. destruct global; reflexivity. Qed.

(** ** Handles *)

Lemma returns_getfh i fd l w l' w' :
  returns (getfh i l w) fd l' w' ->
  l' = l /\ same_config w w' /\ fd = fd_of i w' /\ fd <> -1 /\
  (fd_of i w <> -1 -> w' = w).
Proof.
  unfold getfh, bind at 1. intros Hr.
  apply returns_bind in Hr. destruct Hr as (u & l1 & w1 & Ha & Hr).
  assert (Hw : fd_of i w <> -1 -> w1 = w).
  { intros Hne. unfold await in Ha. simpl in Ha.
    apply Z.eqb_neq in Hne. rewrite Hne in Ha. simpl in Ha.
    inversion Ha; reflexivity. }
  apply returns_await in Ha. destruct Ha as (-> & Hg & Hc & _).
  apply returns_get in Hr. destruct Hr as (-> & -> & ->).
  simpl in Hg. apply negb_true_iff, Z.eqb_neq in Hg. auto.
Qed.

Lemma returns_getcfh fd i l w l' w' :
  returns (getcfh fd l w) i l' w' ->
  l' = l /\ w' = w /\ i = Z.to_nat (to_int fd) /\
  (i < length (fhs w))%nat.
Proof.
  unfold getcfh, bind at 1, get at 1. simpl.
  destruct (0 <=? to_int fd) eqn:H0; simpl;
    [destruct (to_int fd <? Z.of_nat (length (fhs w))) eqn:H1; simpl |];
    intros Hr; try (destruct (returns_undefined _ _ _ _ _ Hr)).
  apply returns_ret in Hr. destruct Hr as (-> & -> & ->).
  apply Z.leb_le in H0. apply Z.ltb_lt in H1.
  repeat split; try reflexivity.
  apply Nat2Z.inj_lt. rewrite Z2Nat.id by exact H0. exact H1.
Qed.

Lemma returns_getfh_fi fi fd l w l' w' :
  returns (getfh_fi fi l w) fd l' w' ->
  l' = l /\ same_config w w' /\ fd = fd_of (handle_of fi) w' /\ fd <> -1 /\
  (fd_of (handle_of fi) w <> -1 -> w' = w).
Proof.
  unfold getfh_fi, bind at 1. intros Hr.
  apply returns_bind in Hr. destruct Hr as (i & l1 & w1 & Ha & Hr).
  apply returns_getcfh in Ha. destruct Ha as (-> & -> & -> & _).
  apply returns_getfh in Hr. exact Hr.
Qed.

(** ** Reader barriers *)

(** A reader barrier that is back: in [LOCK_WHOLE] mode it holds the mutex
    of the record of the path; in [JUST_BARRIER] mode it holds nothing, and
    no thread holds that mutex in the world it is back in. *)
Lemma returns_cannyfs_reader path flag b l w l' w' :
  returns (cannyfs_reader path flag l w) b l' w' ->
  if flag =? LOCK_WHOLE
  then b = {| r_lock := owned path; r_fileobj := Some path |} /\
       mutex_held path w'
  else r_lock b = no_lock /\ at_rest path w' /\
       (r_fileobj b = None -> filemap w' !! path = None).
Proof.
  unfold cannyfs_reader, bind at 1, log at 1. simpl.
  unfold bind at 1. intros Hr.
  apply returns_bind in Hr. destruct Hr as (r & l1 & w1 & Ha & Hr).
  unfold bind at 1 in Hr.
  apply returns_bind in Hr. destruct Hr as (u & l2 & w2 & Hb & Hr).
  apply returns_filemap_get in Ha.
  destruct Ha as (-> & _ & [(-> & Hh) | (Hf & -> & Hn)]).
  - simpl in Hb, Hr. unfold bind at 1, get at 1 in Hb. simpl in Hb.
    pose proof (returns_processed_wait_held _ _ _ _ _ _ _ Hh Hb) as Hh2.
    destruct (flag =? LOCK_WHOLE).
    + apply returns_ret in Hr. destruct Hr as (-> & -> & ->).
      split; [reflexivity | exact Hh2].
    + unfold bind, lock_dtor, modify in Hr. simpl in Hr.
      apply returns_ret in Hr. destruct Hr as (-> & -> & ->). simpl.
      split; [reflexivity | split; [apply at_rest_unlocked | discriminate]].
  - rewrite Hf in *. simpl in Hb, Hr.
    apply returns_ret in Hb. destruct Hb as (_ & -> & ->).
    unfold bind, lock_dtor in Hr. simpl in Hr.
    apply returns_ret in Hr. destruct Hr as (-> & -> & ->). simpl.
    split; [reflexivity | split; [left; exact Hn | intros _; exact Hn]].
Qed.

(** What a reader's destructor does: in [LOCK_WHOLE] mode it gives the
    mutex back; in [JUST_BARRIER] mode there is nothing to give back. *)
Lemma reader_dtor_owned path fileobj l w :
  reader_dtor {| r_lock := owned path; r_fileobj := fileobj |} l w
  = Ret tt l (set_locked path false w).
Proof. reflexivity. Qed.

Lemma reader_dtor_just_barrier b l w :
  r_lock b = no_lock -> reader_dtor b l w = Ret tt l w.
Proof. intros Hb. unfold reader_dtor. rewrite Hb. reflexivity. Qed.


(** ** [cannyfs_create] and [cannyfs_open] *)

Lemma to_int_small x : -2147483648 <= x < 2147483648 -> to_int x = x.
Proof.
  intros Hx. unfold to_int, wrap.
  change (2 ^ (32 - 1)) with 2147483648. change (2 ^ 32) with 4294967296.
  rewrite Z.mod_small by lia. lia.
Qed.

Lemma handle_of_nat flags i :
  Z.of_nat i < 2147483648 ->
  handle_of {| fi_flags := flags; fi_fh := Z.of_nat i |} = i.
Proof.
  intros Hi. unfold handle_of. simpl.
  rewrite to_int_small by lia. apply Nat2Z.id.
Qed.

(** [getcfh] takes the id as an [int]: the id 2^32 names handle 0.  Hence
    the bound on the table in what follows. *)
Remark handle_of_wraps :
  handle_of {| fi_flags := 0; fi_fh := 4294967296 |} = 0%nat.
Proof. reflexivity. Qed.

Lemma getcfh_in_range fd l w :
  (0 <= fd < Z.of_nat (length (fhs w))) -> fd < 2147483648 ->
  getcfh fd l w = Ret (Z.to_nat fd) l w.
Proof.
  intros Hr Hs. unfold getcfh, bind, get. simpl.
  rewrite to_int_small by lia.
  destruct (Z.leb_spec 0 fd); [| lia].
  destruct (Z.ltb_spec fd (Z.of_nat (length (fhs w)))); [| lia].
  reflexivity.
Qed.

Lemma fd_of_alter_eq i fd hs w :
  (i < length hs)%nat ->
  fd_of i (set_fhs (alter (with_fd fd) i hs) w) = fd.
Proof.
  intros Hi. unfold fd_of. simpl.
  destruct (lookup_lt_is_Some_2 hs i Hi) as [h Hh].
  rewrite list_lookup_alter_eq, Hh. reflexivity.
Qed.

Lemma fd_of_fresh_handle w :
  fd_of (length (fhs w)) (set_fhs (fhs w ++ [new_filehandle]) w) = -1.
Proof.
  unfold fd_of. simpl. rewrite lookup_app_r by lia.
  rewrite Nat.sub_diag. reflexivity.
Qed.

Lemma getnewfh_grows l w :
  freefhs w = [] ->
  getnewfh l w = Ret (length (fhs w)) l (set_fhs (fhs w ++ [new_filehandle]) w).
Proof. intros Hf. unfold getnewfh, bind, get. simpl. rewrite Hf. reflexivity. Qed.

(** ** Closures *)

Lemma returns_zero_or_neg_errno sr r l w l' w' :
  returns (zero_or_neg_errno sr l w) r l' w' ->
  r = (if sr_val sr =? -1 then - errno l else 0) /\ l' = l /\ w' = w.
Proof.
  unfold zero_or_neg_errno, neg_errno, bind, get_errno.
  destruct (sr_val sr =? -1); simpl; intros Hr;
    apply returns_ret in Hr; tauto.
Qed.

Lemma run_task_on_path_fi e p fi f :
  run_task {| t_event := e; t_fun := on_path_fi p fi f |}
  = (wr <- cannyfs_writer writer_fuel p LOCK_WHOLE (to_int e) ;;
     r <- run_fi_fun f p fi ;;
     writer_dtor wr ;;
     ret r).
Proof. reflexivity. Qed.

Lemma run_closure_on_path_fi e p fi f :
  run_closure (on_path_fi p fi f) e
  = (wr <- cannyfs_writer writer_fuel p LOCK_WHOLE e ;;
     r <- run_fi_fun f p fi ;;
     writer_dtor wr ;;
     ret r).
Proof. reflexivity. Qed.


(** ** [cannyfs_write] *)

(** C10.  [cannyfs_write] calls [abort()] first: whatever its arguments and
    whatever the state, the process is terminated before the thread has
    produced any event (no system call, so no [pwrite]) and with the world
    as it was; the callback never returns, and the system has no next state
    after the kernel calls it. *)
Theorem cannyfs_write_aborts path buf size offset fi :
  forall l w,
    cannyfs_write path buf size offset fi l w = Aborted l w /\
    (forall r l' w',
       ~ returns (cannyfs_write path buf size offset fi l w) r l' w') /\
    (forall s, do_action (call (cb_write path buf size offset fi)) s = None).
Proof.
  intros l w. split; [reflexivity | split].
  - intros r l' w' Hr. inversion Hr.
  - intros s. reflexivity.
Qed.



(** ** Runs that show the defects *)

(** C1 fails on the code.  In the toy system "/a" has mode 0644 (420).
    [chmod("/a", 0600)] is deferred: it returns 0 with the task queued and
    nothing done.  A [getattr("/a")] that the kernel sends before a worker
    has started the task finds no path record (records are made by the
    writer, inside the task), so its reader barrier waits for nothing and
    [lstat] still reports 0644.  With two deferred [chmod]s on "/a", a
    worker may take the second task first: the earlier submitted one is then
    applied last, and the file ends with its mode. *)
Theorem getattr_misses_deferred_chmod :
  let w0 := toy_world (default_options true) in
  let chmod := cannyfs_chmod "/a" 384 fresh w0 in
  let w1 := world_after w0 chmod in
  let getattr := cannyfs_getattr "/a" fresh w1 in
  (result_of chmod = Some 0 /\
   events_of chmod = [] /\
   workQueue w1 = [chmod_task 1 384] /\
   result_of getattr = Some 0 /\
   events_of getattr = [ev_reader "/a" JUST_BARRIER;
                        ev_sys (sys_lstat "/a") (ok 0 [420])] /\
   workQueue (world_after w1 getattr) = [chmod_task 1 384]) /\
  option_map (fun s => syslog (sys_world s))
    (run_actions [call (cb_chmod "/a" 384); call (cb_chmod "/a" 256);
                  work 1%nat; work 0%nat; call (cb_getattr "/a")]
       (boot (default_options true) toy_build (toy_os toy_files)))
  = Some [(sys_chmod "/a" 256, ok 0 []); (sys_chmod "/a" 384, ok 0 []);
          (sys_lstat "/a", ok 0 [384])].
Proof. repeat split; vm_compute; reflexivity. Qed.

(** C3 fails on the code.  A [LOCK_WHOLE] writer with ticket 1 on "/a":
    the constructor inserts the ticket and creates the record, but leaves
    [lastEventId] at 0; the destructor broadcasts and unlocks, but the
    ticket stays in [waitingEvents] (it erases only for a writer on ""). *)
Theorem writer_leaves_ticket_and_last_event :
  let w0 := toy_world (default_options true) in
  let ctor := cannyfs_writer writer_fuel "/a" LOCK_WHOLE 1 fresh w0 in
  let w1 := world_after w0 ctor in
  let dtor := obind ctor writer_dtor in
  let w2 := world_after w1 dtor in
  result_of ctor
  = Some (mk_writer (owned "/a") (Some "/a") None 1 true) /\
  elements (waitingEvents w1) = [1] /\
  filemap w1 !! "/a" = Some {| fd_locked := true; lastEventId := 0 |} /\
  result_of dtor = Some tt /\
  events_of dtor = [ev_writer "/a" LOCK_WHOLE 1; ev_processed "/a"] /\
  elements (waitingEvents w2) = [1] /\
  filemap w2 !! "/a" = Some {| fd_locked := false; lastEventId := 0 |}.
Proof. repeat split; vm_compute; reflexivity. Qed.

(** C4 fails on the code for writers.  With [restrictivedirs] on, a writer
    on "/a" constructs no general writer: [generalwriter] stays null, the
    thread constructs one barrier only, and "" gets no record.  (The test
    that guards the construction, [!global], holds for the path "" only,
    and there the constructor calls itself without end.)  The directory
    readers do use "": [opendir("/a")] constructs its reader on "". *)
Theorem writer_constructs_no_general_writer :
  let w0 := toy_world restrictive_options in
  let ctor := cannyfs_writer writer_fuel "/a" LOCK_WHOLE 1 fresh w0 in
  let opendir := cannyfs_opendir "/a" toy_fi fresh w0 in
  (generalwriter_of <$> result_of ctor) = Some None /\
  events_of ctor = [ev_writer "/a" LOCK_WHOLE 1] /\
  filemap (world_after w0 ctor) !! "" = None /\
  is_Some (result_of opendir) /\
  events_of opendir = [ev_reader "" JUST_BARRIER;
                       ev_sys (sys_opendir "/a") (ok 1 [])].
Proof. repeat split; try (vm_compute; reflexivity). vm_compute. eauto. Qed.

(** C7 fails on the code.  "/a" is open on handle 0, descriptor 3, and
    [closeverylate] is on.  [release] puts 3 into [closes], but the
    temporary [cannyfs_closer] made for [push_back] closes 3 at once, and
    control then falls through to [cannyfs_add_write], which queues a task
    that closes 3 once more.  [flush] duplicates 3 into 4 and puts 4 into
    [closes]; the temporary closes 4 at once. *)
Theorem release_closes_reservoir_descriptor :
  let w0 := toy_world (default_options true) in
  let open := cannyfs_open "/a" toy_fi fresh w0 in
  let w1 := world_after w0 open in
  let release := cannyfs_release "/a" toy_fi fresh w1 in
  let w2 := world_after w1 release in
  let worker := run_task release_task fresh (set_workQueue [] w2) in
  let flush := cannyfs_flush "/a" toy_fi fresh w1 in
  (result_of open = Some (0, toy_fi) /\ fd_of 0 w1 = 3) /\
  (result_of release = Some 0 /\
   closes w2 = [3] /\
   events_of release = [ev_sys (sys_close 3) (ok 0 [])] /\
   workQueue w2 = [release_task] /\
   result_of worker = Some 0 /\
   events_of worker = [ev_writer "/a" LOCK_WHOLE 1;
                       ev_sys (sys_close 3) (ok 0 []);
                       ev_processed "/a"]) /\
  (result_of flush = Some 0 /\
   closes (world_after w1 flush) = [4] /\
   events_of flush = [ev_sys (sys_dup 3) (ok 4 []);
                      ev_sys (sys_close 4) (ok 0 [])]).
Proof. repeat split; vm_compute; reflexivity. Qed.


(** ** Quiet computations *)

Lemma quiet_seg_refl w : quiet_seg w w.
Proof.
  repeat split. exists []. split; [symmetry; apply app_nil_r | constructor].
Qed.

Lemma quiet_seg_trans w1 w2 w3 :
  quiet_seg w1 w2 -> quiet_seg w2 w3 -> quiet_seg w1 w3.
Proof.
  intros (Hp & Hf & Hr & ts & Hq & Hts) (Hp' & Hf' & Hr' & ts' & Hq' & Hts').
  repeat split; try congruence.
  exists (ts ++ ts'). split.
  - rewrite Hq', Hq, app_assoc. reflexivity.
  - apply Forall_app. auto.
Qed.

Lemma quiet_bind_seg i w1 w2 w3 :
  quiet_seg w1 w2 -> bind_seg i w2 w3 -> bind_seg i w1 w3.
Proof.
  intros (Hp & Hf & Hr & ts & Hq & Hts) (Hp' & Hr' & (ts' & Hq' & Hts') & Hb).
  split; [congruence | split; [congruence | split]].
  - exists (ts ++ ts'). split.
    + rewrite Hq', Hq, app_assoc. reflexivity.
    + apply Forall_app. auto.
  - rewrite <- Hf, <- Hp. exact Hb.
Qed.

Lemma bind_quiet_seg i w1 w2 w3 :
  bind_seg i w1 w2 -> quiet_seg w2 w3 -> bind_seg i w1 w3.
Proof.
  intros (Hp & Hr & (ts & Hq & Hts) & Hb) (Hp' & Hf' & Hr' & ts' & Hq' & Hts').
  split; [congruence | split; [congruence | split]].
  - exists (ts ++ ts'). split.
    + rewrite Hq', Hq, app_assoc. reflexivity.
    + apply Forall_app. auto.
  - rewrite Hf'. exact Hb.
Qed.

Lemma quiet_is_bind_seg i w w' : quiet_seg w w' -> bind_seg i w w'.
Proof. intros (Hp & Hf & Hr & Hq). repeat split; auto. Qed.

(** A quiet first stretch can be put in front of a run. *)
Lemma every_segment_prefix {A : Type} w0 w (o : outcome A) :
  quiet_seg w0 w -> every_segment quiet_seg w o -> every_segment quiet_seg w0 o.
Proof.
  intros H0. destruct o; simpl; try tauto.
  - eauto using quiet_seg_trans.
  - intros [H1 H2]. eauto using quiet_seg_trans.
Qed.

Lemma binder_out_prefix {A : Type} i w0 w (o : outcome A) :
  quiet_seg w0 w -> binder_out i w o -> binder_out i w0 o.
Proof.
  intros H0. destruct o; simpl; try tauto.
  - eauto using quiet_bind_seg.
  - intros [[H1 H2] | [H1 H2]]; [left | right];
      eauto using quiet_seg_trans, quiet_bind_seg.
Qed.

Lemma quiet_is_binder {A : Type} i (o : outcome A) :
  forall w, every_segment quiet_seg w o -> binder_out i w o.
Proof.
  induction o as [a l0 w0|g l0 w0 k IH|l0 w0|l0 w0|]; intros w; simpl; auto.
  - apply quiet_is_bind_seg.
  - intros [H1 H2]. left. auto.
Qed.

(** A run, once it has bound, goes on quietly. *)
Lemma binder_out_suffix {A : Type} i w0 w (o : outcome A) :
  bind_seg i w0 w -> every_segment quiet_seg w o -> binder_out i w0 o.
Proof.
  intros H0. destruct o; simpl; try tauto.
  - eauto using bind_quiet_seg.
  - intros [H1 H2]. right. eauto using bind_quiet_seg.
Qed.

Lemma every_segment_obind {A B : Type} (o : outcome A) (f : A -> M B) :
  (forall a, pres (f a)) ->
  forall w, every_segment quiet_seg w o ->
            every_segment quiet_seg w (obind o f).
Proof.
  intros Hf.
  induction o as [a l0 w0|g l0 w0 k IH|l0 w0|l0 w0|]; intros w; simpl; auto.
  - intros H. eapply every_segment_prefix; [exact H | apply Hf].
  - intros [H1 H2]. auto.
Qed.

Lemma pres_bind {A B : Type} (m : M A) (f : A -> M B) :
  pres m -> (forall a, pres (f a)) -> pres (bind m f).
Proof. intros Hm Hf l w. apply every_segment_obind; auto. Qed.

Lemma binder_out_obind_l {A B : Type} i (o : outcome A) (f : A -> M B) :
  (forall a, binds i (f a)) ->
  forall w, every_segment quiet_seg w o -> binder_out i w (obind o f).
Proof.
  intros Hf.
  induction o as [a l0 w0|g l0 w0 k IH|l0 w0|l0 w0|]; intros w; simpl; auto.
  - intros H. eapply binder_out_prefix; [exact H | apply Hf].
  - intros [H1 H2]. left. auto.
Qed.

Lemma binder_out_obind_r {A B : Type} i (o : outcome A) (f : A -> M B) :
  (forall a, pres (f a)) ->
  forall w, binder_out i w o -> binder_out i w (obind o f).
Proof.
  intros Hf.
  induction o as [a l0 w0|g l0 w0 k IH|l0 w0|l0 w0|]; intros w; simpl; auto.
  - intros H. eapply binder_out_suffix; [exact H | apply Hf].
  - intros [[H1 H2] | [H1 H2]]; [left | right]; split; auto.
    intros w1. apply every_segment_obind; auto.
Qed.

Lemma binds_bind_l {A B : Type} i (m : M A) (f : A -> M B) :
  pres m -> (forall a, binds i (f a)) -> binds i (bind m f).
Proof. intros Hm Hf l w. apply binder_out_obind_l; auto. Qed.

Lemma binds_bind_r {A B : Type} i (m : M A) (f : A -> M B) :
  binds i m -> (forall a, pres (f a)) -> binds i (bind m f).
Proof. intros Hm Hf l w. apply binder_out_obind_r; auto. Qed.

Lemma pres_binds {A : Type} i (m : M A) : pres m -> binds i m.
Proof. intros Hm l w. apply quiet_is_binder, Hm. Qed.

Lemma pres_ret {A : Type} (a : A) : pres (ret a).
Proof. intros l w. apply quiet_seg_refl. Qed.

Lemma pres_get {A : Type} (f : world -> A) : pres (get f).
Proof. intros l w. apply quiet_seg_refl. Qed.

Lemma pres_get_errno : pres get_errno.
Proof. intros l w. apply quiet_seg_refl. Qed.

Lemma pres_log e : pres (log e).
Proof. intros l w. apply quiet_seg_refl. Qed.

Lemma pres_abort {A : Type} : pres (@abort A).
Proof. intros l w. exact I. Qed.

Lemma pres_undefined {A : Type} : pres (@undefined A).
Proof. intros l w. exact I. Qed.

Lemma pres_modify (f : world -> world) :
  (forall w, quiet_seg w (f w)) -> pres (modify f).
Proof. intros Hf l w. apply Hf. Qed.

Lemma pres_await g : pres (await g).
Proof.
  intros l w. unfold await. destruct (guard_ok g w); simpl.
  - apply quiet_seg_refl.
  - split; [apply quiet_seg_refl | intros w1; apply quiet_seg_refl].
Qed.

Lemma pres_do_sys s : pres (do_sys s).
Proof.
  intros l w. unfold do_sys. simpl. repeat split.
  exists []. split; [symmetry; apply app_nil_r | constructor].
Qed.

(** A world that differs only in fields the handle table does not see. *)
Lemma quiet_seg_same w w' :
  posix w' = posix w -> fhs w' = fhs w -> freefhs w' = freefhs w ->
  workQueue w' = workQueue w -> quiet_seg w w'.
Proof.
  intros Hp Hf Hr Hq. repeat split; auto.
  exists []. split; [rewrite app_nil_r; exact Hq | constructor].
Qed.

Create HintDb pres.

Ltac pres_leaf :=
  first [ apply pres_ret | apply pres_get | apply pres_get_errno
        | apply pres_log | apply pres_abort | apply pres_undefined
        | apply pres_await | apply pres_do_sys
        | apply pres_modify; intro; apply quiet_seg_same; reflexivity ].

Ltac quieten :=
  repeat first
    [ assumption
    | pres_leaf
    | apply pres_bind; [| intros ?]
    | match goal with
      | |- pres (match ?x with _ => _ end) => destruct x
      | |- pres (if ?x then _ else _) => destruct x
      end ].

Lemma pres_lock_mutex p : pres (lock_mutex p).
Proof. unfold lock_mutex. quieten. Qed.

Lemma pres_lock_dtor lk : pres (lock_dtor lk).
Proof. unfold lock_dtor. quieten. Qed.

Lemma pres_lock_assign old p : pres (lock_assign old p).
Proof.
  unfold lock_assign.
  pose proof (pres_lock_mutex p). pose proof (pres_lock_dtor old). quieten.
Qed.

Lemma pres_lock_lock lk : pres (lock_lock lk).
Proof.
  unfold lock_lock. destruct (ul_mutex lk) as [p|]; [| quieten].
  pose proof (pres_lock_mutex p). quieten.
Qed.

Lemma pres_filemap_get path always lk : pres (filemap_get path always lk).
Proof.
  unfold filemap_get, map_lock_shared, map_unlock_shared, map_lock, map_unlock.
  apply pres_bind; [quieten | intros _].
  apply pres_bind; [quieten | intros found].
  apply pres_bind.
  - destruct found; [| quieten].
    pose proof (pres_lock_assign lk path). quieten.
  - intros r. apply pres_bind; [quieten | intros _].
    destruct r as [[p|] lk1]; [quieten |].
    destruct always; [| quieten].
    pose proof (pres_lock_assign lk1 path). quieten.
Qed.

Lemma pres_processed_wait p t : pres (processed_wait p t).
Proof. unfold processed_wait. quieten. Qed.

Lemma pres_cannyfs_reader path flag : pres (cannyfs_reader path flag).
Proof.
  unfold cannyfs_reader.
  apply pres_bind; [quieten | intros _].
  apply pres_bind; [apply pres_filemap_get | intros r].
  apply pres_bind.
  - destruct (fst r) as [p|]; [| quieten].
    apply pres_bind; [quieten | intros t]. apply pres_processed_wait.
  - intros _. pose proof (pres_lock_dtor (snd r)). quieten.
Qed.

Lemma pres_reader_dtor b : pres (reader_dtor b).
Proof. apply pres_lock_dtor. Qed.

Lemma pres_cannyfs_dirreader path flag : pres (cannyfs_dirreader path flag).
Proof.
  unfold cannyfs_dirreader.
  apply pres_bind; [quieten | intros r]. apply pres_cannyfs_reader.
Qed.

Lemma pres_cannyfs_writer fuel :
  forall path flag t, pres (cannyfs_writer fuel path flag t).
Proof.
  induction fuel as [|n IH]; intros path flag t.
  - intros l w. exact I.
  - simpl.
    apply pres_bind; [quieten | intros _].
    apply pres_bind; [quieten | intros _].
    apply pres_bind; [apply pres_filemap_get | intros r].
    apply pres_bind; [quieten | intros res].
    apply pres_bind; [| intros g; quieten].
    pose proof (IH "" JUST_BARRIER t). quieten.
Qed.

Lemma pres_writer_dtor : forall wr, pres (writer_dtor wr).
Proof.
  fix IH 1. intros [lk fileobj g t global]. simpl.
  apply pres_bind; [quieten | intros _].
  apply pres_bind.
  - pose proof (pres_lock_lock lk). quieten.
  - intros lk'. apply pres_bind; [quieten | intros _].
    apply pres_bind.
    + destruct g as [gw|]; [apply IH | quieten].
    + intros _. apply pres_lock_dtor.
Qed.

Lemma pres_neg_errno : pres neg_errno.
Proof. unfold neg_errno. quieten. Qed.

Lemma pres_zero_or_neg_errno r : pres (zero_or_neg_errno r).
Proof. unfold zero_or_neg_errno. pose proof pres_neg_errno. quieten. Qed.

Lemma pres_getfh i : pres (getfh i).
Proof. unfold getfh. quieten. Qed.

Lemma pres_getcfh fd : pres (getcfh fd).
Proof. unfold getcfh. quieten. Qed.

Lemma pres_getfh_fi fi : pres (getfh_fi fi).
Proof.
  unfold getfh_fi. apply pres_bind; [apply pres_getcfh | intros i].
  apply pres_getfh.
Qed.

Lemma pres_closer_dtor fd : pres (closer_dtor fd).
Proof. unfold closer_dtor, cannyfs_negerrorchecker, cannyfs_reporterror. quieten. Qed.

Lemma pres_destroy_closers l : pres (destroy_closers l).
Proof.
  induction l as [|fd rest IH]; simpl; [quieten |].
  pose proof (pres_closer_dtor fd). quieten.
Qed.

Lemma pres_closes_push_back fd : pres (closes_push_back fd).
Proof.
  unfold closes_push_back.
  apply pres_bind; [quieten | intros l].
  apply pres_bind; [quieten | intros c].
  pose proof (pres_closer_dtor fd). pose proof (pres_destroy_closers l).
  quieten.
Qed.

Lemma pres_dirp_at a : pres (dirp_at a).
Proof. unfold dirp_at. quieten. Qed.

Lemma pres_set_dirp a d : pres (set_dirp a d).
Proof. unfold set_dirp. quieten. Qed.

Lemma pres_free_dirp a : pres (free_dirp a).
Proof. unfold free_dirp. quieten. Qed.

Lemma pres_new_dirp : pres new_dirp.
Proof. unfold new_dirp. quieten. Qed.

Lemma pres_readdir_loop walk : forall a flags, pres (readdir_loop walk a flags).
Proof.
  induction walk as [|n IH]; intros a flags.
  - intros l w. exact I.
  - pose proof (pres_dirp_at a) as Hd.
    pose proof (pres_set_dirp a) as Hs.
    simpl.
    apply pres_bind; [apply Hd | intros d].
    apply pres_bind; [quieten |].
    intros [e|]; [| quieten].
    apply pres_bind; [quieten | intros have].
    apply pres_bind; [quieten | intros plus].
    apply pres_bind; [quieten | intros nextoff].
    apply pres_bind; [quieten | intros full].
    destruct (negb (sr_val full =? 0)); [quieten |].
    apply pres_bind; [apply Hs | intros _]. apply IH.
Qed.

(** ** Closures and callbacks *)

Lemma pres_run_path_fun f path : pres (run_path_fun f path).
Proof.
  destruct f; simpl;
    (apply pres_bind; [quieten | intros r; apply pres_zero_or_neg_errno]).
Qed.

Lemma pres_run_path2_fun f from to : pres (run_path2_fun f from to).
Proof.
  destruct f; simpl.
  apply pres_bind; [quieten | intros r; apply pres_zero_or_neg_errno].
Qed.

Lemma pres_run_fi_fun f path fi :
  closure_target (on_path_fi path fi f) = None -> pres (run_fi_fun f path fi).
Proof.
  pose proof (pres_getfh_fi fi) as Hg.
  destruct f; simpl; intros Ht; try discriminate.
  - apply pres_bind; [exact Hg | intros fd].
    apply pres_bind; [quieten | intros d].
    apply pres_bind; [quieten | intros r]. apply pres_zero_or_neg_errno.
  - quieten.
  - apply pres_bind; [quieten | intros have].
    apply pres_bind; [| intros r; apply pres_zero_or_neg_errno].
    quieten.
Qed.

(** The closure of [cannyfs_create] binds the handle [fi->fh] names, in one
    segment, to a value [open] gave. *)
Lemma binds_create_fun mode path fi :
  binds (handle_of fi) (run_fi_fun (create_fun mode) path fi).
Proof.
  intros l w. unfold run_fi_fun, bind at 1. simpl.
  set (r := posix w (syslog w) (sys_open path (fi_flags fi) (Some mode))).
  destruct (sr_val r =? -1) eqn:Hs.
  - unfold neg_errno, bind, get_errno. simpl.
    apply quiet_is_bind_seg, quiet_seg_same; reflexivity.
  - unfold bind at 1, getcfh, bind at 1, get at 1. simpl.
    destruct ((0 <=? to_int (fi_fh fi))
              && (to_int (fi_fh fi) <? Z.of_nat (length (fhs w)))); simpl;
      [| exact I].
    split; [reflexivity | split; [reflexivity | split]].
    + exists []. split; [symmetry; apply app_nil_r | constructor].
    + right. exists (sr_val r). apply Z.eqb_neq in Hs.
      split; [exact Hs | split; [| reflexivity]].
      intros Hw. destruct (Hw (syslog w) path (fi_flags fi) (Some mode)) as [H|H];
        [contradiction | exact H].
Qed.

Lemma pres_run_closure fn e :
  closure_target fn = None -> pres (run_closure fn e).
Proof.
  destruct fn as [path f|path fi f|path1 path2 f];
    cbn [run_closure]; intros Ht.
  - apply pres_bind; [apply pres_cannyfs_writer | intros wr].
    apply pres_bind; [apply pres_run_path_fun | intros r].
    apply pres_bind; [apply pres_writer_dtor | intros _]. quieten.
  - apply pres_bind; [apply pres_cannyfs_writer | intros wr].
    apply pres_bind; [apply pres_run_fi_fun; exact Ht | intros r].
    apply pres_bind; [apply pres_writer_dtor | intros _]. quieten.
  - apply pres_bind; [apply pres_cannyfs_writer | intros wr1].
    apply pres_bind; [apply pres_cannyfs_writer | intros wr2].
    apply pres_bind; [apply pres_run_path2_fun | intros r].
    apply pres_bind; [apply pres_writer_dtor | intros _].
    apply pres_bind; [apply pres_writer_dtor | intros _]. quieten.
Qed.

Lemma binds_run_closure fn e i :
  closure_target fn = Some i -> binds i (run_closure fn e).
Proof.
  destruct fn as [path f|path fi f|path1 path2 f];
    cbn [run_closure closure_target]; try discriminate.
  destruct f; try discriminate. intros Ht. injection Ht as <-.
  apply binds_bind_l; [apply pres_cannyfs_writer | intros wr].
  apply binds_bind_r; [apply binds_create_fun | intros r].
  apply pres_bind; [apply pres_writer_dtor | intros _]. quieten.
Qed.

(** What a closure does fits what its target says. *)
Lemma role_run_closure fn e l w :
  role_out (closure_target fn) w (run_closure fn e l w).
Proof.
  destruct (closure_target fn) as [i|] eqn:Ht; simpl.
  - apply binds_run_closure. exact Ht.
  - apply pres_run_closure. exact Ht.
Qed.

Lemma pres_cannyfs_add_write defer fn :
  closure_target fn = None -> pres (cannyfs_add_write defer fn).
Proof.
  intros Ht. unfold cannyfs_add_write.
  apply pres_bind; [quieten | intros now].
  apply pres_bind; [quieten | intros _].
  destruct (negb defer); [apply pres_run_closure; exact Ht |].
  apply pres_bind; [| intros _; quieten].
  apply pres_modify. intros w. repeat split.
  eexists. split; [reflexivity |]. repeat constructor. exact Ht.
Qed.

#[local] Hint Resolve pres_cannyfs_reader pres_cannyfs_dirreader
  pres_reader_dtor pres_zero_or_neg_errno pres_neg_errno pres_getfh_fi
  pres_closes_push_back pres_dirp_at pres_set_dirp pres_free_dirp
  pres_new_dirp pres_readdir_loop : pres.
#[local] Hint Extern 1 (pres (cannyfs_add_write _ _)) =>
  apply pres_cannyfs_add_write; reflexivity : pres.

Ltac quiet_callback :=
  repeat first
    [ solve [auto 1 with pres nocore]
    | pres_leaf
    | apply pres_bind; [| intros ?]
    | match goal with
      | |- pres (if ?x then _ else _) => destruct x
      end ].

(** Every callback but [create] and [open] is quiet. *)
Lemma pres_run_callback c : allocates c = false -> pres (run_callback c).
Proof.
  destruct c; simpl; intros Ha; try discriminate;
    unfold cannyfs_getattr, cannyfs_fgetattr, cannyfs_access,
      cannyfs_readlink, cannyfs_opendir, cannyfs_readdir, cannyfs_releasedir,
      cannyfs_mknod, cannyfs_mkdir, cannyfs_unlink, cannyfs_rmdir,
      cannyfs_symlink, cannyfs_rename, cannyfs_link, cannyfs_chmod,
      cannyfs_chown, cannyfs_truncate, cannyfs_ftruncate, cannyfs_read,
      cannyfs_read_buf, cannyfs_write, cannyfs_statfs, cannyfs_flush,
      cannyfs_release, cannyfs_fsync, cannyfs_flock,
      cannyfs_add_write_path, cannyfs_add_write_path2, cannyfs_add_write_fi;
    quiet_callback.
Qed.

(** ** [create] and [open] as binders of the handle they allocate *)

Lemma binds_open_body path fi :
  binds (handle_of fi)
    (r <- do_sys (sys_open path (fi_flags fi) None) ;;
     if sr_val r =? -1 then e <- neg_errno ;; ret (e, fi)
     else h <- getcfh (fi_fh fi) ;; setfh h (sr_val r) ;; ret (0, fi)).
Proof.
  intros l w. unfold bind at 1. simpl.
  set (r := posix w (syslog w) (sys_open path (fi_flags fi) None)).
  destruct (sr_val r =? -1) eqn:Hs.
  - unfold neg_errno, bind, get_errno. simpl.
    apply quiet_is_bind_seg, quiet_seg_same; reflexivity.
  - unfold bind at 1, getcfh, bind at 1, get at 1. simpl.
    destruct ((0 <=? to_int (fi_fh fi))
              && (to_int (fi_fh fi) <? Z.of_nat (length (fhs w)))); simpl;
      [| exact I].
    split; [reflexivity | split; [reflexivity | split]].
    + exists []. split; [symmetry; apply app_nil_r | constructor].
    + right. exists (sr_val r). apply Z.eqb_neq in Hs.
      split; [exact Hs | split; [| reflexivity]].
      intros Hw. destruct (Hw (syslog w) path (fi_flags fi) None) as [H|H];
        [contradiction | exact H].
Qed.

Lemma open_call path fi l w :
  freefhs w = [] ->
  binder_out
    (handle_of {| fi_flags := fi_flags fi; fi_fh := Z.of_nat (length (fhs w)) |})
    (grown w) (run_callback (cb_open path fi) l w).
Proof.
  intros Hfree. cbn [run_callback]. unfold bind at 1.
  apply binder_out_obind_r; [intros r; apply pres_ret |].
  unfold cannyfs_open, bind at 1. rewrite (getnewfh_grows l w Hfree).
  cbn [obind]. apply binds_open_body.
Qed.

Lemma create_call path mode fi l w :
  freefhs w = [] ->
  let fi' := {| fi_flags := fi_flags fi;
                fi_fh := Z.of_nat (length (fhs w)) |} in
  let o := run_callback (cb_create path mode fi) l w in
  binder_out (handle_of fi') (grown w) o \/
  exists t, task_target t = Some (handle_of fi') /\
            o = Ret 0 l (set_workQueue (workQueue w ++ [t])
                           (set_eventId (to_llong (eventId w + 1)) (grown w))).
Proof.
  intros Hfree fi' o.
  assert (Ho : o = obind
    (obind (cannyfs_add_write_fi (eagercreate (options w)) path fi'
              (create_fun mode) l (grown w))
           (fun res => ret (res, fi')))
    (fun r => ret (fst r))).
  { subst o. cbn [run_callback]. unfold bind at 1.
    unfold cannyfs_create, bind at 1. rewrite (getnewfh_grows l w Hfree).
    reflexivity. }
  rewrite Ho. clear Ho o.
  destruct (eagercreate (options w)) eqn:He.
  - right. eexists. split; [| reflexivity]. reflexivity.
  - left. apply binder_out_obind_r; [intros r; apply pres_ret |].
    apply binder_out_obind_r; [intros r; apply pres_ret |].
    unfold cannyfs_add_write_fi, cannyfs_add_write.
    apply binds_bind_l; [quieten | intros now].
    apply binds_bind_l; [quieten | intros _].
    cbn [negb]. apply binds_run_closure. reflexivity.
Qed.

(** ** Counting binders *)

Lemma occurrences_app i l1 l2 :
  occurrences i (l1 ++ l2) = (occurrences i l1 + occurrences i l2)%nat.
Proof.
  induction l1 as [|[j|] l1 IH]; simpl; rewrite ?IH; lia.
Qed.

Lemma occurrences_quiet i ts :
  Forall (fun t => task_target t = None) ts ->
  occurrences i (map task_target ts) = O.
Proof.
  induction 1 as [|t ts Ht _ IH]; simpl; [reflexivity |].
  rewrite Ht. exact IH.
Qed.

Lemma occurrences_delete i (l : list (option nat)) j x :
  l !! j = Some x ->
  occurrences i l = (occurrences i [x] + occurrences i (delete j l))%nat.
Proof.
  revert j. induction l as [|y l IH]; intros [|j] Hj; try discriminate.
  - injection Hj as ->. destruct x; simpl; lia.
  - simpl in Hj. specialize (IH j Hj).
    change (delete (S j) (y :: l)) with (y :: delete j l).
    destruct y, x; simpl in *; lia.
Qed.

Lemma map_delete {A B : Type} (f : A -> B) j (l : list A) :
  map f (delete j l) = delete j (map f l).
Proof.
  revert j. induction l as [|x l IH]; intros [|j]; simpl; try reflexivity.
  change (delete (S j) (x :: l)) with (x :: delete j l).
  change (delete (S j) (f x :: map f l)) with (f x :: delete j (map f l)).
  simpl. rewrite IH. reflexivity.
Qed.

Lemma occurrences_one i j :
  occurrences i [Some j] = (if Nat.eqb i j then 1 else 0)%nat.
Proof. simpl. lia. Qed.

(** ** Handles through a segment *)

Lemma fd_of_same w w' i : fhs w' = fhs w -> fd_of i w' = fd_of i w.
Proof. unfold fd_of. intros ->. reflexivity. Qed.

Lemma fd_of_alter_ne i j v w w' :
  fhs w' = alter (with_fd v) i (fhs w) -> i <> j -> fd_of j w' = fd_of j w.
Proof.
  intros Hf Hne. unfold fd_of. rewrite Hf.
  rewrite list_lookup_alter_ne by exact Hne. reflexivity.
Qed.

Lemma fd_of_alter_at i v w w' :
  fhs w' = alter (with_fd v) i (fhs w) ->
  fd_of i w' = v \/ fd_of i w' = -1.
Proof.
  intros Hf. unfold fd_of. rewrite Hf, list_lookup_alter_eq.
  destruct (fhs w !! i); simpl; auto.
Qed.

Lemma fd_of_grown_old w i :
  (i < length (fhs w))%nat -> fd_of i (grown w) = fd_of i w.
Proof.
  intros Hi. unfold fd_of, grown. simpl.
  rewrite lookup_app_l by exact Hi. reflexivity.
Qed.

Lemma fd_of_out_of_range w i :
  (length (fhs w) <= i)%nat -> fd_of i w = -1.
Proof.
  intros Hi. unfold fd_of. rewrite lookup_ge_None_2 by exact Hi. reflexivity.
Qed.

Lemma fd_of_bound_in_range w i : fd_of i w <> -1 -> (i < length (fhs w))%nat.
Proof.
  intros Hne. destruct (Nat.lt_ge_cases i (length (fhs w))) as [H|H];
    [exact H |].
  destruct Hne. apply fd_of_out_of_range. exact H.
Qed.

(** ** The invariant through one turn of a thread *)

Lemma binders_after_quiet wa w' roles role newroles :
  quiet_seg wa w' ->
  (forall j, (occurrences j newroles <= occurrences j [role])%nat) ->
  binders_ok wa (roles ++ [role]) -> binders_ok w' (roles ++ newroles).
Proof.
  intros (Hp & Hf & Hr & ts & Hq & Hts) Hnew Hok i.
  destruct (Hok i) as [Hle Hin]. specialize (Hnew i). cbv zeta.
  rewrite occurrences_app in Hle, Hin.
  rewrite Hq, map_app, !occurrences_app, (occurrences_quiet i ts Hts).
  split; [lia |]. intros H1.
  rewrite Hf, (fd_of_same wa w' i Hf). apply Hin. lia.
Qed.

Lemma binders_after_bind i wa w' roles newroles :
  bind_seg i wa w' ->
  (forall j, occurrences j newroles = O) ->
  binders_ok wa (roles ++ [Some i]) -> binders_ok w' (roles ++ newroles).
Proof.
  intros (Hp & Hr & (ts & Hq & Hts) & Hb) Hnew Hok j.
  destruct (Hok j) as [Hle Hin]. cbv zeta.
  rewrite occurrences_app, occurrences_one in Hle, Hin.
  rewrite Hq, map_app, !occurrences_app, (occurrences_quiet j ts Hts), Hnew.
  destruct (Nat.eq_dec j i) as [Heq|Hne].
  - rewrite (proj2 (Nat.eqb_eq j i) Heq) in Hle.
    split; [lia | intros; lia].
  - rewrite (proj2 (Nat.eqb_neq j i) Hne) in Hle, Hin.
    split; [lia |]. intros H1.
    destruct Hin as [Hrange Hfd]; [lia |].
    destruct Hb as [Hsame | (v & _ & _ & Halt)].
    + rewrite Hsame, (fd_of_same wa w' j Hsame). auto.
    + rewrite Halt, length_alter. split; [exact Hrange |].
      rewrite (fd_of_alter_ne i j v wa w' Halt) by congruence. exact Hfd.
Qed.

(** What a thread's turn leaves behind: the world it stopped in and, if it
    parked, one more thread, with the role it still has. *)
Lemma settle_summary role wa (o : outcome Z) ts s' :
  role_out role wa o ->
  settle o ts = Some s' ->
  exists newroles newthreads,
    parked s' = ts ++ newthreads /\
    Forall2 thread_ok newroles newthreads /\
    ((quiet_seg wa (sys_world s') /\
      forall j, (occurrences j newroles <= occurrences j [role])%nat) \/
     (exists i, role = Some i /\ bind_seg i wa (sys_world s') /\
                forall j, occurrences j newroles = O)).
Proof.
  intros Hrole Hs.
  destruct o as [a l w'|g l w' k|l w'|l w'|]; try discriminate;
    injection Hs as <-; simpl.
  - exists [], []. split; [symmetry; apply app_nil_r | split; [constructor |]].
    destruct role as [i|]; simpl in Hrole.
    + right. exists i. auto.
    + left. split; [exact Hrole | intros j; simpl; lia].
  - destruct role as [i|]; simpl in Hrole.
    + destruct Hrole as [[Hq Hk] | [Hb Hk]].
      * exists [Some i], [{| th_guard := g; th_resume := k |}].
        split; [reflexivity | split].
        -- repeat constructor. intros w1. apply Hk.
        -- left. split; [exact Hq | intros j; apply Nat.le_refl].
      * exists [None], [{| th_guard := g; th_resume := k |}].
        split; [reflexivity | split].
        -- repeat constructor. intros w1. apply Hk.
        -- right. exists i. auto.
    + destruct Hrole as [Hq Hk].
      exists [None], [{| th_guard := g; th_resume := k |}].
      split; [reflexivity | split].
      * repeat constructor. intros w1. apply Hk.
      * left. split; [exact Hq | intros j; simpl; lia].
Qed.

Lemma settle_good os role wa (o : outcome Z) ts roles s' :
  role_out role wa o ->
  settle o ts = Some s' ->
  Forall2 thread_ok roles ts ->
  posix wa = os ->
  freefhs wa = [] ->
  (opens_well os -> forall i, fd_of i wa = -1 \/ 0 <= fd_of i wa) ->
  (small wa -> binders_ok wa (roles ++ [role])) ->
  good os s' /\
  length (fhs (sys_world s')) = length (fhs wa) /\
  (small wa -> forall i, fd_of i wa <> -1 ->
                         fd_of i (sys_world s') = fd_of i wa).
Proof.
  intros Hrole Hs Hts Hp Hfree Hnn Hok.
  destruct (settle_summary role wa o ts s' Hrole Hs)
    as (newroles & newthreads & Hpk & Hnew & Hseg).
  destruct Hseg as [[Hq Hocc] | (i & -> & Hb & Hocc)].
  - pose proof Hq as (Hp' & Hf & Hr & _).
    split; [| split].
    + unfold good. cbv zeta.
      split; [congruence | split; [congruence | split]].
      * intros Hw j. rewrite (fd_of_same wa _ j Hf). auto.
      * exists (roles ++ newroles). split.
        -- rewrite Hpk. apply Forall2_app; assumption.
        -- intros Hsm. apply (binders_after_quiet wa _ roles role); auto.
           apply Hok. unfold small in *. rewrite <- Hf. exact Hsm.
    + rewrite Hf. reflexivity.
    + intros _ j _. apply fd_of_same. exact Hf.
  - pose proof Hb as (Hp' & Hr & _ & Hfh).
    assert (Hlen : length (fhs (sys_world s')) = length (fhs wa)).
    { destruct Hfh as [-> | (v & _ & _ & ->)];
        [reflexivity | apply length_alter]. }
    split; [| split].
    + unfold good. cbv zeta.
      split; [congruence | split; [congruence | split]].
      * intros Hw j.
        destruct Hfh as [Hsame | (v & _ & Hv & Halt)].
        -- rewrite (fd_of_same wa _ j Hsame). auto.
        -- destruct (Nat.eq_dec i j) as [<-|Hne].
           ++ destruct (fd_of_alter_at i v wa _ Halt) as [-> | ->]; [| auto].
              right. apply Hv. rewrite Hp. exact Hw.
           ++ rewrite (fd_of_alter_ne i j v wa _ Halt Hne). auto.
      * exists (roles ++ newroles). split.
        -- rewrite Hpk. apply Forall2_app; assumption.
        -- intros Hsm. apply (binders_after_bind i wa _ roles); auto.
           apply Hok. unfold small in *. rewrite <- Hlen. exact Hsm.
    + exact Hlen.
    + intros Hsm j Hj.
      destruct Hfh as [Hsame | (v & _ & _ & Halt)];
        [apply fd_of_same; exact Hsame |].
      apply (fd_of_alter_ne i j v wa _ Halt). intros <-.
      destruct (Hok Hsm i) as [_ Hin]. cbv zeta in Hin.
      rewrite occurrences_app, occurrences_one, Nat.eqb_refl in Hin.
      destruct Hin as [_ Hfd]; [lia | contradiction].
Qed.

(** ** The invariant through one action *)

Lemma binders_idle w roles :
  binders_ok w roles -> binders_ok w (roles ++ [None]).
Proof.
  intros Hok i. specialize (Hok i). cbv zeta in *.
  rewrite occurrences_app. simpl. rewrite Nat.add_0_r. exact Hok.
Qed.

Lemma small_grown w :
  small (grown w) -> small w /\ Z.of_nat (length (fhs w)) < 2147483648.
Proof.
  unfold small, grown. simpl. rewrite length_app. simpl. lia.
Qed.

(** A fresh handle comes with its binder. *)
Lemma binders_grown w roles :
  binders_ok w roles ->
  binders_ok (grown w) (roles ++ [Some (length (fhs w))]).
Proof.
  intros Hok i. destruct (Hok i) as [Hle Hin]. cbv zeta in *.
  change (workQueue (grown w)) with (workQueue w).
  rewrite occurrences_app, occurrences_one.
  assert (Hlen : length (fhs (grown w)) = S (length (fhs w))).
  { unfold grown. simpl. rewrite length_app. simpl. lia. }
  destruct (Nat.eq_dec i (length (fhs w))) as [Heq|Hne].
  - rewrite (proj2 (Nat.eqb_eq _ _) Heq).
    assert (Hz : (occurrences i (map task_target (workQueue w))
                  + occurrences i roles = 0)%nat).
    { destruct (Nat.eq_dec (occurrences i (map task_target (workQueue w))
                            + occurrences i roles)%nat 0%nat) as [H|H];
        [exact H |].
      destruct Hin as [Hr _]; lia. }
    split; [lia |]. intros _. rewrite Hlen. split; [lia |].
    rewrite Heq. apply fd_of_fresh_handle.
  - rewrite (proj2 (Nat.eqb_neq _ _) Hne).
    split; [lia |]. intros H1. destruct Hin as [Hr Hfd]; [lia |].
    rewrite Hlen. split; [lia |].
    rewrite fd_of_grown_old by exact Hr. exact Hfd.
Qed.

Lemma nonneg_grown os w :
  (opens_well os -> forall i, fd_of i w = -1 \/ 0 <= fd_of i w) ->
  opens_well os -> forall i, fd_of i (grown w) = -1 \/ 0 <= fd_of i (grown w).
Proof.
  intros Hnn Hw i.
  destruct (Nat.lt_ge_cases i (length (fhs w))) as [Hi|Hi].
  - rewrite fd_of_grown_old by exact Hi. auto.
  - left. unfold fd_of, grown. simpl.
    rewrite lookup_app_r by exact Hi.
    destruct (i - length (fhs w))%nat as [|n]; [reflexivity |].
    simpl. reflexivity.
Qed.

(** A turn that starts by growing the table and then binds, at most, the
    new handle. *)
Lemma settle_grown os w i (o : outcome Z) roles ts s' :
  binder_out i (grown w) o ->
  settle o ts = Some s' ->
  Forall2 thread_ok roles ts ->
  posix w = os -> freefhs w = [] ->
  (opens_well os -> forall j, fd_of j w = -1 \/ 0 <= fd_of j w) ->
  (small w -> binders_ok w roles) ->
  (Z.of_nat (length (fhs w)) < 2147483648 -> i = length (fhs w)) ->
  good os s' /\
  (length (fhs w) <= length (fhs (sys_world s')))%nat /\
  (small (sys_world s') -> forall j, fd_of j w <> -1 ->
                                     fd_of j (sys_world s') = fd_of j w).
Proof.
  intros Hb Hs Hts Hp Hfree Hnn Hok Hi.
  destruct (settle_good os (Some i) (grown w) o ts roles s')
    as (Hgood & Hlen & Hfd); auto.
  - apply nonneg_grown. exact Hnn.
  - intros Hsm. destruct (small_grown w Hsm) as [Hsw Hlt].
    rewrite (Hi Hlt). apply binders_grown. auto.
  - assert (Hlen' : length (fhs (grown w)) = S (length (fhs w))).
    { unfold grown. simpl. rewrite length_app. simpl. lia. }
    split; [exact Hgood | split; [lia |]].
    intros Hsm j Hj.
    assert (Hsg : small (grown w)).
    { unfold small in *. rewrite <- Hlen. exact Hsm. }
    pose proof (fd_of_bound_in_range w j Hj) as Hr.
    rewrite <- (fd_of_grown_old w j Hr). apply Hfd; [exact Hsg |].
    rewrite fd_of_grown_old by exact Hr. exact Hj.
Qed.

Lemma good_step os a s s' :
  good os s ->
  do_action a s = Some s' ->
  good os s' /\
  (length (fhs (sys_world s)) <= length (fhs (sys_world s')))%nat /\
  (small (sys_world s') ->
   forall i, fd_of i (sys_world s) <> -1 ->
             fd_of i (sys_world s') = fd_of i (sys_world s)).
Proof.
  intros (Hp & Hfree & Hnn & roles & Hts & Hok) Ha.
  set (w := sys_world s) in *.
  destruct a as [c|j|j]; cbn [do_action] in Ha; fold w in Ha.
  - destruct (allocates c) eqn:Hal.
    + destruct c; try discriminate.
      * (* create *)
        destruct (create_call path mode fi fresh w Hfree) as [Hb | (t & Ht & Ho)].
        -- apply (settle_grown os w _ _ roles (parked s) s' Hb); auto.
           intros Hlt. apply handle_of_nat. exact Hlt.
        -- cbv zeta in Ho. rewrite Ho in Ha. injection Ha as <-. simpl.
           assert (Hlen : length (fhs (grown w)) = S (length (fhs w))).
           { unfold grown. simpl. rewrite length_app. simpl. lia. }
           split; [| split].
           ++ unfold good. cbv zeta. simpl.
              split; [exact Hp | split; [exact Hfree | split]].
              ** intros Hw i. apply (nonneg_grown os w Hnn Hw i).
              ** exists roles. split; [exact Hts |].
                 intros Hsm. destruct (small_grown w Hsm) as [Hsw Hlt].
                 pose proof (binders_grown w roles (Hok Hsw)) as Hg.
                 intros i. destruct (Hg i) as [Hle Hin]. cbv zeta in *.
                 simpl. rewrite map_app, occurrences_app. simpl.
                 rewrite Ht, (handle_of_nat _ _ Hlt).
                 change (workQueue (grown w)) with (workQueue w) in Hle, Hin.
                 rewrite occurrences_app in Hle, Hin. simpl in Hle, Hin.
                 split; [lia |]. intros H1. apply Hin. lia.
           ++ change (length (fhs w) <= length (fhs (grown w)))%nat. lia.
           ++ intros _ i Hi.
              change (fd_of i (grown w) = fd_of i w).
              apply fd_of_grown_old, fd_of_bound_in_range. exact Hi.
      * (* open *)
        apply (settle_grown os w _ _ roles (parked s) s'
                 (open_call path fi fresh w Hfree)); auto.
        intros Hlt. apply handle_of_nat. exact Hlt.
    + destruct (settle_good os None w (run_callback c fresh w) (parked s)
                  roles s') as (Hgood & Hlen & Hfd); auto.
      * apply pres_run_callback. exact Hal.
      * intros Hsm. apply binders_idle. auto.
      * split; [exact Hgood | split; [lia |]].
        intros Hsm i Hi. apply Hfd; [| exact Hi].
        unfold small in *. rewrite <- Hlen. exact Hsm.
  - destruct (workQueue w !! j) as [t|] eqn:Ht; [| discriminate].
    set (wa := set_workQueue (delete j (workQueue w)) w) in *.
    destruct (settle_good os (task_target t) wa (run_task t fresh wa)
                (parked s) roles s') as (Hgood & Hlen & Hfd); auto.
    + apply role_run_closure.
    + intros Hsm i. destruct (Hok Hsm i) as [Hle Hin]. cbv zeta in *.
      change (workQueue wa) with (delete j (workQueue w)).
      change (fhs wa) with (fhs w). change (fd_of i wa) with (fd_of i w).
      assert (Hcount : (occurrences i (map task_target (workQueue w))
                = occurrences i [task_target t]
                  + occurrences i (map task_target (delete j (workQueue w))))%nat).
      { rewrite map_delete. apply occurrences_delete.
        rewrite list_lookup_fmap, Ht. reflexivity. }
      rewrite occurrences_app. split; [lia |]. intros H1. apply Hin. lia.
    + split; [exact Hgood | split; [change (fhs w) with (fhs wa); lia |]].
      intros Hsm i Hi. change (fd_of i w) with (fd_of i wa).
      apply Hfd; [| exact Hi].
      unfold small in *. rewrite <- Hlen. exact Hsm.
  - destruct (parked s !! j) as [th|] eqn:Hth; [| discriminate].
    destruct (guard_ok (th_guard th) w); [| discriminate].
    destruct (Forall2_lookup_r _ _ _ _ _ Hts Hth) as (role & Hrole & Hthok).
    destruct (settle_good os role w (th_resume th w) (delete j (parked s))
                (delete j roles) s') as (Hgood & Hlen & Hfd); auto.
    + apply Forall2_delete. exact Hts.
    + intros Hsm i. destruct (Hok Hsm i) as [Hle Hin]. cbv zeta in *.
      pose proof (occurrences_delete i roles j role Hrole) as Hcount.
      rewrite occurrences_app. split; [lia |]. intros H1. apply Hin. lia.
    + split; [exact Hgood | split; [lia |]].
      intros Hsm i Hi. apply Hfd; [| exact Hi].
      unfold small in *. rewrite <- Hlen. exact Hsm.
Qed.

(** ** The descriptor of a handle *)

Lemma good_boot o b os : good os (boot o b os).
Proof.
  unfold good, boot. simpl. split; [reflexivity | split; [reflexivity | split]].
  - intros _ i. left. apply fd_of_out_of_range. simpl. lia.
  - exists []. split; [constructor |].
    intros _ i. cbv zeta. simpl. split; [lia | intros; lia].
Qed.

Lemma good_reachable os s s' :
  good os s -> reachable s s' ->
  good os s' /\
  (length (fhs (sys_world s)) <= length (fhs (sys_world s')))%nat /\
  (small (sys_world s') ->
   forall i, fd_of i (sys_world s) <> -1 ->
             fd_of i (sys_world s') = fd_of i (sys_world s)).
Proof.
  intros Hg Hr. induction Hr as [|s1 s2 Hr IH [a Ha]].
  - split; [exact Hg | split; [lia | reflexivity]].
  - destruct IH as (Hg1 & Hlen1 & Hfd1).
    destruct (good_step os a s1 s2 Hg1 Ha) as (Hg2 & Hlen2 & Hfd2).
    split; [exact Hg2 | split; [lia |]].
    intros Hsm i Hi.
    assert (Hsm1 : small (sys_world s1)) by (unfold small in *; lia).
    rewrite <- (Hfd1 Hsm1 i Hi). apply Hfd2; [exact Hsm |].
    rewrite (Hfd1 Hsm1 i Hi). exact Hi.
Qed.

Lemma getfh_bound i l w :
  fd_of i w <> -1 -> getfh i l w = Ret (fd_of i w) l w.
Proof.
  intros Hne. unfold getfh, bind, await, get. simpl.
  apply Z.eqb_neq in Hne. rewrite Hne. reflexivity.
Qed.

Lemma getfh_unbound i l w :
  fd_of i w = -1 -> exists k, getfh i l w = Blocked (on_opened i) l w k.
Proof.
  intros He. unfold getfh, bind, await, get. simpl.
  rewrite He. simpl. eauto.
Qed.

(** C6.  In every state [s] the system reaches from start-up:
    - H1: a handle whose descriptor is bound (is not -1) keeps that
      descriptor in every state [s'] the system reaches from [s], and
      [getfh] on it returns that descriptor at once there;
    - the bound descriptors are non-negative, when [open] gives -1 or a
      descriptor;
    - H2: [getfh] on an unbound handle parks the thread on [opened]; when
      it comes back, in the world it woke in, it comes back with the
      descriptor bound there, which is not -1.
    The handle table is taken to have at most 2^31 slots, so that every
    id fits the [int] parameter of [getcfh]. *)
Theorem descriptor_bound_once o b os s :
  reachable (boot o b os) s ->
  (forall s', reachable s s' -> small (sys_world s') ->
     forall i, fd_of i (sys_world s) <> -1 ->
       fd_of i (sys_world s') = fd_of i (sys_world s) /\
       forall l, getfh i l (sys_world s')
                 = Ret (fd_of i (sys_world s)) l (sys_world s')) /\
  (opens_well os ->
     forall i, fd_of i (sys_world s) = -1 \/ 0 <= fd_of i (sys_world s)) /\
  (forall i l,
     (fd_of i (sys_world s) = -1 ->
        exists k, getfh i l (sys_world s)
                  = Blocked (on_opened i) l (sys_world s) k) /\
     (forall fd l' w',
        returns (getfh i l (sys_world s)) fd l' w' ->
        fd = fd_of i w' /\ fd <> -1)).
Proof.
  intros Hr.
  destruct (good_reachable os _ _ (good_boot o b os) Hr) as (Hg & _ & _).
  split; [| split].
  - intros s' Hr' Hsm i Hi.
    destruct (good_reachable os _ _ Hg Hr') as (_ & _ & Hfd).
    pose proof (Hfd Hsm i Hi) as He.
    split; [exact He |]. intros l. rewrite <- He.
    apply getfh_bound. rewrite He. exact Hi.
  - destruct Hg as (_ & _ & Hnn & _). exact Hnn.
  - intros i l. split.
    + apply getfh_unbound.
    + intros fd l' w' Hret. apply returns_getfh in Hret. tauto.
Qed.

Lemma reachable_trans s1 s2 s3 :
  reachable s1 s2 -> reachable s2 s3 -> reachable s1 s3.
Proof.
  intros H12 H23. induction H23 as [|s s' _ IH Hstep]; [exact H12 |].
  eapply reach_step; eauto.
Qed.

Lemma reachable_run l : forall s s',
  run_actions l s = Some s' -> reachable s s'.
Proof.
  induction l as [|a l IH]; intros s s' Hrun; simpl in Hrun.
  - injection Hrun as <-. apply reach_start.
  - destruct (do_action a s) as [s1|] eqn:Ha; [| discriminate].
    eapply reachable_trans; [| apply IH; exact Hrun].
    eapply reach_step; [apply reach_start | exists a; exact Ha].
Qed.

Lemma reachable_after_run l s :
  is_Some (run_actions l s) -> reachable s (after l s).
Proof.
  intros [s' Hs]. unfold after. rewrite Hs. apply (reachable_run l). exact Hs.
Qed.

Lemma descriptor_bound_once_witness :
  fd_of 0 (sys_world toy_opened) = 3 /\
  fd_of 0 (sys_world toy_later) = fd_of 0 (sys_world toy_opened) /\
  fd_of 1 (sys_world toy_later) = 4.
Proof.
  assert (H1 : reachable toy_boot toy_opened).
  { apply (reachable_after_run [call (cb_open "/a" toy_fi)] toy_boot).
    assert (H : option_map (fun _ => tt)
                  (run_actions [call (cb_open "/a" toy_fi)] toy_boot)
                = Some tt) by (vm_compute; reflexivity).
    destruct (run_actions _ toy_boot); [eauto | discriminate]. }
  assert (H2 : reachable toy_opened toy_later).
  { apply (reachable_after_run
             [call (cb_chmod "/a" 384); work 0%nat; call (cb_open "/a" toy_fi)]
             toy_opened).
    assert (H : option_map (fun _ => tt)
                  (run_actions [call (cb_chmod "/a" 384); work 0%nat;
                                call (cb_open "/a" toy_fi)] toy_opened)
                = Some tt) by (vm_compute; reflexivity).
    destruct (run_actions _ toy_opened); [eauto | discriminate]. }
  split; [vm_compute; reflexivity | split; [| vm_compute; reflexivity]].
  refine (proj1 (proj1 (descriptor_bound_once (default_options true) toy_build
                          (toy_os toy_files) toy_opened H1)
                   toy_later H2 _ 0%nat _)).
  - vm_compute. discriminate.
  - vm_compute. discriminate.
Defined.


(** ** The handle table *)

Lemma to_int_periodic x k : to_int (x + k * 4294967296) = to_int x.
Proof.
  unfold to_int, wrap. change (2 ^ 32) with 4294967296.
  replace (x + k * 4294967296 + 2 ^ (32 - 1))
    with (x + 2 ^ (32 - 1) + k * 4294967296) by ring.
  rewrite Z.mod_add by discriminate. reflexivity.
Qed.

(** X3.  A handle from allocation to use.  With the free list empty,
    [getnewfh] appends a handle and gives its index; [getfh] on it parks
    the thread, for the handle is unbound.  After [setfh(fd)] with a
    descriptor, [getfh] gives [fd] at once and every other handle reads as
    before; after [setfh(-1)] a reader still parks: -1 is the mark of an
    unbound handle. *)
Theorem handle_round_trip fd l w :
  freefhs w = [] ->
  let i := length (fhs w) in
  let bound := set_fhs (alter (with_fd fd) i (fhs (grown w))) (grown w) in
  getnewfh l w = Ret i l (grown w) /\
  (exists k, getfh i l (grown w) = Blocked (on_opened i) l (grown w) k) /\
  (fd <> -1 ->
     (setfh i fd ;; getfh i) l (grown w) = Ret fd (emit (ev_opened i) l) bound) /\
  (fd = -1 ->
     exists k, (setfh i fd ;; getfh i) l (grown w)
               = Blocked (on_opened i) (emit (ev_opened i) l) bound k) /\
  (forall j, j <> i -> fd_of j bound = fd_of j w).
Proof.
  intros Hfree i bound.
  assert (Hi : fd_of i bound = fd).
  { apply fd_of_alter_eq. unfold grown. simpl. rewrite length_app. simpl.
    unfold i. lia. }
  split; [apply getnewfh_grows; exact Hfree | split; [| split; [| split]]].
  - apply getfh_unbound. apply fd_of_fresh_handle.
  - intros Hfd.
    change ((setfh i fd ;; getfh i) l (grown w))
      with (getfh i (emit (ev_opened i) l) bound).
    rewrite getfh_bound by (rewrite Hi; exact Hfd).
    rewrite Hi. reflexivity.
  - intros Hfd.
    change ((setfh i fd ;; getfh i) l (grown w))
      with (getfh i (emit (ev_opened i) l) bound).
    destruct (getfh_unbound i (emit (ev_opened i) l) bound) as (k & Hk).
    + rewrite Hi. exact Hfd.
    + rewrite Hk. eauto.
  - intros j Hj.
    rewrite (fd_of_alter_ne i j fd (grown w) bound) by (reflexivity || auto).
    destruct (Nat.lt_ge_cases j (length (fhs w))) as [Hlt|Hge].
    + apply fd_of_grown_old. exact Hlt.
    + rewrite (fd_of_out_of_range w j) by exact Hge.
      apply fd_of_out_of_range. unfold grown. simpl. rewrite length_app.
      simpl. unfold i in Hj. lia.
Qed.

(** X4.  [getcfh(int fd)] indexes the table with an [int] and checks
    nothing.  Ids that differ by a multiple of 2^32 name the same handle; an
    id inside the table that fits an [int] names its own handle; an id at or
    past the end of the table is undefined behaviour. *)
Theorem getcfh_int_index fd l w :
  (forall k, getcfh (fd + k * 4294967296) l w = getcfh fd l w) /\
  (0 <= fd < Z.of_nat (length (fhs w)) -> fd < 2147483648 ->
     getcfh fd l w = Ret (Z.to_nat fd) l w) /\
  (Z.of_nat (length (fhs w)) <= fd < 2147483648 ->
     getcfh fd l w = Undefined l w).
Proof.
  split; [| split].
  - intros k. unfold getcfh, bind, get. simpl.
    rewrite to_int_periodic. reflexivity.
  - apply getcfh_in_range.
  - intros Hr. unfold getcfh, bind, get. simpl.
    rewrite to_int_small by lia.
    destruct (Z.ltb_spec fd (Z.of_nat (length (fhs w)))); [lia |].
    rewrite andb_false_r. reflexivity.
Qed.

(** * Further properties of the code *)

(** ** Deferred writes *)

Lemma run_closure_on_path e p f :
  run_closure (on_path p f) e
  = (wr <- cannyfs_writer writer_fuel p LOCK_WHOLE e ;;
     r <- run_path_fun f p ;;
     writer_dtor wr ;;
     ret r).
Proof. reflexivity. Qed.

Lemma mutex_free_after_dtor path (b : bool) e w :
  is_Some (filemap w !! path) ->
  mutex_free path
    (set_locked path false (if b then w else erase_event e w)) = true.
Proof.
  intros Hs. apply (mutex_free_set_locked path false).
  destruct b; exact Hs.
Qed.

(** X5.  [cannyfs_chmod], [cannyfs_chown] and [cannyfs_link] with their
    eager option set return 0 at once, whatever the path and whatever the
    state (a path that does not exist, a mutex that is held): the thread
    makes no system call; all that changes is that the next ticket is taken
    and one task is queued under it.  With the option unset the callback
    runs the same closure itself, under the next ticket converted to
    [int]. *)
Theorem eager_calls_return_at_once l w :
  let t := to_llong (eventId w + 1) in
  (forall path mode,
     (eagerchmod (options w) = true ->
        cannyfs_chmod path mode l w
        = Ret 0 l (enqueued (on_path path (chmod_fun mode)) w)) /\
     (eagerchmod (options w) = false ->
        cannyfs_chmod path mode l w
        = run_closure (on_path path (chmod_fun mode)) (to_int t) l
            (set_eventId t w))) /\
  (forall path uid gid,
     (eagerchown (options w) = true ->
        cannyfs_chown path uid gid l w
        = Ret 0 l (enqueued (on_path path (chown_fun uid gid)) w)) /\
     (eagerchown (options w) = false ->
        cannyfs_chown path uid gid l w
        = run_closure (on_path path (chown_fun uid gid)) (to_int t) l
            (set_eventId t w))) /\
  (forall from to,
     (eagerlink (options w) = true ->
        cannyfs_link from to l w
        = Ret 0 l (enqueued (on_path2 from to link_fun) w)) /\
     (eagerlink (options w) = false ->
        cannyfs_link from to l w
        = run_closure (on_path2 from to link_fun) (to_int t) l
            (set_eventId t w))) /\
  (forall fn,
     syslog (enqueued fn w) = syslog w /\
     filemap (enqueued fn w) = filemap w /\
     waitingEvents (enqueued fn w) = waitingEvents w).
Proof.
  intros t.
  split; [| split; [| split]].
  - intros path mode. split; intros He;
      unfold cannyfs_chmod, cannyfs_add_write_path, cannyfs_add_write,
        bind at 1 2 3, get at 1 2, modify at 1;
      cbn beta iota; rewrite He; reflexivity.
  - intros path uid gid. split; intros He;
      unfold cannyfs_chown, cannyfs_add_write_path, cannyfs_add_write,
        bind at 1 2 3, get at 1 2, modify at 1;
      cbn beta iota; rewrite He; reflexivity.
  - intros from to. split; intros He;
      unfold cannyfs_link, cannyfs_add_write_path2, cannyfs_add_write,
        bind at 1 2 3, get at 1 2, modify at 1;
      cbn beta iota; rewrite He; reflexivity.
  - intros fn. repeat split.
Qed.

(** X7.  [cannyfs_mknod], [cannyfs_mkdir], [cannyfs_unlink],
    [cannyfs_rmdir], [cannyfs_symlink] and [cannyfs_truncate] construct no
    barrier.  In every state, also with operations on the same path queued
    or running, they return at once after exactly one system call, with 0,
    or [-errno] when the call returned -1; of the shared state only the log
    of system calls has changed.  [cannyfs_mknod] calls [mkfifo] for a FIFO
    mode and [mknod] otherwise. *)
Theorem direct_callbacks_never_wait c s l w :
  direct_call c = Some s ->
  let sr := posix w (syslog w) s in
  exists l',
    run_callback c l w
    = Ret (if sr_val sr =? -1 then - sr_errno sr else 0) l'
        (set_syslog (syslog w ++ [(s, sr)]) w) /\
    own l' = own l ++ [ev_sys s sr].
Proof.
  intros Hc sr.
  assert (Hgen : forall s0, s0 = s ->
            (forall v, sys_failed s0 v = (v =? -1)) ->
            exists l',
              (r <- do_sys s0 ;; zero_or_neg_errno r) l w
              = Ret (if sr_val sr =? -1 then - sr_errno sr else 0) l'
                  (set_syslog (syslog w ++ [(s, sr)]) w) /\
              own l' = own l ++ [ev_sys s sr]).
  { intros s0 -> Hfail. unfold bind, do_sys, zero_or_neg_errno, neg_errno,
      get_errno. simpl. fold sr. rewrite Hfail.
    destruct (sr_val sr =? -1); simpl; eexists; split; reflexivity. }
  destruct c; simpl in Hc; try discriminate; injection Hc as Hc;
    simpl.
  - unfold cannyfs_mknod.
    destruct (S_ISFIFO mode); apply Hgen; auto.
  - apply Hgen; auto.
  - apply Hgen; auto.
  - apply Hgen; auto.
  - apply Hgen; auto.
  - apply Hgen; auto.
Qed.



(** ** The reservoir of late closes *)

Lemma reports_app es1 es2 :
  reports (es1 ++ es2) = (reports es1 + reports es2)%nat.
Proof.
  induction es1 as [|e es1 IH]; [reflexivity |].
  destruct e; simpl; rewrite IH; reflexivity.
Qed.

Lemma failures_app h1 h2 :
  failures (h1 ++ h2) = (failures h1 + failures h2)%nat.
Proof.
  induction h1 as [|[s r] h1 IH]; [reflexivity |].
  simpl. rewrite IH. destruct (sr_val r <? 0); reflexivity.
Qed.

Lemma closer_dtor_runs fd l w :
  let sr := posix w (syslog w) (sys_close fd) in
  exists l',
    closer_dtor fd l w
    = Ret tt l' (set_syslog (syslog w ++ [(sys_close fd, sr)]) w) /\
    reports (own l') = (reports (own l) + failures [(sys_close fd, sr)])%nat.
Proof.
  intros sr. unfold closer_dtor, bind, do_sys, cannyfs_negerrorchecker,
    cannyfs_reporterror, bind, get_errno, log. simpl. fold sr.
  destruct (sr_val sr <? 0); destruct (sr_val sr =? -1); simpl;
    eexists; (split; [reflexivity |]);
    simpl; rewrite !reports_app; simpl; lia.
Qed.

Lemma destroy_closers_runs fds : forall l w,
  exists l' h,
    destroy_closers fds l w = Ret tt l' (set_syslog (syslog w ++ h) w) /\
    calls_of h = map sys_close fds.
Proof.
  induction fds as [|fd rest IH]; intros l w.
  - exists l, []. simpl. rewrite app_nil_r.
    split; [destruct w; reflexivity | reflexivity].
  - destruct (closer_dtor_runs fd l w) as (l1 & H1 & _).
    set (sr := posix w (syslog w) (sys_close fd)) in *.
    destruct (IH l1 (set_syslog (syslog w ++ [(sys_close fd, sr)]) w))
      as (l2 & h & H2 & Hc).
    exists l2, ((sys_close fd, sr) :: h). split.
    + simpl. unfold bind. rewrite H1. simpl. rewrite H2.
      simpl. rewrite <- app_assoc. reflexivity.
    + simpl. rewrite Hc. reflexivity.
Qed.

(** X12.  Destroying stored [cannyfs_closer]s (when the vector moves to
    larger storage, and when it is destroyed) calls [close] once for each
    descriptor stored and makes no other call; every [close] that gives a
    negative value puts one line on [stderr]; the process is never aborted
    for it, and nothing of the shared state but the log of system calls
    changes. *)
Theorem destroy_closers_closes_each fds l w :
  exists l' h,
    destroy_closers fds l w = Ret tt l' (set_syslog (syslog w ++ h) w) /\
    calls_of h = map sys_close fds /\
    reports (own l') = (reports (own l) + failures h)%nat.
Proof.
  revert l w. induction fds as [|fd rest IH]; intros l w.
  - exists l, []. simpl. rewrite app_nil_r.
    split; [destruct w; reflexivity | split; [reflexivity | lia]].
  - destruct (closer_dtor_runs fd l w) as (l1 & H1 & R1).
    set (sr := posix w (syslog w) (sys_close fd)) in *.
    destruct (IH l1 (set_syslog (syslog w ++ [(sys_close fd, sr)]) w))
      as (l2 & h & H2 & Hc & R2).
    exists l2, ((sys_close fd, sr) :: h).
    split; [| split].
    + simpl. unfold bind. rewrite H1. simpl. rewrite H2.
      simpl. rewrite <- app_assoc. reflexivity.
    + simpl. rewrite Hc. reflexivity.
    + rewrite R2, R1.
      change ((sys_close fd, sr) :: h) with ([(sys_close fd, sr)] ++ h).
      rewrite failures_app. lia.
Qed.

(** X13.  [closes.push_back(fd)] stores [fd] at the end of the reservoir
    and, before it returns, has called [close(fd)]: the temporary
    [cannyfs_closer] made from the [int] is destroyed at the end of the
    statement.  When the vector was full, the descriptors stored before are
    closed too, as their storage is given up.  Nothing waits and nothing
    else of the shared state changes. *)
Theorem push_back_closes_at_once fd l w :
  let full := (length (closes w) =? closes_capacity w)%nat in
  exists l' h,
    closes_push_back fd l w
    = Ret tt l'
        (set_syslog (syslog w ++ h)
           (set_closes (closes w ++ [fd])
              (if full then vector_grow (build w) (closes_capacity w)
               else closes_capacity w) w)) /\
    calls_of h = (if full then map sys_close (closes w) else [])
                 ++ [sys_close fd].
Proof.
  intros full. unfold closes_push_back, bind at 1 2 3, get at 1 2. simpl.
  fold full. destruct full.
  - unfold bind at 1 2, get at 1, modify at 1. cbn [obind].
    set (w1 := set_closes (closes w ++ [fd])
                 (vector_grow (build w) (closes_capacity w)) w).
    destruct (destroy_closers_runs (closes w) l w1) as (l1 & h1 & H1 & C1).
    rewrite H1. cbn [obind].
    destruct (closer_dtor_runs fd l1 (set_syslog (syslog w1 ++ h1) w1))
      as (l2 & H2 & _).
    rewrite H2. simpl. eexists l2, (h1 ++ [_]).
    split.
    + rewrite <- app_assoc. reflexivity.
    + unfold calls_of in *. rewrite map_app, C1. reflexivity.
  - unfold modify at 1. cbn [obind].
    set (w1 := set_closes (closes w ++ [fd]) (closes_capacity w) w).
    destruct (closer_dtor_runs fd l w1) as (l2 & H2 & _).
    rewrite H2. eexists l2, [_]. split; reflexivity.
Qed.

(** ** A writer that does not lock the whole operation *)

(** X15.  A writer constructed with [JUST_BARRIER] gives up its lock with
    [unique_lock::release], which forgets the mutex without unlocking it:
    when the constructor is back the mutex of the path is still held, and
    the writer's destructor, calling [lock()] on a lock that has no mutex,
    ends the process. *)
Theorem just_barrier_writer_aborts path t l w wr l' w' :
  returns (cannyfs_writer writer_fuel path JUST_BARRIER t l w) wr l' w' ->
  lock_of wr = no_lock /\
  mutex_held path w' /\
  exists w'', writer_dtor wr l' w' = Aborted l' w''.
Proof.
  intros Hr. unfold writer_fuel in Hr. apply returns_cannyfs_writer in Hr.
  destruct Hr as (_ & -> & -> & _ & Hh).
  change (JUST_BARRIER =? LOCK_WHOLE) with false. cbv iota.
  split; [reflexivity | split].
  - exact Hh.
  - rewrite writer_dtor_released. eauto.
Qed.

(** ** Callbacks that use a handle without a barrier *)

Lemma getfh_fi_bound fi l w :
  0 <= to_int (fi_fh fi) < Z.of_nat (length (fhs w)) ->
  fd_of (handle_of fi) w <> -1 ->
  getfh_fi fi l w = Ret (fd_of (handle_of fi) w) l w.
Proof.
  intros Hr Hb. unfold getfh_fi, getcfh, bind at 1 2, get at 1. simpl.
  destruct (Z.leb_spec 0 (to_int (fi_fh fi))); [| lia].
  destruct (Z.ltb_spec (to_int (fi_fh fi)) (Z.of_nat (length (fhs w)))); [| lia].
  simpl. apply getfh_bound. exact Hb.
Qed.

Lemma getfh_fi_unbound fi l w :
  0 <= to_int (fi_fh fi) < Z.of_nat (length (fhs w)) ->
  fd_of (handle_of fi) w = -1 ->
  exists k, getfh_fi fi l w = Blocked (on_opened (handle_of fi)) l w k.
Proof.
  intros Hr Hb. unfold getfh_fi, getcfh, bind at 1 2, get at 1. simpl.
  destruct (Z.leb_spec 0 (to_int (fi_fh fi))); [| lia].
  destruct (Z.ltb_spec (to_int (fi_fh fi)) (Z.of_nat (length (fhs w)))); [| lia].
  simpl. destruct (getfh_unbound (handle_of fi) l w Hb) as (k & Hk).
  unfold handle_of in Hk. eauto.
Qed.

(** X16.  [cannyfs_read] constructs no barrier: it waits for nothing but
    its handle.  On a handle that is bound it calls [pread] on the bound
    descriptor at once, whatever is queued or running on the path, and
    gives what [pread] returned, converted to [int], or [-errno] when that
    [int] is -1.  On a handle that is not bound yet it parks the thread
    until the handle is. *)
Theorem read_waits_for_handle_only path size offset fi l w :
  0 <= to_int (fi_fh fi) < Z.of_nat (length (fhs w)) ->
  let i := handle_of fi in
  (fd_of i w <> -1 ->
     let s := sys_pread (fd_of i w) size offset in
     let sr := posix w (syslog w) s in
     let res := to_int (sr_val sr) in
     exists l',
       cannyfs_read path size offset fi l w
       = Ret (if res =? -1 then - errno l' else res) l'
           (set_syslog (syslog w ++ [(s, sr)]) w) /\
       own l' = own l ++ [ev_sys s sr] /\
       errno l' = (if sr_val sr =? -1 then sr_errno sr else errno l)) /\
  (fd_of i w = -1 ->
     exists k,
       cannyfs_read path size offset fi l w = Blocked (on_opened i) l w k).
Proof.
  intros Hr i. split.
  - intros Hb s sr res. unfold cannyfs_read, bind at 1.
    rewrite getfh_fi_bound by assumption. cbn [obind].
    unfold bind at 1, do_sys at 1. cbn [obind]. fold i s sr. cbn zeta.
    fold res. unfold neg_errno, bind, get_errno, ret.
    destruct (res =? -1); simpl; eexists; (split; [reflexivity |]);
      destruct (sr_val sr =? -1); split; reflexivity.
  - intros Hb. unfold cannyfs_read, bind at 1.
    destruct (getfh_fi_unbound fi l w Hr Hb) as (k & Hk).
    rewrite Hk. simpl. eauto.
Qed.

(** ** What is never given back *)

(** X18.  Nothing is ever given back.  In every state the program reaches
    the free list of handles is empty (no code pushes to [freefhs]), so
    handles are never used again; from then on no path loses its record,
    the reservoir keeps every descriptor it holds, in place, the handle
    table never gets shorter, every call of [cannyfs_create] or
    [cannyfs_open] adds exactly one handle (whether the open succeeds or
    not), and no other callback changes the table. *)
Theorem nothing_is_freed o b os s s' :
  reachable (boot o b os) s -> reachable s s' ->
  freefhs (sys_world s') = [] /\
  (forall p, is_Some (filemap (sys_world s) !! p) ->
             is_Some (filemap (sys_world s') !! p)) /\
  (exists l, closes (sys_world s') = closes (sys_world s) ++ l) /\
  (length (fhs (sys_world s)) <= length (fhs (sys_world s')))%nat /\
  (forall c s'', do_action (call c) s' = Some s'' ->
     if allocates c
     then length (fhs (sys_world s'')) = S (length (fhs (sys_world s')))
     else fhs (sys_world s'') = fhs (sys_world s')).
Proof.
  intros H0 H1.
  destruct (good_reachable os _ _ (good_boot o b os) H0) as (Hg & _).
  destruct (good_reachable os _ _ Hg H1) as (Hg' & Hlen & _).
  assert (Hfree : freefhs (sys_world s') = []) by (destruct Hg' as (_ & Hf & _); exact Hf).
  split; [exact Hfree | split; [| split; [| split; [exact Hlen |]]]].
  - apply (boot_keeps records_kept stable_records_kept o b os s s' H0 H1).
  - apply (boot_keeps closes_kept stable_closes_kept o b os s s' H0 H1).
  - intros c s'' Hc. simpl in Hc.
    assert (Hb : forall i (out : outcome Z),
              binder_out i (grown (sys_world s')) out ->
              settle out (parked s') = Some s'' ->
              length (fhs (sys_world s'')) = S (length (fhs (sys_world s')))).
    { intros i out Hout Hset.
      assert (Hl : length (fhs (sys_world s''))
                   = length (fhs (grown (sys_world s')))).
      { destruct out as [a l w|g l w k|l w|l w|]; simpl in Hset;
          try discriminate; injection Hset as <-; simpl in Hout |- *.
        - destruct Hout as (_ & _ & _ & [-> | (v & _ & _ & ->)]);
            [reflexivity | apply length_alter].
        - destruct Hout as [[(_ & -> & _) _] | [(_ & _ & _ & [-> | (v & _ & _ & ->)]) _]];
            [reflexivity | reflexivity | apply length_alter]. }
      rewrite Hl. unfold grown. simpl. rewrite length_app. simpl. lia. }
    destruct (allocates c) eqn:Ha.
    + destruct c; try discriminate.
      * destruct (create_call path mode fi fresh (sys_world s') Hfree)
          as [Hout | (t & _ & Heq)].
        -- exact (Hb _ _ Hout Hc).
        -- cbv zeta in Heq. rewrite Heq in Hc. injection Hc as <-. simpl.
           rewrite length_app. simpl. lia.
      * exact (Hb _ _ (open_call path fi fresh (sys_world s') Hfree) Hc).
    + pose proof (pres_run_callback c Ha fresh (sys_world s')) as Hq.
      destruct (run_callback c fresh (sys_world s')) as [a l w|g l w k|l w|l w|];
        simpl in Hc; try discriminate; injection Hc as <-; simpl in Hq |- *.
      * destruct Hq as (_ & Hf & _). exact Hf.
      * destruct Hq as ((_ & Hf & _) & _). exact Hf.
Qed.



(** ** The options *)

(** X22.  No code writes [options]: in every state the program reaches
    they are as they were at start-up, and so are the build and the
    operating system.  With the member initialisers of [cannyfs_options]
    as the source has them, in every state: [cannyfs_access] returns 0 at
    once ([veryeageraccess]), [cannyfs_fsync] returns 0 at once
    ([ignorefsync]), [cannyfs_chmod] queues its closure and returns 0
    ([eagerchmod]), and a directory reader is a reader on the path itself
    ([restrictivedirs] is off). *)
Theorem shipped_options_forever create b os s :
  reachable (boot (default_options create) b os) s ->
  let w := sys_world s in
  (options w = default_options create /\ build w = b /\ posix w = os) /\
  (forall path mask l, cannyfs_access path mask l w = Ret 0 l w) /\
  (forall path isdatasync fi l,
     cannyfs_fsync path isdatasync fi l w = Ret 0 l w) /\
  (forall path mode l,
     cannyfs_chmod path mode l w
     = Ret 0 l (enqueued (on_path path (chmod_fun mode)) w)) /\
  (forall path flag l,
     cannyfs_dirreader path flag l w = cannyfs_reader path flag l w).
Proof.
  intros Hs w.
  pose proof (boot_keeps same_config stable_same_config
                (default_options create) b os _ s (reach_start _) Hs)
    as (Ho & Hb & Hp).
  simpl in Ho, Hb, Hp. fold w in Ho, Hb, Hp.
  split; [auto | split; [| split; [| split]]].
  - intros path mask l. unfold cannyfs_access, bind, get. simpl.
    rewrite Ho. reflexivity.
  - intros path isdatasync fi l. unfold cannyfs_fsync, bind, get. simpl.
    rewrite Ho. reflexivity.
  - intros path mode l.
    unfold cannyfs_chmod, cannyfs_add_write_path, cannyfs_add_write,
      bind at 1 2 3, get at 1 2, modify at 1.
    cbn beta iota. rewrite Ho. reflexivity.
  - intros path flag l. unfold cannyfs_dirreader, bind, get. simpl.
    rewrite Ho. simpl.
    destruct (cannyfs_reader path flag l w); reflexivity.
Qed.

(** ** [cannyfs_filemap::get] *)

Lemma world_eta w :
  mk_world (options w) (build w) (posix w) (syslog w) (eventId w) (filemap w)
    (waitingEvents w) (fhs w) (freefhs w) (closes w) (closes_capacity w)
    (workQueue w) (map_shared w) (map_exclusive w) (dirps w) = w.
Proof. destruct w; reflexivity. Qed.

(** Taking the lock of the map shared and giving it back leaves the world
    as it was. *)
Lemma map_shared_restored w :
  set_map_shared (Nat.pred (S (map_shared w))) w = w.
Proof. unfold set_map_shared. simpl. apply world_eta. Qed.

Lemma map_exclusive_restored w :
  map_exclusive w = false -> set_map_exclusive false w = w.
Proof.
  intros He. unfold set_map_exclusive. rewrite <- He. apply world_eta.
Qed.

Lemma map_lock_shared_free l w :
  map_exclusive w = false ->
  map_lock_shared l w = Ret tt l (set_map_shared (S (map_shared w)) w).
Proof.
  intros He. unfold map_lock_shared, bind, await, modify. simpl.
  rewrite He. reflexivity.
Qed.

Lemma map_lock_free l w :
  map_exclusive w = false -> map_shared w = O ->
  map_lock l w = Ret tt l (set_map_exclusive true w).
Proof.
  intros He Hs. unfold map_lock, bind, await, modify. simpl.
  rewrite He, Hs. reflexivity.
Qed.

Lemma lock_mutex_free p l w :
  mutex_free p w = true ->
  lock_mutex p l w = Ret (owned p) l (set_locked p true w).
Proof.
  intros Hf. unfold lock_mutex, bind, await, modify. simpl.
  rewrite Hf. reflexivity.
Qed.

Lemma lock_mutex_held p l w :
  mutex_free p w = false ->
  exists k, lock_mutex p l w = Blocked (on_mutex p) l w k.
Proof.
  intros Hf. unfold lock_mutex, bind, await, modify. simpl.
  rewrite Hf. simpl. eauto.
Qed.

Lemma lock_assign_free p l w :
  mutex_free p w = true ->
  lock_assign no_lock p l w = Ret (owned p) l (set_locked p true w).
Proof.
  intros Hf. unfold lock_assign, bind. rewrite lock_mutex_free by exact Hf.
  reflexivity.
Qed.

Lemma lock_assign_held old p l w :
  mutex_free p w = false ->
  exists k, lock_assign old p l w = Blocked (on_mutex p) l w k.
Proof.
  intros Hf. unfold lock_assign, bind.
  destruct (lock_mutex_held p l w Hf) as (k & ->). simpl. eauto.
Qed.

(** [get] where nothing makes it wait. *)
Lemma filemap_get_free path always l w :
  map_exclusive w = false ->
  mutex_free path w = true ->
  filemap_get path always no_lock l w
  = Ret (Some path, owned path) l (set_locked path true w).
Proof.
  intros He Hf. pose proof Hf as Hf'. unfold mutex_free in Hf'.
  destruct (filemap w !! path) as [d|] eqn:Hd; [| discriminate].
  unfold filemap_get, bind at 1. rewrite map_lock_shared_free by exact He.
  cbn [obind]. unfold bind at 1, get at 1. cbn [obind].
  change (filemap (set_map_shared (S (map_shared w)) w)) with (filemap w).
  rewrite Hd. unfold bind at 1 2. rewrite lock_assign_free by exact Hf.
  cbn [obind ret]. unfold bind at 1, map_unlock_shared, modify. cbn [obind].
  reflexivity.
Qed.

Lemma filemap_get_new path l w :
  map_exclusive w = false -> map_shared w = O ->
  filemap w !! path = None ->
  filemap_get path true no_lock l w
  = Ret (Some path, owned path) l
      (set_locked path true
         (set_filemap (<[path := new_filedata]> (filemap w)) w)).
Proof.
  intros He Hs Hn.
  unfold filemap_get, bind at 1. rewrite map_lock_shared_free by exact He.
  cbn [obind]. unfold bind at 1, get at 1. cbn [obind].
  change (filemap (set_map_shared (S (map_shared w)) w)) with (filemap w).
  rewrite Hn. unfold bind at 1. cbn [obind ret].
  unfold bind at 1, map_unlock_shared, modify at 1. cbn [obind].
  change (set_map_shared _ (set_map_shared (S (map_shared w)) w))
    with (set_map_shared (Nat.pred (S (map_shared w))) w).
  rewrite map_shared_restored.
  unfold bind at 1. rewrite map_lock_free by assumption. cbn [obind].
  unfold bind at 1, get at 1. cbn [obind].
  change (filemap (set_map_exclusive true w)) with (filemap w).
  rewrite Hn. unfold bind at 1, modify at 1. cbn [obind].
  unfold bind at 1. rewrite lock_assign_free
    by (unfold mutex_free; simpl; rewrite lookup_insert_eq; reflexivity).
  cbn [obind]. unfold bind, map_unlock, modify, ret. cbn [obind].
  f_equal. destruct w. simpl in *. subst. reflexivity.
Qed.

Lemma filemap_get_missing path lk l w :
  map_exclusive w = false ->
  filemap w !! path = None ->
  filemap_get path false lk l w = Ret (None, lk) l w.
Proof.
  intros He Hn.
  unfold filemap_get, bind at 1. rewrite map_lock_shared_free by exact He.
  cbn [obind]. unfold bind at 1, get at 1. cbn [obind].
  change (filemap (set_map_shared (S (map_shared w)) w)) with (filemap w).
  rewrite Hn. unfold bind at 1. cbn [obind ret].
  unfold bind at 1, map_unlock_shared, modify at 1. cbn [obind].
  unfold ret. f_equal. destruct w; reflexivity.
Qed.

(** [get] where it has to wait. *)
Lemma filemap_get_map_taken path always lk l w :
  map_exclusive w = true ->
  exists k, filemap_get path always lk l w = Blocked on_map_shared l w k.
Proof.
  intros He.
  unfold filemap_get, map_lock_shared, bind at 1 2, await. simpl.
  rewrite He. simpl. eauto.
Qed.

Lemma filemap_get_held path always lk l w :
  map_exclusive w = false ->
  mutex_held path w ->
  exists k,
    filemap_get path always lk l w
    = Blocked (on_mutex path) l (set_map_shared (S (map_shared w)) w) k.
Proof.
  intros He Hh. pose proof (mutex_held_not_free _ _ Hh) as Hf.
  destruct Hh as (d & Hd & Hl).
  unfold filemap_get, bind at 1. rewrite map_lock_shared_free by exact He.
  cbn [obind]. unfold bind at 1, get at 1. cbn [obind].
  change (filemap (set_map_shared (S (map_shared w)) w)) with (filemap w).
  rewrite Hd. unfold bind at 1 2.
  destruct (lock_assign_held lk path l (set_map_shared (S (map_shared w)) w) Hf)
    as (k & ->).
  cbn [obind]. eauto.
Qed.

Lemma filemap_get_map_shared path lk l w :
  map_exclusive w = false -> map_shared w <> O ->
  filemap w !! path = None ->
  exists k,
    filemap_get path true lk l w = Blocked on_map_exclusive l w k.
Proof.
  intros He Hs Hn.
  unfold filemap_get, bind at 1. rewrite map_lock_shared_free by exact He.
  cbn [obind]. unfold bind at 1, get at 1. cbn [obind].
  change (filemap (set_map_shared (S (map_shared w)) w)) with (filemap w).
  rewrite Hn. unfold bind at 1. cbn [obind ret].
  unfold bind at 1, map_unlock_shared, modify at 1. cbn [obind].
  change (set_map_shared _ (set_map_shared (S (map_shared w)) w))
    with (set_map_shared (Nat.pred (S (map_shared w))) w).
  rewrite map_shared_restored.
  unfold bind at 1, map_lock, bind at 1, await. simpl.
  rewrite He. apply Nat.eqb_neq in Hs. rewrite Hs. simpl. eauto.
Qed.

Lemma acquired_free path w :
  mutex_free path w = true -> acquired path w = set_locked path true w.
Proof.
  intros Hf. unfold acquired.
  destruct (mutex_free_is_Some _ _ Hf) as [d ->]. reflexivity.
Qed.

Lemma mutex_held_acquired path w : mutex_held path (acquired path w).
Proof.
  unfold acquired. apply mutex_held_set_locked.
  destruct (filemap w !! path) as [d|] eqn:Hd; [rewrite Hd; eauto |].
  simpl. rewrite lookup_insert_eq. eauto.
Qed.

Lemma lock_seg_acquired path w : lock_seg w (acquired path w).
Proof. unfold acquired. destruct (filemap w !! path); repeat split. Qed.

Lemma last_event_of_acquired p path w :
  last_event_of p (acquired path w) = last_event_of p w.
Proof.
  unfold acquired. rewrite last_event_of_set_locked.
  destruct (filemap w !! path) as [d|] eqn:Hd; [reflexivity |].
  unfold last_event_of. simpl.
  destruct (decide (path = p)) as [->|Hne].
  - rewrite lookup_insert_eq, Hd. reflexivity.
  - rewrite lookup_insert_ne by exact Hne. reflexivity.
Qed.

(** A mutex taken and given back leaves the world as it was. *)
Lemma released_again path w :
  mutex_free path w = true ->
  set_locked path false (set_locked path true w) = w.
Proof.
  intros Hf. unfold set_locked, set_filemap. simpl.
  rewrite alter_alter_eq, alter_id; [apply world_eta |].
  intros d Hd. unfold mutex_free in Hf. rewrite Hd in Hf.
  destruct d as [lk ev]. simpl in *. apply negb_true_iff in Hf. subst lk.
  reflexivity.
Qed.

(** What [get] does first, by what it has to wait for. *)
Lemma filemap_get_first_stop path always l w :
  match get_waits path always w with
  | Some g =>
      exists w1 k,
        filemap_get path always no_lock l w = Blocked g l w1 k /\
        lock_seg w w1 /\
        (g = on_mutex path -> map_shared w1 = S (map_shared w))
  | None =>
      filemap_get path always no_lock l w
      = match filemap w !! path with
        | None => if always then Ret (Some path, owned path) l (acquired path w)
                  else Ret (None, no_lock) l w
        | Some _ => Ret (Some path, owned path) l (acquired path w)
        end
  end.
Proof.
  unfold get_waits. destruct (map_exclusive w) eqn:He.
  - destruct (filemap_get_map_taken path always no_lock l w He) as (k & Hk).
    exists w, k. split; [exact Hk | split; [apply lock_seg_refl | discriminate]].
  - destruct (filemap w !! path) as [d|] eqn:Hd.
    + destruct (fd_locked d) eqn:Hl.
      * destruct (filemap_get_held path always no_lock l w He) as (k & Hk).
        { exists d. auto. }
        eexists _, k. split; [exact Hk | split; [repeat split | reflexivity]].
      * assert (Hf : mutex_free path w = true)
          by (unfold mutex_free; rewrite Hd, Hl; reflexivity).
        rewrite (acquired_free _ _ Hf).
        apply filemap_get_free; assumption.
    + destruct always; simpl.
      * destruct (map_shared w =? 0)%nat eqn:Hs; simpl.
        -- apply Nat.eqb_eq in Hs. unfold acquired. rewrite Hd.
           apply filemap_get_new; assumption.
        -- apply Nat.eqb_neq in Hs.
           destruct (filemap_get_map_shared path no_lock l w He Hs Hd)
             as (k & Hk).
           exists w, k.
           split; [exact Hk | split; [apply lock_seg_refl | discriminate]].
      * apply filemap_get_missing; assumption.
Qed.

(** X1.  [filemap.get(path, true, lock)].  Where no thread holds the lock
    of the map and the path has a record whose mutex is free, or has no
    record and no thread holds the lock of the map shared, the call is back
    at once with the record (a fresh one, [lastEventId = 0], when the path
    had none) and with [lock] owning its mutex.  Otherwise the thread
    waits: for the lock of the map when a thread holds it exclusively, or
    when the path has no record and other threads hold the lock shared;
    for the mutex of the record when a thread holds it, and then it waits
    holding the lock of the map shared.  Whenever the call is back, it is
    back with the record of the path, the caller holding its mutex. *)
Theorem filemap_get_always path l w :
  match get_waits path true w with
  | Some g =>
      exists w1 k,
        filemap_get path true no_lock l w = Blocked g l w1 k /\
        lock_seg w w1 /\
        (g = on_mutex path -> map_shared w1 = S (map_shared w))
  | None =>
      filemap_get path true no_lock l w
      = Ret (Some path, owned path) l (acquired path w)
  end /\
  (forall r l' w',
     returns (filemap_get path true no_lock l w) r l' w' ->
     r = (Some path, owned path) /\ l' = l /\ mutex_held path w').
Proof.
  split.
  - pose proof (filemap_get_first_stop path true l w) as H.
    destruct (get_waits path true w); [exact H |].
    destruct (filemap w !! path); exact H.
  - intros r l' w' Hr. apply returns_filemap_get in Hr.
    destruct Hr as (-> & _ & [(-> & Hh) | (Hf & _)]); [auto | discriminate].
Qed.

(** X2.  [filemap.get(path, false, lock)].  Where no thread holds the lock
    of the map exclusively: on a path that has no record the call is back
    at once with the null pointer, no record is made and nothing has
    changed; on a record whose mutex is free it is back at once holding
    the mutex; on a record whose mutex is held the thread waits for the
    mutex, holding the lock of the map shared.  Where a thread holds the
    lock of the map exclusively the call waits for it, also on a path
    without a record.  It never waits to take the lock of the map
    exclusively. *)
Theorem filemap_get_lookup path l w :
  match get_waits path false w with
  | Some g =>
      g <> on_map_exclusive /\
      exists w1 k,
        filemap_get path false no_lock l w = Blocked g l w1 k /\
        lock_seg w w1 /\
        (g = on_mutex path -> map_shared w1 = S (map_shared w))
  | None =>
      match filemap w !! path with
      | None => filemap_get path false no_lock l w = Ret (None, no_lock) l w
      | Some _ =>
          filemap_get path false no_lock l w
          = Ret (Some path, owned path) l (set_locked path true w)
      end
  end /\
  (forall r l' w',
     returns (filemap_get path false no_lock l w) r l' w' ->
     l' = l /\
     ((r = (Some path, owned path) /\ mutex_held path w') \/
      (r = (None, no_lock) /\ filemap w' !! path = None))).
Proof.
  split.
  - pose proof (filemap_get_first_stop path false l w) as H.
    destruct (get_waits path false w) as [g|] eqn:Hg.
    + split; [| exact H].
      unfold get_waits in Hg. destruct (map_exclusive w); [congruence |].
      destruct (filemap w !! path) as [d|]; [| discriminate].
      destruct (fd_locked d); congruence.
    + destruct (filemap w !! path) as [d|] eqn:Hd; [| exact H].
      rewrite H. unfold acquired. rewrite Hd. reflexivity.
  - intros r l' w' Hr. apply returns_filemap_get in Hr.
    destruct Hr as (-> & _ & [(-> & Hh) | (_ & -> & Hn)]); auto.
Qed.

(** ** Reader barriers *)

Lemma processed_wait_passes p t l w :
  t ∉ waitingEvents w -> processed_wait p t l w = Ret tt l w.
Proof.
  intros Hn. unfold processed_wait, bind, get. simpl.
  rewrite bool_decide_eq_false_2 by exact Hn. reflexivity.
Qed.

Lemma waitingEvents_acquired path w :
  waitingEvents (acquired path w) = waitingEvents w.
Proof. unfold acquired. destruct (filemap w !! path); reflexivity. Qed.

(** The rest of the constructor, once [get] is back with the record. *)
Lemma reader_after_get path flag l w :
  let t := last_event_of path w in
  let rest :=
    (fun r : option string * unique_lock =>
       match fst r with
       | Some p => eventId <- get (last_event_of p) ;; processed_wait p eventId
       | None => ret tt
       end ;;
       if flag =? LOCK_WHOLE
       then ret {| r_lock := snd r; r_fileobj := fst r |}
       else lock_dtor (snd r) ;;
            ret {| r_lock := no_lock; r_fileobj := fst r |}) in
  if bool_decide (t ∈ waitingEvents w)
  then exists w1 k,
         rest (Some path, owned path) l (acquired path w)
         = Blocked (on_processed path t) l w1 k /\ lock_seg w w1
  else rest (Some path, owned path) l (acquired path w)
       = if flag =? LOCK_WHOLE
         then Ret {| r_lock := owned path; r_fileobj := Some path |} l
                (acquired path w)
         else Ret {| r_lock := no_lock; r_fileobj := Some path |} l
                (set_locked path false (acquired path w)).
Proof.
  intros t rest. subst rest. cbn [fst snd].
  assert (Hstep : forall (k : M reader),
             ((eventId <- get (last_event_of path) ;;
               processed_wait path eventId) ;; k) l (acquired path w)
             = obind (processed_wait path t l (acquired path w))
                 (fun _ => k)).
  { intros k. unfold bind at 1 2, get at 1. cbn [obind].
    rewrite last_event_of_acquired. reflexivity. }
  rewrite Hstep. clear Hstep.
  destruct (bool_decide (t ∈ waitingEvents w)) eqn:Hin.
  - apply bool_decide_eq_true in Hin.
    destruct (processed_wait_parks path t l (acquired path w)) as (k & Hk).
    { rewrite waitingEvents_acquired. exact Hin. }
    rewrite Hk. cbn [obind]. eexists _, _. split; [reflexivity |].
    unfold acquired. destruct (filemap w !! path); repeat split.
  - apply bool_decide_eq_false in Hin.
    rewrite processed_wait_passes
      by (rewrite waitingEvents_acquired; exact Hin).
    cbn [obind]. destruct (flag =? LOCK_WHOLE); reflexivity.
Qed.

(** What the constructor of a reader does first, by what it has to wait
    for. *)
Lemma reader_first_stop path flag l w :
  let l1 := emit (ev_reader path flag) l in
  match reader_waits path flag w with
  | Some g =>
      exists w1 k,
        cannyfs_reader path flag l w = Blocked g l1 w1 k /\ lock_seg w w1
  | None =>
      cannyfs_reader path flag l w
      = if flag =? LOCK_WHOLE
        then Ret {| r_lock := owned path; r_fileobj := Some path |} l1
               (acquired path w)
        else Ret {| r_lock := no_lock;
                    r_fileobj := match filemap w !! path with
                                 | Some _ => Some path
                                 | None => None
                                 end |} l1 w
  end.
Proof.
  intros l1. unfold reader_waits.
  pose proof (filemap_get_first_stop path (flag =? LOCK_WHOLE) l1 w) as Hget.
  pose proof (reader_after_get path flag l1 w) as Hrest. cbv zeta in Hrest.
  assert (Hshape :
    cannyfs_reader path flag l w
    = obind (filemap_get path (flag =? LOCK_WHOLE) no_lock l1 w)
        (fun r : option string * unique_lock =>
           match fst r with
           | Some p => eventId <- get (last_event_of p) ;;
                       processed_wait p eventId
           | None => ret tt
           end ;;
           if flag =? LOCK_WHOLE
           then ret {| r_lock := snd r; r_fileobj := fst r |}
           else lock_dtor (snd r) ;;
                ret {| r_lock := no_lock; r_fileobj := fst r |}))
    by reflexivity.
  rewrite Hshape. clear Hshape.
  destruct (get_waits path (flag =? LOCK_WHOLE) w) as [g|] eqn:Hg.
  - destruct Hget as (w1 & k & -> & Hseg & _). cbn [obind]. eauto.
  - rewrite Hget. clear Hget.
    assert (Hex : map_exclusive w = false).
    { unfold get_waits in Hg. destruct (map_exclusive w); [discriminate |].
      reflexivity. }
    destruct (filemap w !! path) as [d|] eqn:Hd.
    + assert (Hf : mutex_free path w = true).
      { unfold get_waits in Hg. rewrite Hex, Hd in Hg.
        unfold mutex_free. rewrite Hd. destruct (fd_locked d);
          [discriminate | reflexivity]. }
      cbn [obind]. rewrite bool_decide_eq_true_2 by eauto. cbn [orb andb].
      destruct (bool_decide (last_event_of path w ∈ waitingEvents w)).
      * destruct Hrest as (w1 & k & -> & Hseg). eauto.
      * rewrite Hrest. destruct (flag =? LOCK_WHOLE); [reflexivity |].
        rewrite (acquired_free _ _ Hf), (released_again _ _ Hf). reflexivity.
    + rewrite bool_decide_eq_false_2 by (intros [x Hx]; discriminate).
      cbn [orb]. destruct (flag =? LOCK_WHOLE) eqn:Hflag; cbn [obind andb].
      * destruct (bool_decide (last_event_of path w ∈ waitingEvents w)).
        -- destruct Hrest as (w1 & k & -> & Hseg). eauto.
        -- rewrite Hrest. reflexivity.
      * unfold bind, ret, lock_dtor. simpl. try rewrite Hflag. reflexivity.
Qed.

(** X8.  The constructor of a reader barrier.  It comes back at once where
    nothing makes it wait; otherwise it first waits for the lock of the
    map, for the mutex of the record, or for the last event of the record
    while that is pending, without having changed anything but locks.
    Whenever it is back: a [LOCK_WHOLE] reader has the record of the path
    and holds its mutex, which its destructor gives back; a [JUST_BARRIER]
    reader holds nothing, the mutex of the path is held by no thread in
    the world it is back in, and its destructor does nothing. *)
Theorem reader_lock_discipline path flag l w :
  match reader_waits path flag w with
  | Some g =>
      exists l1 w1 k,
        cannyfs_reader path flag l w = Blocked g l1 w1 k /\ lock_seg w w1
  | None =>
      exists b l1,
        cannyfs_reader path flag l w
        = Ret b l1 (if flag =? LOCK_WHOLE then acquired path w else w)
  end /\
  (forall b l' w',
     returns (cannyfs_reader path flag l w) b l' w' ->
     if flag =? LOCK_WHOLE
     then b = {| r_lock := owned path; r_fileobj := Some path |} /\
          mutex_held path w' /\
          reader_dtor b l' w' = Ret tt l' (set_locked path false w')
     else r_lock b = no_lock /\ at_rest path w' /\
          reader_dtor b l' w' = Ret tt l' w').
Proof.
  split.
  - pose proof (reader_first_stop path flag l w) as H. cbv zeta in H.
    destruct (reader_waits path flag w).
    + destruct H as (w1 & k & Hk & Hseg). eauto.
    + rewrite H. destruct (flag =? LOCK_WHOLE); eauto.
  - intros b l' w' Hr. apply returns_cannyfs_reader in Hr.
    destruct (flag =? LOCK_WHOLE).
    + destruct Hr as (-> & Hh). auto.
    + destruct Hr as (Hb & Hrest & _).
      split; [exact Hb | split; [exact Hrest |]].
      apply reader_dtor_just_barrier. exact Hb.
Qed.

(** ** The segment a barrier comes back in *)

Lemma lands_keeps {A : Type} (R : world -> world -> Prop) (m : M A)
    w0 l w ws a l' w' :
  stable_l R -> keeps R m -> R w0 w ->
  lands w0 (m l w) ws a l' w' -> R ws w'.
Proof.
  intros HL Hm H0 H.
  eapply (lands_segment R (stable_refl R HL) _ _ _ _ _ _ H w).
  - intros w2 H2. eapply (stable_trans R HL); eauto.
  - apply Hm.
Qed.

Lemma returns_same_config {A : Type} (o : outcome A) a l w :
  returns o a l w ->
  forall w0, every_segment same_config w0 o -> same_config w0 w.
Proof.
  induction 1 as [a l w|g l w k w1 a l' w' Hc Hg Hk IH]; intros w0; simpl.
  - auto.
  - intros [H1 H2].
    eapply same_config_trans; [exact H1 |].
    eapply same_config_trans; [exact Hc | apply IH, H2].
Qed.

Lemma stable_l_same_config : stable_l same_config.
Proof.
  split; [apply same_config_refl | apply same_config_trans | ..];
    intros; repeat split.
Qed.

(** A [JUST_BARRIER] reader that is back: since its thread last woke it has
    touched nothing but locks, it holds none, and no thread holds the mutex
    of the path. *)
Lemma lands_just_barrier path w0 l w ws b l' w' :
  lock_seg w0 w ->
  lands w0 (cannyfs_reader path JUST_BARRIER l w) ws b l' w' ->
  lock_seg ws w' /\ same_config w w' /\ r_lock b = no_lock /\
  at_rest path w' /\ l' = emit (ev_reader path JUST_BARRIER) l.
Proof.
  intros H0 H.
  pose proof (lands_keeps lock_seg _ _ _ _ _ _ _ _ stable_lock_seg
                (keeps_cannyfs_reader lock_seg stable_lock_seg path _)
                H0 H) as Hseg.
  apply lands_returns in H.
  pose proof (cannyfs_reader_own _ _ _ _ _ _ _ H) as (Hown & Hc).
  apply returns_cannyfs_reader in H. simpl in H.
  destruct H as (Hb & Hrest & _). auto.
Qed.

(** A [LOCK_WHOLE] writer that is back: since its thread last woke it has
    touched nothing but path records, the lock of the map and
    [waitingEvents], and it holds the mutex of the path. *)
Lemma lands_lock_whole_writer path t w0 l w ws wr l' w' :
  barrier_seg w0 w ->
  lands w0 (cannyfs_writer writer_fuel path LOCK_WHOLE t l w) ws wr l' w' ->
  barrier_seg ws w' /\ same_config w w' /\
  wr = mk_writer (owned path) (Some path) None t (negb (String.eqb path "")) /\
  mutex_held path w' /\ l' = emit (ev_writer path LOCK_WHOLE t) l.
Proof.
  intros H0 H.
  pose proof (lands_keeps barrier_seg _ _ _ _ _ _ _ _
                (stable_locks _ _ stable_barrier_seg)
                (keeps_cannyfs_writer barrier_seg _ stable_barrier_seg
                   writer_fuel path LOCK_WHOLE t I)
                H0 H) as Hseg.
  apply lands_returns in H. apply returns_cannyfs_writer in H.
  cbv zeta in H. destruct H as (_ & Hwr & Hl & Hc & Hh).
  change (LOCK_WHOLE =? LOCK_WHOLE) with true in Hwr. cbv iota in Hwr. auto.
Qed.

Lemma lands_getcfh fd w0 l w ws i l' w' :
  lands w0 (getcfh fd l w) ws i l' w' ->
  ws = w0 /\ l' = l /\ w' = w /\ i = Z.to_nat (to_int fd) /\
  (i < length (fhs w))%nat.
Proof.
  intros H. pose proof (returns_getcfh _ _ _ _ _ _ (lands_returns _ _ _ _ _ _ H))
    as (-> & -> & -> & Hi).
  repeat split; try exact Hi.
  unfold getcfh, bind, get in H. simpl in H.
  destruct ((0 <=? to_int fd) && (to_int fd <? Z.of_nat (length (fhs w))));
    inversion H; reflexivity.
Qed.

(** [getfh] that is back: the handle is in the table and bound in the world
    the thread goes on in, which is the one it asked in or the one it woke
    in. *)
Lemma lands_getfh_fi fi w0 l w ws fd l' w' :
  lands w0 (getfh_fi fi l w) ws fd l' w' ->
  l' = l /\ fd = fd_of (handle_of fi) w' /\ fd <> -1 /\ same_config w w' /\
  (handle_of fi < length (fhs w))%nat /\
  ((ws = w0 /\ w' = w) \/ ws = w').
Proof.
  unfold getfh_fi, bind at 1. intros H.
  apply lands_bind in H. destruct H as (i & l1 & w1 & ws1 & Ha & H).
  apply lands_getcfh in Ha. destruct Ha as (-> & -> & -> & -> & Hi).
  fold (handle_of fi) in *.
  pose proof (returns_getfh _ _ _ _ _ _ (lands_returns _ _ _ _ _ _ H))
    as (-> & Hc & -> & Hne & _).
  split; [reflexivity |]. split; [reflexivity |]. split; [exact Hne |].
  split; [exact Hc |]. split; [exact Hi |].
  unfold getfh, bind at 1 in H.
  apply lands_bind in H. destruct H as (u & l1 & w1 & ws1 & Ha & H).
  apply lands_await in Ha. destruct Ha as (-> & _ & Hcase).
  apply lands_ret_inv in H. destruct H as (-> & _ & _ & ->).
  destruct Hcase as [(-> & ->) | (-> & _)]; auto.
Qed.

(** The closure of a [path, fi] overload that has run to its end: the
    lambda ran inside a [LOCK_WHOLE] writer that held the mutex of the
    path, and the destructor of the writer then gave the mutex back (on a
    writer on "" it also takes the ticket out of [waitingEvents]). *)
Lemma lands_closure_fi path fi f t w0 l0 ws r l' w' :
  lands w0 (run_closure (on_path_fi path fi f) t l0 w0) ws r l' w' ->
  exists ws1 w1 l2 w2,
    barrier_seg ws1 w1 /\ mutex_held path w1 /\ same_config w0 w1 /\
    lands ws1 (run_fi_fun f path fi (emit (ev_writer path LOCK_WHOLE t) l0) w1)
      ws r l2 w2 /\
    w' = set_locked path false
           (if String.eqb path "" then erase_event t w2 else w2) /\
    l' = emit (ev_processed path) l2.
Proof.
  rewrite run_closure_on_path_fi. unfold bind at 1. intros H.
  apply lands_bind in H. destruct H as (wr & l1 & w1 & ws1 & Ha & H).
  apply (lands_lock_whole_writer _ _ _ _ _ _ _ _ _ (barrier_seg_refl w0)) in Ha.
  destruct Ha as (Hseg & Hc & -> & Hh & ->).
  unfold bind at 1 in H.
  apply lands_bind in H. destruct H as (r1 & l2 & w2 & ws2 & Hb & H).
  unfold bind at 1 in H. rewrite writer_dtor_owned in H. cbn [obind] in H.
  apply lands_ret_inv in H. destruct H as (-> & -> & -> & ->).
  exists ws1, w1, l2, w2.
  split; [exact Hseg |]. split; [exact Hh |]. split; [exact Hc |].
  split; [exact Hb |]. split; [| reflexivity].
  destruct (String.eqb path ""); reflexivity.
Qed.

(** The same for the closures of the [path] overload, whose lambdas make
    one system call and never wait. *)
Lemma lands_closure_path path f t w0 l0 ws r l' w' :
  lands w0 (run_closure (on_path path f) t l0 w0) ws r l' w' ->
  exists w1,
    barrier_seg ws w1 /\ mutex_held path w1 /\ same_config w0 w1 /\
    let s := path_call f path in
    r = (if sr_val (answer s w1) =? -1 then - sr_errno (answer s w1) else 0) /\
    w' = set_locked path false
           (if String.eqb path "" then erase_event t (called s w1)
            else called s w1).
Proof.
  unfold run_closure. unfold bind at 1. intros H.
  apply lands_bind in H. destruct H as (wr & l1 & w1 & ws1 & Ha & H).
  apply (lands_lock_whole_writer _ _ _ _ _ _ _ _ _ (barrier_seg_refl w0)) in Ha.
  destruct Ha as (Hseg & Hc & -> & Hh & ->).
  exists w1.
  assert (Hrun : forall l, exists l2,
    run_path_fun f path l w1
    = Ret (if sr_val (answer (path_call f path) w1) =? -1
           then - sr_errno (answer (path_call f path) w1) else 0)
        l2 (called (path_call f path) w1)).
  { intros l. destruct f; unfold run_path_fun, bind, do_sys,
      zero_or_neg_errno, neg_errno, get_errno, ret, answer, called, path_call;
      simpl;
      match goal with
      | |- context [sr_val ?x =? -1] => destruct (sr_val x =? -1)
      end; simpl; eexists; reflexivity. }
  destruct (Hrun (emit (ev_writer path LOCK_WHOLE t) l0)) as (l2 & Hrun2).
  unfold bind at 1 in H. rewrite Hrun2 in H. cbn [obind] in H.
  unfold bind at 1 in H. rewrite writer_dtor_owned in H. cbn [obind] in H.
  apply lands_ret_inv in H. destruct H as (-> & -> & -> & ->).
  split; [exact Hseg |]. split; [exact Hh |]. split; [exact Hc |].
  split; [reflexivity |].
  destruct (String.eqb path ""); reflexivity.
Qed.

(** What a segment that touches only barriers leaves as it was. *)
Lemma barrier_seg_answer s w w' : barrier_seg w w' -> answer s w' = answer s w.
Proof.
  intros (_ & _ & Hp & Hs & _). unfold answer. rewrite Hp, Hs. reflexivity.
Qed.

Lemma barrier_seg_fd_of i w w' : barrier_seg w w' -> fd_of i w' = fd_of i w.
Proof.
  intros (_ & _ & _ & _ & _ & Hf & _). unfold fd_of. rewrite Hf. reflexivity.
Qed.

Lemma barrier_seg_build w w' : barrier_seg w w' -> build w' = build w.
Proof. intros (_ & Hb & _). exact Hb. Qed.

Lemma barrier_seg_syslog w w' : barrier_seg w w' -> syslog w' = syslog w.
Proof. intros (_ & _ & _ & Hs & _). exact Hs. Qed.

Lemma barrier_seg_fhs w w' : barrier_seg w w' -> fhs w' = fhs w.
Proof. intros (_ & _ & _ & _ & _ & Hf & _). exact Hf. Qed.

Lemma barrier_seg_called s w w' :
  barrier_seg w w' ->
  syslog (called s w') = syslog w ++ [(s, answer s w)].
Proof.
  intros H. unfold called. simpl. fold (answer s w').
  rewrite (barrier_seg_answer s _ _ H), (barrier_seg_syslog _ _ H).
  reflexivity.
Qed.

(** The world a closure leaves when its writer is destroyed, read field by
    field. *)
Lemma closed_syslog path t w :
  syslog (set_locked path false
            (if String.eqb path "" then erase_event t w else w)) = syslog w.
Proof. destruct (String.eqb path ""); reflexivity. Qed.

Lemma closed_fhs path t w :
  fhs (set_locked path false
         (if String.eqb path "" then erase_event t w else w)) = fhs w.
Proof. destruct (String.eqb path ""); reflexivity. Qed.

(** A computation that is back at once has landed in the segment it began
    in. *)
Lemma landed {A : Type} (o : outcome A) w0 :
  is_Some (result_of o) ->
  exists a l w, o = Ret a l w /\ lands w0 o w0 a l w.
Proof.
  destruct o as [a l w| | | |]; intros [x Hx]; try discriminate.
  exists a, l, w. split; [reflexivity | constructor].
Qed.

Lemma returns_zero_or_neg_errno_lands sr w0 l w ws r l' w' :
  lands w0 (zero_or_neg_errno sr l w) ws r l' w' ->
  ws = w0 /\ r = (if sr_val sr =? -1 then - errno l else 0) /\
  l' = l /\ w' = w.
Proof.
  unfold zero_or_neg_errno, neg_errno, bind, get_errno.
  destruct (sr_val sr =? -1); simpl; intros Hr;
    apply lands_ret_inv in Hr; tauto.
Qed.

(** The lambda of [cannyfs_fsync]: it waits for the handle to be bound and
    makes its one call on the bound descriptor. *)
Lemma lands_fsync_fun isdatasync path fi ws1 l1 w1 ws r l2 w2 :
  barrier_seg ws1 w1 ->
  lands ws1 (run_fi_fun (fsync_fun isdatasync) path fi l1 w1) ws r l2 w2 ->
  exists wm,
    barrier_seg ws wm /\
    let fd := fd_of (handle_of fi) wm in
    let s := if HAVE_FDATASYNC (build wm) && negb (isdatasync =? 0)
             then sys_fdatasync fd else sys_fsync fd in
    fd <> -1 /\ w2 = called s wm /\
    r = if sr_val (answer s wm) =? -1 then - sr_errno (answer s wm) else 0.
Proof.
  intros Hseg H. unfold run_fi_fun, bind at 1, get at 1 in H.
  cbn [obind] in H. unfold bind at 1 in H.
  apply lands_bind in H. destruct H as (sr & l3 & w3 & ws3 & Ha & H).
  assert (Hcall : exists wm fd,
    barrier_seg ws3 wm /\ fd = fd_of (handle_of fi) wm /\ fd <> -1 /\
    build wm = build w1 /\
    forall s, s = sys_fdatasync fd \/ s = sys_fsync fd ->
      HAVE_FDATASYNC (build w1) && negb (isdatasync =? 0)
      = match s with sys_fdatasync _ => true | _ => false end ->
      sr = answer s wm /\ w3 = called s wm /\
      errno l3 = (if sr_val sr =? -1 then sr_errno sr else errno l1)).
  { destruct (HAVE_FDATASYNC (build w1) && negb (isdatasync =? 0));
      unfold bind at 1 in Ha; apply lands_bind in Ha;
      destruct Ha as (fd & l4 & w4 & ws4 & Hfd & Ha);
      apply lands_getfh_fi in Hfd;
      destruct Hfd as (-> & Hfd & Hne & (_ & Hb & _) & _ & Hcase);
      unfold do_sys in Ha; apply lands_ret_inv in Ha;
      destruct Ha as (-> & -> & -> & ->);
      exists w4, fd;
      (split; [destruct Hcase as [(-> & ->) | ->];
                 [exact Hseg | apply barrier_seg_refl] |]);
      (split; [exact Hfd |]); (split; [exact Hne |]); (split; [exact Hb |]);
      intros s [-> | ->] Hs; try discriminate;
      (split; [reflexivity |]); (split; [reflexivity |]);
      simpl; destruct (_ =? -1); reflexivity. }
  destruct Hcall as (wm & fd & Hsm & -> & Hne & Hb & Hs).
  apply returns_zero_or_neg_errno_lands in H.
  destruct H as (-> & -> & -> & ->).
  exists wm. split; [exact Hsm |]. cbv zeta. rewrite Hb.
  split; [exact Hne |].
  destruct (HAVE_FDATASYNC (build w1) && negb (isdatasync =? 0)) eqn:Hhave.
  - destruct (Hs (sys_fdatasync (fd_of (handle_of fi) wm)))
      as (-> & -> & He); [left; reflexivity | reflexivity |].
    split; [reflexivity |]. rewrite He.
    destruct (sr_val _ =? -1); reflexivity.
  - destruct (Hs (sys_fsync (fd_of (handle_of fi) wm)))
      as (-> & -> & He); [right; reflexivity | reflexivity |].
    split; [reflexivity |]. rewrite He.
    destruct (sr_val _ =? -1); reflexivity.
Qed.

(** ** [cannyfs_access] *)

(** C8.  [cannyfs_access].  With [veryeageraccess] it gives 0 at once and
    leaves the world as it is.  Without it, the constructor of a
    [JUST_BARRIER] reader on the path runs first: where that has to wait
    (for the lock of the map, the mutex of the record or the pending last
    event of the record) the callback is parked there, having touched
    nothing but locks; where it has not, the callback is back at once, with
    0 and the world unchanged under [eageraccess], and otherwise after the
    one call [access(path, mask)], whose answer decides the result: the
    negated [errno] of the call when it gave -1, else 0.  Whenever the
    callback is back, the segment it came back in changed nothing but locks
    before the call (under [eageraccess]: at all), and no thread holds the
    mutex of the path. *)
Theorem cannyfs_access_policy path mask l w :
  (veryeageraccess (options w) = true ->
   cannyfs_access path mask l w = Ret 0 l w) /\
  (veryeageraccess (options w) = false ->
   let s := sys_access path mask in
   match reader_waits path JUST_BARRIER w with
   | Some g =>
       exists l1 w1 k,
         cannyfs_access path mask l w = Blocked g l1 w1 k /\ lock_seg w w1
   | None =>
       exists l1,
         cannyfs_access path mask l w
         = if eageraccess (options w) then Ret 0 l1 w
           else Ret (if sr_val (answer s w) =? -1
                     then - sr_errno (answer s w) else 0) l1 (called s w)
   end /\
   forall ws r l' w',
     lands w (cannyfs_access path mask l w) ws r l' w' ->
     at_rest path w' /\
     exists w1,
       lock_seg ws w1 /\
       if eageraccess (options w) then r = 0 /\ w' = w1
       else w' = called s w1 /\
            r = if sr_val (answer s w1) =? -1
                then - sr_errno (answer s w1) else 0).
Proof.
  split.
  - intros Hv. unfold cannyfs_access, bind, get. simpl. rewrite Hv.
    reflexivity.
  - intros Hv s.
    assert (Hshape :
      cannyfs_access path mask l w
      = obind (cannyfs_reader path JUST_BARRIER l w)
          (fun b =>
             eager <- get (fun w => eageraccess (options w)) ;;
             res <- (if eager then ret 0
                     else r <- do_sys (sys_access path mask) ;;
                          zero_or_neg_errno r) ;;
             reader_dtor b ;;
             ret res)).
    { unfold cannyfs_access, bind at 1, get at 1. cbn [obind].
      rewrite Hv. reflexivity. }
    rewrite Hshape. clear Hshape. split.
    + pose proof (reader_first_stop path JUST_BARRIER l w) as H.
      cbv zeta in H.
      destruct (reader_waits path JUST_BARRIER w) as [g|].
      * destruct H as (w1 & k & -> & Hseg). cbn [obind]. eauto.
      * rewrite H. change (JUST_BARRIER =? LOCK_WHOLE) with false.
        cbn iota. cbn [obind].
        unfold bind at 1, get at 1. cbn [obind].
        destruct (eageraccess (options w)).
        -- eexists. reflexivity.
        -- unfold bind, do_sys, zero_or_neg_errno, neg_errno,
             get_errno, ret, reader_dtor, lock_dtor, answer, called, s.
           simpl.
           destruct (sr_val (posix w (syslog w) (sys_access path mask)) =? -1);
             simpl; eexists; reflexivity.
    + intros ws r l' w' H.
      apply lands_bind in H. destruct H as (b & l1 & w1 & ws1 & Hrd & H).
      apply (lands_just_barrier path w l w ws1 b l1 w1 (lock_seg_refl w))
        in Hrd.
      destruct Hrd as (Hseg & (Ho & _) & Hb & Hrest & _).
      unfold bind at 1, get at 1 in H. cbn [obind] in H.
      rewrite Ho in H.
      destruct (eageraccess (options w)).
      * unfold bind, ret, reader_dtor, lock_dtor in H. rewrite Hb in H.
        simpl in H. apply lands_ret_inv in H.
        destruct H as (-> & -> & -> & ->). eauto.
      * unfold bind, do_sys, zero_or_neg_errno, neg_errno, get_errno, ret,
          reader_dtor, lock_dtor in H. rewrite Hb in H. simpl in H.
        destruct (sr_val (posix w1 (syslog w1) (sys_access path mask)) =? -1)
          eqn:Hr; simpl in H; apply lands_ret_inv in H;
          destruct H as (-> & -> & -> & ->);
          (split; [exact Hrest |]);
          exists w1; unfold answer, called, s; rewrite Hr; auto.
Qed.

(** ** [cannyfs_fsync] *)

(** C9.  [cannyfs_fsync].  With [ignorefsync] it gives 0 at once and
    leaves the world as it is: nothing is added to [syslog].  Without
    [ignorefsync] and with [eagerfsync] it gives 0 at once, having taken
    the next ticket and queued its closure under it, and nothing else.
    Whenever a thread has run such a closure to its end, then in the
    segment it came back in: the handle [fi->fh] is bound, the thread made
    exactly one system call, [fdatasync] (if the build has it and
    [isdatasync] is set) or [fsync] on the descriptor the handle is bound
    to; the result is the negated [errno] of that call when it gave -1 and
    0 otherwise; the handle table is as it was, and no thread holds the
    mutex of the path. *)
Theorem cannyfs_fsync_policy cpath isdatasync fi l w :
  (ignorefsync (options w) = true ->
   cannyfs_fsync cpath isdatasync fi l w = Ret 0 l w) /\
  (ignorefsync (options w) = false ->
   eagerfsync (options w) = true ->
   cannyfs_fsync cpath isdatasync fi l w
   = Ret 0 l (enqueued (on_path_fi cpath fi (fsync_fun isdatasync)) w)) /\
  (forall t l0 w0 ws r l' w',
     t_fun t = on_path_fi cpath fi (fsync_fun isdatasync) ->
     lands w0 (run_task t l0 w0) ws r l' w' ->
     let fd := fd_of (handle_of fi) ws in
     let s := if HAVE_FDATASYNC (build ws) && negb (isdatasync =? 0)
              then sys_fdatasync fd else sys_fsync fd in
     fd <> -1 /\
     syslog w' = syslog ws ++ [(s, answer s ws)] /\
     r = (if sr_val (answer s ws) =? -1 then - sr_errno (answer s ws)
          else 0) /\
     fhs w' = fhs ws /\
     at_rest cpath w').
Proof.
  split; [| split].
  - intros Hi. unfold cannyfs_fsync, bind, get. simpl. rewrite Hi. reflexivity.
  - intros Hi He.
    unfold cannyfs_fsync, cannyfs_add_write_fi, cannyfs_add_write, bind, get.
    simpl. rewrite Hi, He. reflexivity.
  - intros t l0 w0 ws r l' w' Ht H. unfold run_task in H. rewrite Ht in H.
    apply lands_closure_fi in H.
    destruct H as (ws1 & w1 & l2 & w2 & Hseg & _ & _ & H & -> & _).
    apply (lands_fsync_fun _ _ _ _ _ _ _ _ _ _ Hseg) in H.
    destruct H as (wm & Hsm & H). cbv zeta in H.
    rewrite (barrier_seg_fd_of _ _ _ Hsm), (barrier_seg_build _ _ Hsm) in H.
    destruct H as (Hne & -> & ->). cbv zeta.
    split; [exact Hne |].
    rewrite closed_syslog, closed_fhs.
    rewrite (barrier_seg_called _ _ _ Hsm), (barrier_seg_answer _ _ _ Hsm).
    split; [reflexivity |]. split; [reflexivity |].
    split; [exact (barrier_seg_fhs _ _ Hsm) | apply at_rest_unlocked].
Qed.

(** ** [cannyfs_create] and [cannyfs_open] *)



(** ** [lastEventId] *)

(** No state the program reaches has a path record with [lastEventId]
    set. *)
Lemma reached_events_unset o b os s :
  reachable (boot o b os) s -> forall p, last_event_of p (sys_world s) = 0.
Proof.
  intros Hs.
  pose proof (boot_keeps unset_kept stable_unset_kept o b os (boot o b os) s
                (reach_start _) Hs) as Hk.
  assert (Hu : events_unset (sys_world s)).
  { apply Hk. intros p d. simpl. rewrite lookup_empty. discriminate. }
  intros p. unfold last_event_of.
  destruct (filemap (sys_world s) !! p) as [d|] eqn:Hd;
    [exact (Hu p d Hd) | reflexivity].
Qed.



(** ** Tickets *)

Lemma to_llong_small x :
  -9223372036854775808 <= x < 9223372036854775808 -> to_llong x = x.
Proof.
  intros Hx. unfold to_llong, wrap.
  change (2 ^ (64 - 1)) with 9223372036854775808.
  change (2 ^ 64) with 18446744073709551616.
  rewrite Z.mod_small by lia. lia.
Qed.

Ltac in_sets :=
  let x := fresh "x" in
  intros x;
  rewrite ?elem_of_union, ?elem_of_difference, ?elem_of_singleton; tauto.

Ltac ticket_leaf :=
  intros; subst; try contradiction; repeat split; simpl;
  try reflexivity; in_sets.

Lemma stable0_ticket_seg e : stable0 (ticket_seg e) (fun t => t = e).
Proof.
  split; [split; [split |..] |..]; try ticket_leaf.
  intros w1 w2 w3 (He1 & Hq1 & Hw1) (He2 & Hq2 & Hw2).
  repeat split; [congruence | congruence |].
  intros x Hx. apply Hw2 in Hx. apply elem_of_union in Hx as [Hx | Hx].
  - apply elem_of_union_l. exact Hx.
  - apply Hw1. exact Hx.
Qed.

Lemma stable0_idle_seg : stable0 idle_seg (fun _ => False).
Proof.
  split; [split; [split |..] |..]; try ticket_leaf.
  intros w1 w2 w3 (He1 & Hq1 & Hw1) (He2 & Hq2 & Hw2).
  repeat split; [congruence | congruence |].
  intros x Hx. apply Hw1, Hw2. exact Hx.
Qed.

Lemma stable_l_ticket_seg e : stable_l (ticket_seg e).
Proof. exact (stable_locks _ _ (stable_barrier _ _ (stable0_ticket_seg e))). Qed.

Lemma stable_l_idle_seg : stable_l idle_seg.
Proof. exact (stable_locks _ _ (stable_barrier _ _ stable0_idle_seg)). Qed.

Lemma idle_ticket e w w' : idle_seg w w' -> ticket_seg e w w'.
Proof.
  intros (He & Hq & Hw). repeat split; [exact He | exact Hq |].
  intros x Hx. apply elem_of_union_r, Hw. exact Hx.
Qed.

Lemma every_idle_ticket {A : Type} e (o : outcome A) :
  forall w, every_segment idle_seg w o -> every_segment (ticket_seg e) w o.
Proof.
  induction o as [a l0 w0|g l0 w0 k IH|l0 w0|l0 w0|]; intros w; simpl; auto.
  - apply idle_ticket.
  - intros [H1 H2]. split; [apply idle_ticket; exact H1 | auto].
Qed.

Lemma idle_issue w0 w w' : idle_seg w0 w -> issue_seg w w' -> issue_seg w0 w'.
Proof.
  intros (He & Hq & Hw) (He' & Hq' & Hw').
  repeat split.
  - rewrite He', He. reflexivity.
  - rewrite <- Hq. exact Hq'.
  - intros x Hx. apply Hw' in Hx. apply elem_of_union in Hx as [Hx | Hx].
    + apply elem_of_union_l. exact Hx.
    + apply elem_of_union_r, Hw. exact Hx.
Qed.

Lemma issue_ticket w0 w w' :
  issue_seg w0 w -> ticket_seg (to_int (eventId w)) w w' -> issue_seg w0 w'.
Proof.
  intros (He & Hq & Hw) (He' & Hq' & Hw').
  repeat split.
  - rewrite He'. exact He.
  - rewrite Hq', He'. exact Hq.
  - rewrite He'. intros x Hx. apply Hw' in Hx.
    apply elem_of_union in Hx as [Hx | Hx].
    + apply elem_of_union_l. exact Hx.
    + apply Hw. exact Hx.
Qed.

Lemma idle_is_issuer {A : Type} (o : outcome A) :
  forall w, every_segment idle_seg w o -> issuer_out w o.
Proof.
  induction o as [a l0 w0|g l0 w0 k IH|l0 w0|l0 w0|]; intros w; simpl; auto.
  intros [H1 H2]. left. auto.
Qed.

Lemma issuer_prefix {A : Type} w0 w (o : outcome A) :
  idle_seg w0 w -> issuer_out w o -> issuer_out w0 o.
Proof.
  intros H0. destruct o; simpl; try tauto.
  - intros [H | H]; [left | right].
    + exact (stable_trans _ stable_l_idle_seg _ _ _ H0 H).
    + exact (idle_issue _ _ _ H0 H).
  - intros [[H Hk] | [H Hk]]; [left | right]; (split; [| exact Hk]).
    + exact (stable_trans _ stable_l_idle_seg _ _ _ H0 H).
    + exact (idle_issue _ _ _ H0 H).
Qed.

(** A run, once it has its ticket, goes on under it. *)
Lemma issuer_suffix {A : Type} w0 w (o : outcome A) :
  issue_seg w0 w ->
  every_segment (ticket_seg (to_int (eventId w))) w o -> issuer_out w0 o.
Proof.
  intros H0. destruct o; simpl; try tauto.
  - intros H. right. exact (issue_ticket _ _ _ H0 H).
  - intros [H Hk]. right. split; [exact (issue_ticket _ _ _ H0 H) |].
    destruct H as (He & _). rewrite He. exact Hk.
Qed.

Lemma issuer_obind_l {A B : Type} (o : outcome A) (f : A -> M B) :
  (forall a, issues (f a)) ->
  forall w, every_segment idle_seg w o -> issuer_out w (obind o f).
Proof.
  intros Hf.
  induction o as [a l0 w0|g l0 w0 k IH|l0 w0|l0 w0|]; intros w; simpl; auto.
  - intros H. eapply issuer_prefix; [exact H | apply Hf].
  - intros [H1 H2]. left. auto.
Qed.

Lemma issuer_obind_r {A B : Type} (o : outcome A) (f : A -> M B) :
  (forall a, keeps idle_seg (f a)) ->
  forall w, issuer_out w o -> issuer_out w (obind o f).
Proof.
  intros Hf.
  induction o as [a l0 w0|g l0 w0 k IH|l0 w0|l0 w0|]; intros w; simpl; auto.
  - intros [H | H].
    + eapply issuer_prefix; [exact H | apply idle_is_issuer, Hf].
    + eapply issuer_suffix; [exact H | apply every_idle_ticket, Hf].
  - intros [[H1 H2] | [H1 H2]]; [left | right]; split; auto.
    intros w1.
    apply (segment_obind _ (stable_l_ticket_seg (to_int (eventId w0)))); auto.
    intros a l w2. apply every_idle_ticket, Hf.
Qed.

Lemma issues_bind_l {A B : Type} (m : M A) (f : A -> M B) :
  keeps idle_seg m -> (forall a, issues (f a)) -> issues (bind m f).
Proof. intros Hm Hf l w. apply issuer_obind_l; auto. Qed.

Lemma issues_bind_r {A B : Type} (m : M A) (f : A -> M B) :
  issues m -> (forall a, keeps idle_seg (f a)) -> issues (bind m f).
Proof. intros Hm Hf l w. apply issuer_obind_r; auto. Qed.

Lemma idle_issues {A : Type} (m : M A) : keeps idle_seg m -> issues m.
Proof. intros Hm l w. apply idle_is_issuer, Hm. Qed.

(** [cannyfs_add_write] takes the next ticket; the closure, run at once or
    by a worker, goes on under it. *)
Lemma issues_cannyfs_add_write defer fn : issues (cannyfs_add_write defer fn).
Proof.
  intros l w. unfold cannyfs_add_write, bind at 1 2, get at 1, modify at 1.
  cbn [obind].
  set (t := to_llong (eventId w + 1)).
  assert (Hissue : issue_seg w (set_eventId t w)).
  { repeat split; [left; reflexivity | simpl; in_sets]. }
  destruct (negb defer).
  - apply (issuer_suffix w (set_eventId t w)); [exact Hissue |].
    apply (keeps_run_closure _ _ (stable0_ticket_seg (to_int t))).
    reflexivity.
  - unfold bind, modify, ret. simpl. right.
    repeat split; [right; eexists; reflexivity | simpl; in_sets].
Qed.

Lemma issues_run_callback c : issues (run_callback c).
Proof.
  destruct (takes_ticket c) eqn:Ht;
    [| apply idle_issues, (keeps_ticketless_callback _ _ stable0_idle_seg);
       exact Ht].
  pose proof issues_cannyfs_add_write as Ha.
  pose proof stable0_idle_seg as HI.
  pose proof stable_l_idle_seg as HL.
  assert (Hget : forall (A : Type) (f : world -> A), keeps idle_seg (get f))
    by (intros; apply (keeps_get _ HL)).
  assert (Hret : forall (A : Type) (a : A), keeps idle_seg (ret a))
    by (intros; apply (keeps_ret _ HL)).
  destruct c; try discriminate; simpl;
    unfold cannyfs_link, cannyfs_chmod, cannyfs_chown, cannyfs_create,
      cannyfs_flush, cannyfs_release, cannyfs_fsync,
      cannyfs_add_write_path, cannyfs_add_write_path2, cannyfs_add_write_fi.
  - apply issues_bind_l; [apply Hget | intros eager; apply Ha].
  - apply issues_bind_l; [apply Hget | intros eager; apply Ha].
  - apply issues_bind_l; [apply Hget | intros eager; apply Ha].
  - apply issues_bind_r; [| intros r; apply Hret].
    apply issues_bind_l; [apply (keeps_getnewfh _ _ HI) | intros i].
    apply issues_bind_l; [apply Hget | intros eager].
    apply issues_bind_r; [apply Ha | intros res; apply Hret].
  - apply issues_bind_l; [apply Hget | intros late]. destruct late.
    + apply idle_issues.
      apply (keeps_bind _ HL); [apply (keeps_getfh_fi _ HL) | intros fd].
      apply (keeps_bind _ HL); [apply (keeps_do_sys _ _ HI) | intros d].
      apply (keeps_bind _ HL);
        [apply (keeps_closes_push_back _ _ HI) | intros _; apply Hret].
    + apply issues_bind_l; [apply Hget | intros eager; apply Ha].
  - apply issues_bind_l; [apply Hget | intros late].
    apply issues_bind_l.
    + destruct late; [| apply Hret].
      apply (keeps_bind _ HL); [apply (keeps_getfh_fi _ HL) | intros fd].
      apply (keeps_closes_push_back _ _ HI).
    + intros _. apply issues_bind_l; [apply Hget | intros eager; apply Ha].
  - apply issues_bind_l; [apply Hget | intros ignore]. destruct ignore.
    + apply idle_issues, Hret.
    + apply issues_bind_l; [apply Hget | intros eager; apply Ha].
Qed.

Lemma after_ticket e w w' :
  ticket_seg e w w' -> 1 <= e <= eventId w -> tickets_ok w -> tickets_ok w'.
Proof.
  intros (He & Hq & Hw) Hin (H0 & Hp & Hf & Hn).
  unfold tickets_ok. rewrite He, Hq. repeat split; try assumption; try lia.
  - apply Hw in H. apply elem_of_union in H as [H | H].
    + apply elem_of_singleton in H. lia.
    + apply Hp. exact H.
  - apply Hw in H. apply elem_of_union in H as [H | H].
    + apply elem_of_singleton in H. lia.
    + apply Hp. exact H.
Qed.

Lemma after_idle w w' : idle_seg w w' -> tickets_ok w -> tickets_ok w'.
Proof.
  intros (He & Hq & Hw) (H0 & Hp & Hf & Hn).
  unfold tickets_ok. rewrite He, Hq. repeat split; try assumption;
    apply Hp, Hw; exact H.
Qed.

Lemma after_issue w w' :
  issue_seg w w' -> eventId w + 1 < 2147483648 -> tickets_ok w ->
  tickets_ok w' /\ eventId w' = eventId w + 1.
Proof.
  intros (He & Hq & Hw) Hb (H0 & Hp & Hf & Hn).
  rewrite to_llong_small in He by lia.
  rewrite He, to_int_small in Hw by lia.
  split; [| exact He]. unfold tickets_ok. rewrite He.
  assert (Hold : Forall (fun t => 1 <= t_event t <= eventId w + 1)
                   (workQueue w)).
  { eapply Forall_impl; [exact Hf |]. simpl. intros t Ht. lia. }
  split; [lia |]. split.
  { intros t Ht. apply Hw in Ht. apply elem_of_union in Ht as [Ht | Ht].
    - apply elem_of_singleton in Ht. lia.
    - apply Hp in Ht. lia. }
  destruct Hq as [-> | [fn ->]]; [split; assumption |].
  rewrite He. split.
  - apply Forall_app. split; [exact Hold |].
    constructor; [simpl; lia | constructor].
  - rewrite fmap_app. simpl. apply NoDup_app. split; [exact Hn |]. split.
    + intros x Hx Hx'. apply list_elem_of_singleton in Hx'. subst x.
      apply list_elem_of_fmap in Hx as (t & Ht & Hin).
      pose proof (proj1 (Forall_forall _ _) Hf t Hin) as Hr. simpl in Hr. lia.
    + apply NoDup_singleton.
Qed.

Lemma after_take i w :
  tickets_ok w -> tickets_ok (set_workQueue (delete i (workQueue w)) w).
Proof.
  intros (H0 & Hp & Hf & Hn). unfold tickets_ok. simpl.
  repeat split; try assumption; try (apply Hp; assumption).
  - apply Forall_delete. exact Hf.
  - rewrite list_fmap_delete. eapply sublist_NoDup; [exact Hn | apply sublist_delete].
Qed.

Lemma roles_later w w' roles :
  eventId w <= eventId w' ->
  Forall (role_issued w) roles -> Forall (role_issued w') roles.
Proof.
  intros Hle Hr. eapply Forall_impl; [exact Hr |].
  intros [|e]; simpl; [tauto | lia].
Qed.

(** A thread that ran to its next stop under its role leaves the tickets
    in order. *)
Lemma settle_ticketed r n w (o : outcome Z) ts roles s' :
  ticket_out r w o -> role_issued w r ->
  settle o ts = Some s' ->
  Forall2 thread_role roles ts -> Forall (role_issued w) roles ->
  tickets_ok w -> eventId w <= n -> n + 1 < 2147483648 ->
  ticketed (n + 1) s'.
Proof.
  intros Ho Hr Hs Hts Hroles Hok Hn Hb.
  destruct o as [a l w'|g l w' k|l w'|l w'|]; simpl in Hs;
    try discriminate; injection Hs as <-; unfold ticketed; simpl.
  - assert (Hw' : tickets_ok w' /\ eventId w <= eventId w' <= n + 1).
    { destruct r as [|e]; simpl in Ho.
      - destruct Ho as [Ho | Ho].
        + split; [exact (after_idle _ _ Ho Hok) |].
          destruct Ho as (He & _). lia.
        + destruct (after_issue _ _ Ho ltac:(lia) Hok) as [H1 H2].
          split; [exact H1 | lia].
      - split; [exact (after_ticket _ _ _ Ho Hr Hok) |].
        destruct Ho as (He & _). lia. }
    destruct Hw' as [H1 H2]. split; [lia |]. split; [exact H1 |].
    exists roles. split; [exact Hts |].
    eapply roles_later; [| exact Hroles]. lia.
  - assert (Hw' : tickets_ok w' /\ eventId w <= eventId w' <= n + 1 /\
                  exists r', (forall w1, ticket_out r' w1 (k w1)) /\
                             role_issued w' r').
    { destruct r as [|e]; simpl in Ho.
      - destruct Ho as [[Ho Hk] | [Ho Hk]].
        + split; [exact (after_idle _ _ Ho Hok) |].
          destruct Ho as (He & _). split; [lia |].
          exists issuer. split; [exact Hk | exact I].
        + destruct (after_issue _ _ Ho ltac:(lia) Hok) as [H1 H2].
          split; [exact H1 |]. split; [lia |].
          exists (holder (to_int (eventId w'))). split; [exact Hk |].
          simpl. destruct Hok as (H0 & _). rewrite to_int_small by lia. lia.
      - destruct Ho as [Ho Hk].
        split; [exact (after_ticket _ _ _ Ho Hr Hok) |].
        destruct Ho as (He & _). split; [lia |].
        exists (holder e). split; [exact Hk |]. simpl. simpl in Hr. lia. }
    destruct Hw' as (H1 & H2 & r' & Hk & Hr'). split; [lia |].
    split; [exact H1 |].
    exists (roles ++ [r']). split.
    + apply Forall2_app; [exact Hts |]. constructor; [exact Hk | constructor].
    + apply Forall_app. split.
      * eapply roles_later; [| exact Hroles]. lia.
      * constructor; [exact Hr' | constructor].
Qed.

Lemma step_ticketed n a s s' :
  ticketed n s -> n + 1 < 2147483648 -> do_action a s = Some s' ->
  ticketed (n + 1) s'.
Proof.
  intros (Hn & Hok & roles & Hts & Hroles) Hb Hs.
  destruct a as [c|i|i]; simpl in Hs.
  - eapply (settle_ticketed issuer);
      [apply issues_run_callback | exact I | exact Hs | exact Hts
      | exact Hroles | exact Hok | exact Hn | exact Hb].
  - destruct (workQueue (sys_world s) !! i) as [t|] eqn:Ht; [| discriminate].
    pose proof Hok as (H0 & _ & Hf & _).
    pose proof (proj1 (Forall_lookup _ _) Hf i t Ht) as Hr. simpl in Hr.
    refine (settle_ticketed (holder (to_int (t_event t))) n
              (set_workQueue (delete i (workQueue (sys_world s))) (sys_world s))
              _ _ roles s' _ _ Hs Hts Hroles _ Hn Hb).
    + simpl. unfold run_task.
      apply (keeps_run_closure _ _ (stable0_ticket_seg (to_int (t_event t)))).
      reflexivity.
    + simpl. rewrite to_int_small by lia. exact Hr.
    + apply after_take. exact Hok.
  - destruct (parked s !! i) as [th|] eqn:Hth; [| discriminate].
    destruct (guard_ok (th_guard th) (sys_world s)); [| discriminate].
    destruct (Forall2_lookup_r _ _ _ _ _ Hts Hth) as (r & Hr & Hthr).
    eapply (settle_ticketed r).
    + apply Hthr.
    + exact (proj1 (Forall_lookup _ _) Hroles i r Hr).
    + exact Hs.
    + apply Forall2_delete. exact Hts.
    + apply Forall_delete. exact Hroles.
    + exact Hok.
    + exact Hn.
    + exact Hb.
Qed.

Lemma run_ticketed acts : forall n s s',
  ticketed n s -> n + Z.of_nat (length acts) < 2147483648 ->
  run_actions acts s = Some s' ->
  ticketed (n + Z.of_nat (length acts)) s'.
Proof.
  induction acts as [|a acts IH]; intros n s s' Hs Hb Hrun; simpl in Hrun.
  - injection Hrun as <-. simpl. rewrite Z.add_0_r. exact Hs.
  - destruct (do_action a s) as [s1|] eqn:Ha; [| discriminate].
    cbn [length] in Hb |- *. rewrite Nat2Z.inj_succ in Hb |- *.
    replace (n + Z.succ (Z.of_nat (length acts)))
      with ((n + 1) + Z.of_nat (length acts)) by lia.
    apply (IH (n + 1) s1 s'); [| lia | exact Hrun].
    apply (step_ticketed n a s s1); [exact Hs | lia | exact Ha].
Qed.

Lemma boot_ticketed o b os : ticketed 0 (boot o b os).
Proof.
  unfold ticketed, tickets_ok. simpl. split; [lia |]. split.
  - repeat split; try lia; try (apply elem_of_empty in H; destruct H).
    + constructor.
    + constructor.
  - exists []. split; constructor.
Qed.


(** ** Callbacks behind a reader barrier *)

(** What a callback that begins with a [JUST_BARRIER] reader does first. *)
Lemma barrier_first_stop {A : Type} path (body : reader -> M A) l w :
  match reader_waits path JUST_BARRIER w with
  | Some g =>
      exists l1 w1 k,
        obind (cannyfs_reader path JUST_BARRIER l w) body
        = Blocked g l1 w1 k /\ lock_seg w w1
  | None =>
      obind (cannyfs_reader path JUST_BARRIER l w) body
      = body {| r_lock := no_lock;
                r_fileobj := match filemap w !! path with
                             | Some _ => Some path
                             | None => None
                             end |}
          (emit (ev_reader path JUST_BARRIER) l) w
  end.
Proof.
  pose proof (reader_first_stop path JUST_BARRIER l w) as H. cbv zeta in H.
  destruct (reader_waits path JUST_BARRIER w) as [g|].
  - destruct H as (w1 & k & -> & Hseg). cbn [obind]. eauto.
  - rewrite H. reflexivity.
Qed.

(** One system call, the test of its result, and the end of a reader that
    holds nothing. *)
Lemma call_behind_barrier s b l w :
  (forall v, sys_failed s v = (v =? -1)) ->
  r_lock b = no_lock ->
  exists l2,
    (r <- do_sys s ;; res <- zero_or_neg_errno r ;; reader_dtor b ;; ret res)
      l w
    = Ret (if sr_val (answer s w) =? -1 then - sr_errno (answer s w) else 0)
        l2 (called s w).
Proof.
  intros Hs Hb.
  unfold bind, do_sys, zero_or_neg_errno, neg_errno, get_errno, ret,
    reader_dtor, lock_dtor, answer, called. rewrite Hb. simpl.
  rewrite Hs.
  destruct (sr_val (posix w (syslog w) s) =? -1); simpl; eexists; reflexivity.
Qed.

(** X9.  [getattr], [fgetattr] and [statfs] begin with the constructor of
    a [JUST_BARRIER] reader on the path.  Where that has to wait (for the
    lock of the map, the mutex of the record or the pending last event of
    the record) the callback is parked there, having touched nothing but
    locks.  Where it has not, the callback is back at once after exactly
    one system call ([lstat]; [fstat] on [fi->fh] itself, the handle id
    converted to [int], not the descriptor the handle is bound to;
    [statvfs]), with the negated [errno] of the call when it gave -1 and 0
    otherwise.  Whenever the callback is back, the segment it came back in
    changed nothing but locks before that one call, and no thread holds the
    mutex of the path. *)
Theorem barrier_callbacks c path s l w :
  barrier_call c = Some (path, s) ->
  match reader_waits path JUST_BARRIER w with
  | Some g =>
      exists l1 w1 k, run_callback c l w = Blocked g l1 w1 k /\ lock_seg w w1
  | None =>
      exists l1,
        run_callback c l w
        = Ret (if sr_val (answer s w) =? -1 then - sr_errno (answer s w)
               else 0) l1 (called s w)
  end /\
  forall ws r l' w',
    lands w (run_callback c l w) ws r l' w' ->
    at_rest path w' /\
    exists w1,
      lock_seg ws w1 /\ w' = called s w1 /\
      r = if sr_val (answer s w1) =? -1 then - sr_errno (answer s w1) else 0.
Proof.
  intros Hc.
  assert (Hshape :
    run_callback c l w
    = obind (cannyfs_reader path JUST_BARRIER l w)
        (fun b => r <- do_sys s ;; res <- zero_or_neg_errno r ;;
                  reader_dtor b ;; ret res) /\
    forall v, sys_failed s v = (v =? -1)).
  { destruct c; try discriminate; injection Hc as <- <-;
      split; reflexivity. }
  destruct Hshape as (-> & Hs). split.
  - pose proof (barrier_first_stop path
      (fun b => r <- do_sys s ;; res <- zero_or_neg_errno r ;;
                reader_dtor b ;; ret res) l w) as H.
    destruct (reader_waits path JUST_BARRIER w) as [g|]; [exact H |].
    rewrite H. cbv beta.
    destruct (call_behind_barrier s
                {| r_lock := no_lock;
                   r_fileobj := match filemap w !! path with
                                | Some _ => Some path
                                | None => None
                                end |}
                (emit (ev_reader path JUST_BARRIER) l) w Hs eq_refl)
      as (l2 & ->).
    eauto.
  - intros ws r l' w' H.
    apply lands_bind in H. destruct H as (b & l1 & w1 & ws1 & Hrd & H).
    apply (lands_just_barrier path w l w ws1 b l1 w1 (lock_seg_refl w))
      in Hrd.
    destruct Hrd as (Hseg & _ & Hb & Hrest & _).
    destruct (call_behind_barrier s b l1 w1 Hs Hb) as (l2 & Hcall).
    rewrite Hcall in H. apply lands_ret_inv in H.
    destruct H as (-> & -> & -> & ->).
    split; [exact Hrest |]. exists w1. auto.
Qed.

(** X24.  [cannyfs_readlink] computes [size - 1] in [size_t]: with
    [size = 0] it asks [readlink] for up to [SIZE_MAX] bytes.  Where its
    barrier has nothing to wait for it is back at once after that one
    call.  What the call gave is narrowed to [int]: when that is -1 the
    callback gives the negated [errno] (the one of this call only if the
    call itself gave -1); otherwise it writes the terminator at [buf[res]]
    and gives 0, not the length; a [res] outside the [size] bytes of [buf]
    makes that write undefined. *)
Theorem readlink_size_wraps path size l w :
  let s := sys_readlink path (to_size_t (size - 1)) in
  let res := to_int (sr_val (answer s w)) in
  (size = 0 -> s = sys_readlink path 18446744073709551615) /\
  (reader_waits path JUST_BARRIER w = None ->
   exists l1,
     cannyfs_readlink path size l w
     = if res =? -1
       then Ret (- (if sr_val (answer s w) =? -1 then sr_errno (answer s w)
                    else errno l)) l1 (called s w)
       else if (0 <=? res) && (res <? size) then Ret 0 l1 (called s w)
            else Undefined l1 (called s w)).
Proof.
  intros s res. split.
  - intros ->. reflexivity.
  - intros Hw.
    pose proof (barrier_first_stop path
      (fun b =>
         r <- do_sys (sys_readlink path (to_size_t (size - 1))) ;;
         let res := to_int (sr_val r) in
         ret' <- (if res =? -1 then neg_errno
                  else if (0 <=? res) && (res <? size) then ret 0
                       else undefined) ;;
         reader_dtor b ;;
         ret ret') l w) as H.
    rewrite Hw in H.
    assert (Hshape :
      cannyfs_readlink path size l w
      = obind (cannyfs_reader path JUST_BARRIER l w)
          (fun b =>
             r <- do_sys (sys_readlink path (to_size_t (size - 1))) ;;
             let res := to_int (sr_val r) in
             ret' <- (if res =? -1 then neg_errno
                      else if (0 <=? res) && (res <? size) then ret 0
                           else undefined) ;;
             reader_dtor b ;;
             ret ret')) by reflexivity.
    rewrite Hshape, H. clear Hshape H. cbv beta.
    unfold bind, do_sys, neg_errno, get_errno, ret, undefined, reader_dtor,
      lock_dtor. simpl. fold s. fold (answer s w). fold res.
    fold (called s w).
    destruct (res =? -1).
    + simpl. destruct (sr_val (answer s w) =? -1); simpl; eexists; reflexivity.
    + destruct ((0 <=? res) && (res <? size)); simpl;
        destruct (sr_val (answer s w) =? -1); simpl; eexists; reflexivity.
Qed.





(** X11.  [opendir] begins with the constructor of a [JUST_BARRIER] reader,
    on the path, or on "" when [restrictivedirs] is set; where that has to
    wait the callback is parked there, having touched nothing but locks.
    Whenever the callback is back, then in the segment it came back in it
    allocated one [cannyfs_dirp], at an address that is not null and was
    not in use, and made the one call [opendir(path)].  When that gave the
    null pointer the callback gives the negated [errno] of the call, has
    freed the [cannyfs_dirp] again and leaves [fi->fh] as it was; otherwise
    it gives 0 and [fi->fh] is the address of the [cannyfs_dirp], which
    holds the directory stream, no entry and offset 0. *)
Theorem opendir_result path fi l w :
  let p := if restrictivedirs (options w) then "" else path in
  let s := sys_opendir path in
  (forall g,
     reader_waits p JUST_BARRIER w = Some g ->
     exists l1 w1 k,
       cannyfs_opendir path fi l w = Blocked g l1 w1 k /\ lock_seg w w1) /\
  forall ws r l' w',
    lands w (cannyfs_opendir path fi l w) ws r l' w' ->
    let d := operator_new (build ws) (dom (dirps ws)) in
    let sr := answer s ws in
    d <> 0 /\ (d ∉ dom (dirps ws)) /\
    syslog w' = syslog ws ++ [(s, sr)] /\
    fhs w' = fhs ws /\
    at_rest p w' /\
    if sr_val sr =? 0
    then r = (- sr_errno sr, fi) /\ dirps w' = dirps ws
    else r = (0, {| fi_flags := fi_flags fi; fi_fh := d |}) /\
         dirps w' = <[d := {| dirp_dp := sr_val sr; dirp_entry := None;
                              dirp_offset := 0 |}]> (dirps ws).
Proof.
  intros p s.
  set (body := fun b : reader =>
         d <- new_dirp ;;
         res <- (if d =? 0 then ret (- ENOMEM, fi)
                 else
                   r <- do_sys (sys_opendir path) ;;
                   set_dirp d {| dirp_dp := sr_val r;
                                 dirp_entry := dirp_entry blank_dirp;
                                 dirp_offset := dirp_offset blank_dirp |} ;;
                   if sr_val r =? 0 then
                     res <- neg_errno ;;
                     free_dirp d ;;
                     ret (res, fi)
                   else
                     set_dirp d {| dirp_dp := sr_val r; dirp_entry := None;
                                   dirp_offset := 0 |} ;;
                     ret (0, {| fi_flags := fi_flags fi; fi_fh := d |})) ;;
         reader_dtor b ;;
         ret res).
  assert (Hshape :
    cannyfs_opendir path fi l w
    = obind (cannyfs_reader p JUST_BARRIER l w) body) by reflexivity.
  rewrite Hshape. clear Hshape. split.
  - intros g Hg. pose proof (barrier_first_stop p body l w) as H.
    rewrite Hg in H. exact H.
  - intros ws r l' w' H.
    apply lands_bind in H. destruct H as (b & l1 & w1 & ws1 & Hrd & H).
    apply (lands_just_barrier p w l w ws1 b l1 w1 (lock_seg_refl w)) in Hrd.
    destruct Hrd as (Hseg & _ & Hb & Hrest & _).
    pose proof (lock_is_barrier_seg _ _ Hseg) as Hbs.
    assert (Hd : dirps w1 = dirps ws1).
    { destruct Hbs as (_ & _ & _ & _ & _ & _ & _ & _ & _ & _ & Hd).
      exact Hd. }
    unfold body, new_dirp, bind at 1 2 3, get at 1 2 in H.
    cbn [obind] in H.
    rewrite (barrier_seg_build _ _ Hbs), Hd in H.
    cbv zeta. unfold answer.
    remember (operator_new (build ws1) (dom (dirps ws1))) as d eqn:Ed.
    destruct (d =? 0) eqn:Hd0; [simpl in H; inversion H |].
    destruct (bool_decide (d ∈ dom (dirps ws1))) eqn:Hin;
      [simpl in H; inversion H |].
    apply bool_decide_eq_false in Hin. apply Z.eqb_neq in Hd0.
    cbn [orb obind] in H.
    assert (Hd0' : (d =? 0) = false) by (apply Z.eqb_neq; exact Hd0).
    unfold bind at 1, modify at 1, ret at 1 in H. cbn [obind] in H.
    rewrite Hd0' in H.
    unfold bind at 1 2, do_sys in H. cbn [obind] in H.
    unfold bind at 1, set_dirp, modify in H. cbn [obind] in H.
    simpl posix in H. simpl syslog in H.
    destruct Hbs as (_ & _ & Hp & Hs & _ & Hf & _).
    assert (Hrest' : forall m h, at_rest p (set_dirps m (set_syslog h w1))).
    { intros m h. exact Hrest. }
    destruct (sr_val (posix w1 (syslog w1) (sys_opendir path)) =? 0) eqn:Hv.
    + unfold bind, neg_errno, get_errno, free_dirp, modify, ret, reader_dtor,
        lock_dtor in H. rewrite Hb in H. simpl in H. rewrite Hv in H.
      simpl in H. apply lands_ret_inv in H.
      destruct H as (-> & -> & _ & ->). simpl. unfold s.
      rewrite <- Ed, <- Hp, <- Hs, Hv.
      repeat split; try assumption.
      rewrite insert_insert_eq, Hd. apply delete_insert_id.
      apply not_elem_of_dom. exact Hin.
    + unfold bind, ret, reader_dtor, lock_dtor, modify in H. rewrite Hb in H.
      simpl in H. rewrite Hv in H. simpl in H. apply lands_ret_inv in H.
      destruct H as (-> & -> & _ & ->). simpl. unfold s.
      rewrite <- Ed, <- Hp, <- Hs, Hv.
      repeat split; try assumption.
      rewrite !insert_insert_eq, Hd. reflexivity.
Qed.

(** ** Closures *)

Lemma closed_free path t w :
  is_Some (filemap w !! path) ->
  mutex_free path
    (set_locked path false
       (if String.eqb path "" then erase_event t w else w)) = true.
Proof.
  intros H. apply mutex_free_unlocked.
  destruct (String.eqb path ""); exact H.
Qed.

Lemma closed_at_rest path t w :
  at_rest path
    (set_locked path false
       (if String.eqb path "" then erase_event t w else w)).
Proof. apply at_rest_unlocked. Qed.

(** X6.  Whenever the closure of [chmod] or [chown] has run to its end
    (inline or on a worker), then in the segment it came back in its
    thread made exactly one system call, [chmod] or [lchown] on the path;
    the result is the negated [errno] of that call when it gave -1 and 0
    otherwise; the handle table is as it was; and the path has a record
    whose mutex is free. *)
Theorem path_closure_runs path f t w0 l0 ws r l' w' :
  lands w0 (run_closure (on_path path f) t l0 w0) ws r l' w' ->
  let s := path_call f path in
  syslog w' = syslog ws ++ [(s, answer s ws)] /\
  r = (if sr_val (answer s ws) =? -1 then - sr_errno (answer s ws) else 0) /\
  fhs w' = fhs ws /\
  mutex_free path w' = true.
Proof.
  intros H. apply lands_closure_path in H.
  destruct H as (w1 & Hseg & Hh & _ & H). cbv zeta in H.
  destruct H as (-> & ->). cbv zeta.
  rewrite closed_syslog, closed_fhs, (barrier_seg_answer _ _ _ Hseg).
  split; [apply (barrier_seg_called _ _ _ Hseg) |].
  split; [reflexivity |].
  split; [exact (barrier_seg_fhs _ _ Hseg) |].
  apply closed_free. exact (mutex_held_is_Some _ _ Hh).
Qed.

(** The lambdas of [cannyfs_flush] and [cannyfs_release]. *)
Lemma lands_flush_fun path fi ws1 l1 w1 ws r l2 w2 :
  barrier_seg ws1 w1 ->
  lands ws1 (run_fi_fun flush_fun path fi l1 w1) ws r l2 w2 ->
  exists wm,
    barrier_seg ws wm /\
    let fd := fd_of (handle_of fi) wm in
    let d := answer (sys_dup fd) wm in
    let c := answer (sys_close (sr_val d)) (called (sys_dup fd) wm) in
    fd <> -1 /\
    w2 = called (sys_close (sr_val d)) (called (sys_dup fd) wm) /\
    r = if sr_val c =? -1 then - sr_errno c else 0.
Proof.
  intros Hseg H. unfold run_fi_fun, bind at 1 in H.
  apply lands_bind in H. destruct H as (fd & l3 & w3 & ws3 & Hfd & H).
  apply lands_getfh_fi in Hfd.
  destruct Hfd as (-> & Hfd & Hne & _ & _ & Hcase).
  unfold bind, do_sys, zero_or_neg_errno, neg_errno, get_errno, ret in H.
  simpl in H. exists w3.
  assert (Hs3 : barrier_seg ws3 w3).
  { destruct Hcase as [(-> & ->) | ->];
      [exact Hseg | apply barrier_seg_refl]. }
  cbv zeta. unfold answer, called. simpl. rewrite <- Hfd.
  destruct (sr_val
              (posix w3 (syslog w3 ++ [(sys_dup fd, posix w3 (syslog w3) (sys_dup fd))])
                 (sys_close (sr_val (posix w3 (syslog w3) (sys_dup fd))))) =? -1);
    simpl in H; apply lands_ret_inv in H; destruct H as (-> & -> & _ & ->);
    auto.
Qed.

Lemma lands_release_fun path fi ws1 l1 w1 ws r l2 w2 :
  barrier_seg ws1 w1 ->
  lands ws1 (run_fi_fun release_fun path fi l1 w1) ws r l2 w2 ->
  exists wm,
    barrier_seg ws wm /\
    let fd := fd_of (handle_of fi) wm in
    fd <> -1 /\
    w2 = called (sys_close fd) wm /\
    r = sr_val (answer (sys_close fd) wm).
Proof.
  intros Hseg H. unfold run_fi_fun, bind at 1 in H.
  apply lands_bind in H. destruct H as (fd & l3 & w3 & ws3 & Hfd & H).
  apply lands_getfh_fi in Hfd.
  destruct Hfd as (-> & Hfd & Hne & _ & _ & Hcase).
  unfold bind, do_sys, ret in H. simpl in H.
  apply lands_ret_inv in H. destruct H as (-> & -> & _ & ->).
  exists w3. cbv zeta. rewrite <- Hfd.
  split; [destruct Hcase as [(-> & ->) | ->];
            [exact Hseg | apply barrier_seg_refl] |].
  auto.
Qed.

(** X14.  Whenever the closure of [flush] or of [release] has run to its
    end, then in the segment it came back in the handle [fi->fh] was bound
    and the thread made these calls and no other: for [flush], [dup] on the
    bound descriptor and [close] on what [dup] gave (never on the
    descriptor itself), with the negated [errno] of [close] as the result
    when it gave -1 and 0 otherwise; for [release], [close] on the bound
    descriptor, with what [close] gave as the result (-1 when it failed,
    not the negated [errno]).  Either way the handle table is as it was, so
    that after [release] the handle still names the closed descriptor, and
    no thread holds the mutex of the path. *)
Theorem close_closures_run path fi t w0 l0 ws r l' w' :
  (lands w0 (run_closure (on_path_fi path fi flush_fun) t l0 w0) ws r l' w' ->
   let fd := fd_of (handle_of fi) ws in
   let d := answer (sys_dup fd) ws in
   let c := posix ws (syslog ws ++ [(sys_dup fd, d)]) (sys_close (sr_val d)) in
   fd <> -1 /\
   syslog w' = syslog ws ++ [(sys_dup fd, d); (sys_close (sr_val d), c)] /\
   r = (if sr_val c =? -1 then - sr_errno c else 0) /\
   fhs w' = fhs ws /\ at_rest path w') /\
  (lands w0 (run_closure (on_path_fi path fi release_fun) t l0 w0) ws r l' w' ->
   let fd := fd_of (handle_of fi) ws in
   let c := answer (sys_close fd) ws in
   fd <> -1 /\
   syslog w' = syslog ws ++ [(sys_close fd, c)] /\
   r = sr_val c /\
   fhs w' = fhs ws /\ at_rest path w').
Proof.
  split; intros H; apply lands_closure_fi in H;
    destruct H as (ws1 & w1 & l2 & w2 & Hseg & _ & _ & H & -> & _).
  - apply (lands_flush_fun _ _ _ _ _ _ _ _ _ Hseg) in H.
    destruct H as (wm & Hsm & H). cbv zeta in H.
    rewrite (barrier_seg_fd_of _ _ _ Hsm) in H.
    destruct H as (Hne & -> & ->). cbv zeta.
    rewrite closed_syslog, closed_fhs.
    split; [exact Hne |].
    unfold answer, called. simpl.
    rewrite (barrier_seg_syslog _ _ Hsm).
    destruct Hsm as (_ & _ & Hp & _ & _ & Hf & _). rewrite Hp.
    split; [rewrite <- app_assoc; reflexivity |].
    split; [reflexivity |]. split; [exact Hf | apply at_rest_unlocked].
  - apply (lands_release_fun _ _ _ _ _ _ _ _ _ Hseg) in H.
    destruct H as (wm & Hsm & H). cbv zeta in H.
    rewrite (barrier_seg_fd_of _ _ _ Hsm) in H.
    destruct H as (Hne & -> & ->). cbv zeta.
    rewrite closed_syslog, closed_fhs.
    rewrite (barrier_seg_called _ _ _ Hsm), (barrier_seg_answer _ _ _ Hsm).
    split; [exact Hne |]. split; [reflexivity |]. split; [reflexivity |].
    split; [exact (barrier_seg_fhs _ _ Hsm) | apply at_rest_unlocked].
Qed.


(** The constructor of a writer on a path other than "", where it has
    nothing to wait for and where a thread holds the mutex of the path. *)
Lemma writer_ctor_free n path flag e l w :
  path <> "" ->
  get_waits path true w = None ->
  cannyfs_writer (S n) path flag e l w
  = Ret (mk_writer (if flag =? LOCK_WHOLE then owned path else no_lock)
           (Some path) None e true)
      (emit (ev_writer path flag e) l) (acquired path (insert_event e w)).
Proof.
  intros Hp Hw. apply String.eqb_neq in Hp.
  simpl. rewrite Hp. simpl.
  unfold bind at 1, log at 1. cbn [obind].
  unfold bind at 1, modify at 1. cbn [obind]. unfold bind at 1.
  pose proof (filemap_get_first_stop path true
                (emit (ev_writer path flag e) l) (insert_event e w)) as H.
  change (get_waits path true (insert_event e w))
    with (get_waits path true w) in H.
  rewrite Hw in H.
  assert (H' : filemap_get path true no_lock (emit (ev_writer path flag e) l)
                 (insert_event e w)
               = Ret (Some path, owned path) (emit (ev_writer path flag e) l)
                   (acquired path (insert_event e w))).
  { rewrite H. destruct (filemap (insert_event e w) !! path); reflexivity. }
  rewrite H'. cbn [obind]. unfold bind, get, ret. simpl.
  destruct (flag =? LOCK_WHOLE); reflexivity.
Qed.

Lemma writer_ctor_held n path flag e l w :
  path <> "" ->
  map_exclusive w = false ->
  mutex_held path w ->
  exists k,
    cannyfs_writer (S n) path flag e l w
    = Blocked (on_mutex path) (emit (ev_writer path flag e) l)
        (set_map_shared (S (map_shared w)) (insert_event e w)) k.
Proof.
  intros Hp He Hh. apply String.eqb_neq in Hp.
  simpl. rewrite Hp. simpl.
  unfold bind at 1, log at 1. cbn [obind].
  unfold bind at 1, modify at 1. cbn [obind]. unfold bind at 1.
  destruct (filemap_get_held path true no_lock
              (emit (ev_writer path flag e) l) (insert_event e w))
    as (k & Hk); [exact He | exact Hh |].
  rewrite Hk. cbn [obind]. eauto.
Qed.

Lemma reader_ctor_held path flag l w :
  map_exclusive w = false ->
  mutex_held path w ->
  exists k,
    cannyfs_reader path flag l w
    = Blocked (on_mutex path) (emit (ev_reader path flag) l)
        (set_map_shared (S (map_shared w)) w) k.
Proof.
  intros He Hh.
  unfold cannyfs_reader, bind at 1, log at 1. cbn [obind]. unfold bind at 1.
  destruct (filemap_get_held path (flag =? LOCK_WHOLE) no_lock
              (emit (ev_reader path flag) l) w He Hh) as (k & Hk).
  rewrite Hk. cbn [obind]. eauto.
Qed.

Lemma get_waits_none_exclusive path always w :
  get_waits path always w = None -> map_exclusive w = false.
Proof.
  unfold get_waits. destruct (map_exclusive w); [discriminate | reflexivity].
Qed.

Lemma map_exclusive_acquired path w :
  map_exclusive (acquired path w) = map_exclusive w.
Proof. unfold acquired. destruct (filemap w !! path); reflexivity. Qed.

Lemma fhs_acquired path w : fhs (acquired path w) = fhs w.
Proof. unfold acquired. destruct (filemap w !! path); reflexivity. Qed.

(** X19.  A closure that needs the descriptor (the ones of [flush],
    [release] and [fsync]), run on a path other than "" while its handle
    is unbound and nothing makes its writer wait, parks the thread inside
    its [LOCK_WHOLE] writer: it waits for the handle with the mutex of the
    path held and its ticket pending.  In the world it parks in, every
    reader barrier on the path waits for that mutex, and so does the
    closure of [cannyfs_create] for the path, the one that would bind a
    handle of that file; a thread that waits for the mutex holds the lock
    of the map shared while it waits, so that in the world the closure of
    [cannyfs_create] parks in, [get] on any path that has no record yet
    waits for the lock of the map. *)
Theorem closure_parks_holding_mutex path fi f e l w :
  needs_descriptor f = true ->
  path <> "" ->
  0 <= to_int (fi_fh fi) < Z.of_nat (length (fhs w)) ->
  fd_of (handle_of fi) w = -1 ->
  get_waits path true w = None ->
  let w1 := acquired path (insert_event e w) in
  (exists l1 k,
     run_closure (on_path_fi path fi f) e l w
     = Blocked (on_opened (handle_of fi)) l1 w1 k) /\
  mutex_held path w1 /\
  fd_of (handle_of fi) w1 = -1 /\
  e ∈ waitingEvents w1 /\
  (forall flag l', exists l2 w2 k',
     cannyfs_reader path flag l' w1 = Blocked (on_mutex path) l2 w2 k') /\
  (forall mode fi' e' l',
     let w2 := set_map_shared (S (map_shared w1)) (insert_event e' w1) in
     (exists l2 k',
        run_closure (on_path_fi path fi' (create_fun mode)) e' l' w1
        = Blocked (on_mutex path) l2 w2 k') /\
     forall p l3,
       filemap w1 !! p = None ->
       exists k3,
         filemap_get p true no_lock l3 w2 = Blocked on_map_exclusive l3 w2 k3).
Proof.
  intros Hf Hp Hr Hu Hw w1.
  pose proof (get_waits_none_exclusive _ _ _ Hw) as He.
  assert (He1 : map_exclusive w1 = false)
    by (unfold w1; rewrite map_exclusive_acquired; exact He).
  assert (Hh : mutex_held path w1) by apply mutex_held_acquired.
  assert (Hfhs : fhs w1 = fhs w) by (unfold w1; rewrite fhs_acquired; reflexivity).
  assert (Hr1 : 0 <= to_int (fi_fh fi) < Z.of_nat (length (fhs w1)))
    by (rewrite Hfhs; exact Hr).
  assert (Hu1 : fd_of (handle_of fi) w1 = -1)
    by (unfold fd_of; rewrite Hfhs; exact Hu).
  set (l0 := emit (ev_writer path LOCK_WHOLE e) l).
  destruct (getfh_fi_unbound fi l0 w1 Hr1 Hu1) as (k & Hk).
  assert (Hbody : exists k',
            run_fi_fun f path fi l0 w1
            = Blocked (on_opened (handle_of fi)) l0 w1 k').
  { destruct f as [mode| | |isdatasync]; try discriminate;
      unfold run_fi_fun.
    - unfold bind at 1. rewrite Hk. cbn [obind]. eauto.
    - unfold bind at 1. rewrite Hk. cbn [obind]. eauto.
    - unfold bind at 1, get at 1. cbn [obind]. unfold bind at 1.
      destruct (HAVE_FDATASYNC (build w1) && negb (isdatasync =? 0));
        unfold bind at 1; rewrite Hk; cbn [obind]; eauto. }
  destruct Hbody as (k' & Hk').
  split; [| split; [exact Hh | split; [exact Hu1 | split; [| split]]]].
  - rewrite run_closure_on_path_fi. unfold bind at 1, writer_fuel.
    rewrite (writer_ctor_free _ path LOCK_WHOLE e l w Hp Hw).
    cbn [obind]. fold l0. fold w1. unfold bind at 1. rewrite Hk'.
    cbn [obind]. eauto.
  - unfold w1. rewrite waitingEvents_acquired. simpl.
    apply elem_of_union_l, elem_of_singleton. reflexivity.
  - intros flag l'.
    destruct (reader_ctor_held path flag l' w1 He1 Hh) as (k2 & Hk2). eauto.
  - intros mode fi' e' l' w2. split.
    + rewrite run_closure_on_path_fi. unfold bind at 1.
      destruct (writer_ctor_held 1 path LOCK_WHOLE e' l' w1 Hp He1 Hh)
        as (k2 & Hk2).
      unfold writer_fuel. rewrite Hk2. cbn [obind]. eauto.
    + intros p l3 Hn.
      apply filemap_get_map_shared; [exact He1 | discriminate | exact Hn].
Qed.

(** ** What a reader barrier waits for on a run *)

Lemma get_waits_guard path always w g :
  get_waits path always w = Some g ->
  g = on_map_shared \/ g = on_mutex path \/ g = on_map_exclusive.
Proof.
  unfold get_waits. destruct (map_exclusive w); [intros [= <-]; auto |].
  destruct (filemap w !! path) as [d|].
  - destruct (fd_locked d); [intros [= <-]; auto | discriminate].
  - destruct (always && negb (map_shared w =? 0)%nat);
      [intros [= <-]; auto | discriminate].
Qed.

(** Where no record has [lastEventId] set and ticket 0 is not pending, the
    constructor of a reader does not wait on [processed]: it is back at
    once, or it first waits for the lock of the map or for the mutex of the
    path. *)
Lemma reader_skips_barrier w :
  (forall p, last_event_of p w = 0) -> 0 ∉ waitingEvents w ->
  forall path flag l,
    match cannyfs_reader path flag l w with
    | Ret _ _ _ => True
    | Blocked g _ _ _ =>
        g = on_map_shared \/ g = on_mutex path \/ g = on_map_exclusive
    | _ => False
    end.
Proof.
  intros Hz H0 path flag l.
  pose proof (reader_first_stop path flag l w) as H. cbv zeta in H.
  destruct (reader_waits path flag w) as [g|] eqn:Hg.
  - destruct H as (w1 & k & -> & _).
    unfold reader_waits in Hg.
    destruct (get_waits path (flag =? LOCK_WHOLE) w) as [g'|] eqn:Hg'.
    + injection Hg as <-. eapply get_waits_guard. exact Hg'.
    + rewrite Hz, (bool_decide_eq_false_2 _ H0), andb_false_r in Hg.
      discriminate.
  - rewrite H. destruct (flag =? LOCK_WHOLE); exact I.
Qed.

(** X17.  No code assigns [lastEventId]: in every state the program
    reaches, every path record has [lastEventId = 0], so the snapshot a
    reader barrier takes is always 0.  As long as ticket 0 is not pending,
    the constructor of a reader never first waits on the condition variable
    [processed]: it is back at once, or it first waits for the lock of the
    map or for the mutex of the path. *)
Theorem last_event_never_set o b os s :
  reachable (boot o b os) s ->
  let w := sys_world s in
  (forall p, last_event_of p w = 0) /\
  (0 ∉ waitingEvents w ->
   forall path flag l,
     match cannyfs_reader path flag l w with
     | Ret _ _ _ => True
     | Blocked g _ _ _ =>
         g = on_map_shared \/ g = on_mutex path \/ g = on_map_exclusive
     | _ => False
     end).
Proof.
  intros Hs w. split.
  - apply (reached_events_unset o b os s Hs).
  - apply reader_skips_barrier. apply (reached_events_unset o b os s Hs).
Qed.

(** X23.  Tickets are counted from 1 and each is issued once.  In a run of
    fewer than 2^31 actions from start-up the counter [eventId] is at most
    the number of actions; every ticket pending in [waitingEvents] and every
    ticket of a task in [workQueue] lies between 1 and [eventId]; no two
    queued tasks have the same ticket.  So ticket 0, the only value a reader
    barrier ever looks for, is never pending, and the constructor of a
    reader never first waits on [processed]: it is back at once, or it
    first waits for the lock of the map or for the mutex of the path. *)
Theorem tickets_are_fresh o b os acts s :
  run_actions acts (boot o b os) = Some s ->
  Z.of_nat (length acts) < 2147483648 ->
  let w := sys_world s in
  0 <= eventId w <= Z.of_nat (length acts) /\
  (forall t, t ∈ waitingEvents w -> 1 <= t <= eventId w) /\
  Forall (fun t => 1 <= t_event t <= eventId w) (workQueue w) /\
  NoDup (t_event <$> workQueue w) /\
  (0 ∉ waitingEvents w) /\
  (forall path flag l,
     match cannyfs_reader path flag l w with
     | Ret _ _ _ => True
     | Blocked g _ _ _ =>
         g = on_map_shared \/ g = on_mutex path \/ g = on_map_exclusive
     | _ => False
     end).
Proof.
  intros Hrun Hb w.
  destruct (run_ticketed acts 0 (boot o b os) s (boot_ticketed o b os)
              ltac:(lia) Hrun) as (Hn & (H0 & Hp & Hf & Hd) & _).
  fold w in Hn, H0, Hp, Hf, Hd.
  assert (Hnot : 0 ∉ waitingEvents w) by (intros Hin; apply Hp in Hin; lia).
  split; [lia |]. split; [exact Hp |]. split; [exact Hf |].
  split; [exact Hd |]. split; [exact Hnot |].
  apply reader_skips_barrier; [| exact Hnot].
  apply (reached_events_unset o b os s). apply (reachable_run acts).
  exact Hrun.
Qed.

(** ** The barrier of a reader *)





(** ** The theorems at concrete inputs *)

Lemma ran {A : Type} (o : outcome A) :
  is_Some (result_of o) -> exists a l w, o = Ret a l w /\ returns o a l w.
Proof.
  destruct o as [a l w| | | |]; intros [x Hx]; try discriminate.
  exists a, l, w. split; [reflexivity | constructor].
Qed.


Lemma run_after acts s :
  option_map (fun _ => tt) (run_actions acts s) = Some tt ->
  run_actions acts s = Some (after acts s).
Proof.
  unfold after. destruct (run_actions acts s); [reflexivity | discriminate].
Qed.

Lemma reachable_toy_opened : reachable toy_boot toy_opened.
Proof.
  apply (reachable_run [call (cb_open "/a" toy_fi)]).
  apply run_after. vm_compute. reflexivity.
Qed.

Lemma reachable_toy_later : reachable toy_opened toy_later.
Proof.
  apply (reachable_run
           [call (cb_chmod "/a" 384); work 0%nat; call (cb_open "/a" toy_fi)]).
  apply run_after. vm_compute. reflexivity.
Qed.

Lemma toy_fi_in_range :
  0 <= to_int (fi_fh toy_fi) < Z.of_nat (length (fhs opened_world)).
Proof. vm_compute. split; [discriminate | reflexivity]. Qed.




Lemma cannyfs_access_policy_witness :
  cannyfs_access "/a" 4 fresh (toy_world (default_options true))
    = Ret 0 fresh (toy_world (default_options true)) /\
  (exists r l' w',
     cannyfs_access "/a" 4 fresh (toy_world eager_options) = Ret r l' w' /\
     r = 0 /\ syslog w' = syslog (toy_world eager_options)) /\
  (exists r l' w',
     cannyfs_access "/a" 4 fresh (toy_world careful_options) = Ret r l' w' /\
     exists w1,
       lock_seg (toy_world careful_options) w1 /\
       w' = called (sys_access "/a" 4) w1).
Proof.
  split; [| split].
  - apply (proj1 (cannyfs_access_policy "/a" 4 fresh
                    (toy_world (default_options true)))).
    reflexivity.
  - destruct (landed (cannyfs_access "/a" 4 fresh (toy_world eager_options))
                (toy_world eager_options)) as (r & l' & w' & Ho & Hl).
    { vm_compute. eauto. }
    exists r, l', w'. split; [exact Ho |].
    destruct (proj2 (proj2 (cannyfs_access_policy "/a" 4 fresh
                              (toy_world eager_options)) eq_refl)
                _ _ _ _ Hl) as (_ & w1 & Hseg & Hr & ->).
    split; [exact Hr |].
    exact (barrier_seg_syslog _ _ (lock_is_barrier_seg _ _ Hseg)).
  - destruct (landed (cannyfs_access "/a" 4 fresh (toy_world careful_options))
                (toy_world careful_options)) as (r & l' & w' & Ho & Hl).
    { vm_compute. eauto. }
    exists r, l', w'. split; [exact Ho |].
    destruct (proj2 (proj2 (cannyfs_access_policy "/a" 4 fresh
                              (toy_world careful_options)) eq_refl)
                _ _ _ _ Hl) as (_ & w1 & Hseg & Hw & _).
    exists w1. split; [exact Hseg | exact Hw].
Defined.

Lemma cannyfs_fsync_policy_witness :
  let t := {| t_event := 1; t_fun := on_path_fi "/a" toy_fi (fsync_fun 0) |} in
  cannyfs_fsync "/a" 0 toy_fi fresh (toy_world (default_options true))
    = Ret 0 fresh (toy_world (default_options true)) /\
  cannyfs_fsync "/a" 0 toy_fi fresh (toy_world eager_options)
    = Ret 0 fresh
        (enqueued (on_path_fi "/a" toy_fi (fsync_fun 0))
           (toy_world eager_options)) /\
  exists r l' w',
    run_task t fresh opened_world = Ret r l' w' /\
    fd_of (handle_of toy_fi) opened_world <> -1 /\
    fhs w' = fhs opened_world /\
    at_rest "/a" w'.
Proof.
  intros t. split; [| split].
  - apply (proj1 (cannyfs_fsync_policy "/a" 0 toy_fi fresh
                    (toy_world (default_options true)))).
    reflexivity.
  - exact (proj1 (proj2 (cannyfs_fsync_policy "/a" 0 toy_fi fresh
                           (toy_world eager_options))) eq_refl eq_refl).
  - destruct (landed (run_task t fresh opened_world) opened_world)
      as (r & l' & w' & Ho & Hl).
    { vm_compute. eauto. }
    exists r, l', w'. split; [exact Ho |].
    destruct (proj2 (proj2 (cannyfs_fsync_policy "/a" 0 toy_fi fresh
                              opened_world))
                t fresh opened_world opened_world r l' w' eq_refl Hl)
      as (Hne & _ & _ & Hf & Hr).
    split; [exact Hne | split; [exact Hf | exact Hr]].
Defined.

Lemma handle_round_trip_witness :
  getnewfh fresh (toy_world (default_options true))
  = Ret 0%nat fresh (grown (toy_world (default_options true))).
Proof.
  exact (proj1 (handle_round_trip 3 fresh (toy_world (default_options true))
                  eq_refl)).
Defined.

Lemma getcfh_int_index_witness :
  getcfh 0 fresh opened_world = Ret 0%nat fresh opened_world.
Proof.
  apply (proj1 (proj2 (getcfh_int_index 0 fresh opened_world))).
  - exact toy_fi_in_range.
  - reflexivity.
Defined.

Lemma eager_calls_return_at_once_witness :
  cannyfs_chmod "/a" 384 fresh (toy_world (default_options true))
  = Ret 0 fresh
      (enqueued (on_path "/a" (chmod_fun 384))
         (toy_world (default_options true))) /\
  cannyfs_chmod "/a" 384 fresh (toy_world lazy_options)
  = run_closure (on_path "/a" (chmod_fun 384)) 1 fresh
      (set_eventId 1 (toy_world lazy_options)).
Proof.
  split.
  - apply (proj1 (proj1 (eager_calls_return_at_once fresh
                           (toy_world (default_options true))) "/a" 384)).
    reflexivity.
  - apply (proj2 (proj1 (eager_calls_return_at_once fresh
                           (toy_world lazy_options)) "/a" 384)).
    reflexivity.
Defined.

Lemma direct_callbacks_never_wait_witness :
  exists r l' w',
    run_callback (cb_mkdir "/d" 493) fresh (toy_world (default_options true))
    = Ret r l' w'.
Proof.
  destruct (direct_callbacks_never_wait (cb_mkdir "/d" 493)
              (sys_mkdir "/d" 493) fresh (toy_world (default_options true))
              eq_refl) as (l' & H & _).
  eauto.
Defined.

Lemma just_barrier_writer_aborts_witness :
  exists wr l' w' w'',
    cannyfs_writer writer_fuel "/a" JUST_BARRIER 1 fresh
      (toy_world (default_options true)) = Ret wr l' w' /\
    writer_dtor wr l' w' = Aborted l' w''.
Proof.
  destruct (ran (cannyfs_writer writer_fuel "/a" JUST_BARRIER 1 fresh
                   (toy_world (default_options true))))
    as (wr & l' & w' & Ho & Hr).
  { vm_compute. eauto. }
  destruct (just_barrier_writer_aborts _ _ _ _ _ _ _ Hr) as (_ & _ & w'' & Hd).
  exists wr, l', w', w''. split; [exact Ho | exact Hd].
Defined.

Lemma read_waits_for_handle_only_witness :
  exists r l' w',
    cannyfs_read "/a" 10 0 toy_fi fresh opened_world = Ret r l' w'.
Proof.
  destruct (proj1 (read_waits_for_handle_only "/a" 10 0 toy_fi fresh
                     opened_world toy_fi_in_range))
    as (l' & H & _).
  { vm_compute. discriminate. }
  eauto.
Defined.

Lemma nothing_is_freed_witness :
  freefhs (sys_world toy_later) = [] /\
  (length (fhs (sys_world toy_opened))
   <= length (fhs (sys_world toy_later)))%nat.
Proof.
  pose proof (nothing_is_freed (default_options true) toy_build
                (toy_os toy_files) toy_opened toy_later
                reachable_toy_opened reachable_toy_later) as H.
  split; [exact (proj1 H) | exact (proj1 (proj2 (proj2 (proj2 H))))].
Defined.

Lemma shipped_options_forever_witness :
  options (sys_world toy_later) = default_options true /\
  cannyfs_access "/a" 4 fresh (sys_world toy_later)
  = Ret 0 fresh (sys_world toy_later).
Proof.
  pose proof (shipped_options_forever true toy_build (toy_os toy_files)
                toy_later
                (reachable_trans _ _ _ reachable_toy_opened
                   reachable_toy_later)) as H.
  split; [exact (proj1 (proj1 H)) | exact (proj1 (proj2 H) "/a" 4 fresh)].
Defined.

Lemma filemap_get_always_witness :
  filemap_get "/a" true no_lock fresh (toy_world (default_options true))
  = Ret (Some "/a", owned "/a") fresh
      (acquired "/a" (toy_world (default_options true))) /\
  exists w1 k,
    filemap_get "/a" true no_lock fresh
      (acquired "/a" (toy_world (default_options true)))
    = Blocked (on_mutex "/a") fresh w1 k.
Proof.
  split.
  - exact (proj1 (filemap_get_always "/a" fresh
                    (toy_world (default_options true)))).
  - destruct (proj1 (filemap_get_always "/a" fresh
                       (acquired "/a" (toy_world (default_options true)))))
      as (w1 & k & Hk & _).
    exists w1, k. exact Hk.
Defined.

Lemma filemap_get_lookup_witness :
  filemap_get "/a" false no_lock fresh (toy_world (default_options true))
  = Ret (None, no_lock) fresh (toy_world (default_options true)).
Proof.
  exact (proj1 (filemap_get_lookup "/a" fresh
                  (toy_world (default_options true)))).
Defined.

Lemma path_closure_runs_witness :
  exists r l' w',
    run_closure (on_path "/a" (chmod_fun 384)) 1 fresh
      (toy_world (default_options true)) = Ret r l' w' /\
    syslog w'
    = syslog (toy_world (default_options true))
      ++ [(sys_chmod "/a" 384,
           answer (sys_chmod "/a" 384) (toy_world (default_options true)))] /\
    mutex_free "/a" w' = true.
Proof.
  destruct (landed (run_closure (on_path "/a" (chmod_fun 384)) 1 fresh
                      (toy_world (default_options true)))
              (toy_world (default_options true)))
    as (r & l' & w' & Ho & Hl).
  { vm_compute. eauto. }
  exists r, l', w'. split; [exact Ho |].
  destruct (path_closure_runs _ _ _ _ _ _ _ _ _ Hl) as (Hs & _ & _ & Hm).
  split; [exact Hs | exact Hm].
Defined.

Lemma reader_lock_discipline_witness :
  exists b l' w',
    cannyfs_reader "/a" LOCK_WHOLE fresh (toy_world (default_options true))
    = Ret b l' w' /\
    mutex_held "/a" w'.
Proof.
  destruct (ran (cannyfs_reader "/a" LOCK_WHOLE fresh
                   (toy_world (default_options true))))
    as (b & l' & w' & Ho & Hr).
  { vm_compute. eauto. }
  exists b, l', w'. split; [exact Ho |].
  exact (proj1 (proj2 (proj2 (reader_lock_discipline "/a" LOCK_WHOLE fresh
                                (toy_world (default_options true)))
                         b l' w' Hr))).
Defined.

Lemma barrier_callbacks_witness :
  exists r l' w',
    run_callback (cb_getattr "/a") fresh (toy_world (default_options true))
    = Ret r l' w' /\
    at_rest "/a" w' /\
    exists w1,
      lock_seg (toy_world (default_options true)) w1 /\
      w' = called (sys_lstat "/a") w1.
Proof.
  destruct (landed (run_callback (cb_getattr "/a") fresh
                      (toy_world (default_options true)))
              (toy_world (default_options true)))
    as (r & l' & w' & Ho & Hl).
  { vm_compute. eauto. }
  exists r, l', w'. split; [exact Ho |].
  destruct (proj2 (barrier_callbacks (cb_getattr "/a") "/a" (sys_lstat "/a")
                     fresh (toy_world (default_options true)) eq_refl)
              _ _ _ _ Hl) as (Hr & w1 & Hseg & Hw & _).
  split; [exact Hr |]. exists w1. split; [exact Hseg | exact Hw].
Defined.

Lemma readlink_size_wraps_witness :
  sys_readlink "/a" (to_size_t (0 - 1))
  = sys_readlink "/a" 18446744073709551615.
Proof.
  exact (proj1 (readlink_size_wraps "/a" 0 fresh
                  (toy_world (default_options true))) eq_refl).
Defined.


Lemma opendir_result_witness :
  exists res l' w',
    cannyfs_opendir "/a" toy_fi fresh (toy_world (default_options true))
    = Ret res l' w' /\
    syslog w'
    = syslog (toy_world (default_options true))
      ++ [(sys_opendir "/a",
           answer (sys_opendir "/a") (toy_world (default_options true)))].
Proof.
  destruct (landed (cannyfs_opendir "/a" toy_fi fresh
                      (toy_world (default_options true)))
              (toy_world (default_options true)))
    as (res & l' & w' & Ho & Hl).
  { vm_compute. eauto. }
  exists res, l', w'. split; [exact Ho |].
  exact (proj1 (proj2 (proj2 (proj2 (opendir_result "/a" toy_fi fresh
                                       (toy_world (default_options true)))
                                _ _ _ _ Hl)))).
Defined.

Lemma close_closures_run_witness :
  exists r l' w',
    run_closure (on_path_fi "/a" toy_fi release_fun) 1 fresh opened_world
    = Ret r l' w' /\
    fd_of (handle_of toy_fi) opened_world <> -1 /\
    fhs w' = fhs opened_world.
Proof.
  destruct (landed (run_closure (on_path_fi "/a" toy_fi release_fun) 1 fresh
                      opened_world) opened_world)
    as (r & l' & w' & Ho & Hl).
  { vm_compute. eauto. }
  exists r, l', w'. split; [exact Ho |].
  destruct (proj2 (close_closures_run "/a" toy_fi 1 opened_world fresh
                     opened_world r l' w') Hl) as (Hne & _ & _ & Hf & _).
  split; [exact Hne | exact Hf].
Defined.

Lemma last_event_never_set_witness :
  last_event_of "/a" (sys_world toy_later) = 0.
Proof.
  exact (proj1 (last_event_never_set (default_options true) toy_build
                  (toy_os toy_files) toy_later
                  (reachable_trans _ _ _ reachable_toy_opened
                     reachable_toy_later)) "/a").
Defined.

Lemma closure_parks_holding_mutex_witness :
  exists l1 k,
    run_closure (on_path_fi "/a" toy_fi (fsync_fun 0)) 2 fresh created_world
    = Blocked (on_opened (handle_of toy_fi)) l1
        (acquired "/a" (insert_event 2 created_world)) k.
Proof.
  refine (proj1 (closure_parks_holding_mutex "/a" toy_fi (fsync_fun 0) 2 fresh
                   created_world eq_refl _ _ _ _)).
  - discriminate.
  - vm_compute. split; [discriminate | reflexivity].
  - vm_compute. reflexivity.
  - vm_compute. reflexivity.
Defined.



Lemma toy_run_of_four :
  is_Some (run_actions [call (cb_open "/a" toy_fi); call (cb_chmod "/a" 384);
                        call (cb_chmod "/a" 256); work 1%nat] toy_boot).
Proof.
  assert (H : option_map (fun _ => tt)
                (run_actions [call (cb_open "/a" toy_fi);
                              call (cb_chmod "/a" 384);
                              call (cb_chmod "/a" 256); work 1%nat] toy_boot)
              = Some tt) by (vm_compute; reflexivity).
  destruct (run_actions _ toy_boot); [eauto | discriminate].
Qed.

Lemma tickets_are_fresh_witness :
  exists s,
    run_actions [call (cb_open "/a" toy_fi); call (cb_chmod "/a" 384);
                 call (cb_chmod "/a" 256); work 1%nat] toy_boot = Some s /\
    0 <= eventId (sys_world s) <= 4 /\
    NoDup (t_event <$> workQueue (sys_world s)).
Proof.
  destruct toy_run_of_four as [s Hs]. exists s. split; [exact Hs |].
  assert (Hb : Z.of_nat (length [call (cb_open "/a" toy_fi);
                                 call (cb_chmod "/a" 384);
                                 call (cb_chmod "/a" 256); work 1%nat])
               < 2147483648) by (simpl; lia).
  pose proof (tickets_are_fresh (default_options true) toy_build
                (toy_os toy_files) _ s Hs Hb) as H.
  split; [exact (proj1 H) | exact (proj1 (proj2 (proj2 (proj2 H))))].
Defined.
